(** * ebookmaker: the text-segmentation and structural-analysis engine

    A shallow embedding of [src/lib/analyzer.ts] (chunking, heading
    classification, preprocessing, chapter splitting, readability, table of
    contents) and of [mergeChunkResults] of the AI client, with the
    properties of the specification stated and settled on it.

    JavaScript strings are sequences of UTF-16 code units: [jsstring] is a
    list of code units, [length] is the [.length] of the source. *)

From Stdlib Require Import String Ascii.
From Stdlib Require Import List NArith ZArith Lia Bool Arith.
From Stdlib Require Import Permutation Sorted DecimalNat.
From Stdlib Require Floats.SpecFloat.
Import ListNotations.

Set Warnings "-abstract-large-number".

(* ================================================================== *)
(** * JavaScript strings *)

Module JsString.

Definition codeunit := N.
Definition jsstring := list codeunit.

(** A literal of Basic Latin text. *)
Definition lit (s : string) : jsstring :=
  map N_of_ascii (list_ascii_of_string s).

Definition LF : codeunit := 10%N.
Definition CR : codeunit := 13%N.
Definition SP : codeunit := 32%N.
Definition HASH : codeunit := 35%N.
Definition HYPHEN : codeunit := 45%N.

Definition between (lo hi c : codeunit) : bool :=
  (lo <=? c)%N && (c <=? hi)%N.
Arguments between (lo hi c)%_N_scope.

(** ECMAScript LineTerminator: what [.] of a regular expression refuses. *)
Definition isLineTerminator (c : codeunit) : bool :=
  (c =? 10)%N || (c =? 13)%N || (c =? 0x2028)%N || (c =? 0x2029)%N.

(** ECMAScript WhiteSpace and LineTerminator: the class [\s] and what
    [String.prototype.trim] strips. *)
Definition isSpace (c : codeunit) : bool :=
  between 9 13 c || (c =? 32)%N || (c =? 0xA0)%N || (c =? 0x1680)%N
  || between 0x2000 0x200A c || (c =? 0x2028)%N || (c =? 0x2029)%N
  || (c =? 0x202F)%N || (c =? 0x205F)%N || (c =? 0x3000)%N
  || (c =? 0xFEFF)%N.

Definition isDigit (c : codeunit) : bool := between 48 57 c.
Definition isUpperLatin (c : codeunit) : bool := between 65 90 c.
Definition isLowerLatin (c : codeunit) : bool := between 97 122 c.
(** The range [가-힣] of the source's character classes. *)
Definition isHangul (c : codeunit) : bool := between 0xAC00 0xD7A3 c.

Definition eqb (a b : jsstring) : bool :=
  if list_eq_dec N.eq_dec a b then true else false.

(** [s.split(sep)] for a one-unit separator: never the empty array. *)
Fixpoint split (sep : codeunit) (s : jsstring) : list jsstring :=
  match s with
  | [] => [[]]
  | c :: s' =>
      if (c =? sep)%N then [] :: split sep s'
      else match split sep s' with
           | l :: ls => (c :: l) :: ls
           | [] => [[c]]
           end
  end.

(** [a.join(sep)]. *)
Fixpoint join (sep : jsstring) (ls : list jsstring) : jsstring :=
  match ls with
  | [] => []
  | [l] => l
  | l :: ls' => l ++ sep ++ join sep ls'
  end.

Fixpoint trimStart (s : jsstring) : jsstring :=
  match s with
  | c :: s' => if isSpace c then trimStart s' else s
  | [] => []
  end.

Definition trimEnd (s : jsstring) : jsstring := rev (trimStart (rev s)).

(** [s.trim()]. *)
Definition trim (s : jsstring) : jsstring := trimEnd (trimStart s).

Definition isEmpty (s : jsstring) : bool :=
  match s with [] => true | _ => false end.

(** [s.slice(from)] and [s.slice(0, to)] on arrays and strings, for
    indices that are not negative. *)
Definition sliceFrom {A} (from : nat) (l : list A) : list A := skipn from l.
Definition sliceTo {A} (to : nat) (l : list A) : list A := firstn to l.

(** Decimal rendering of a non-negative integer, as template literals and
    [||] on a number and a string produce it. *)
Fixpoint digits_of_uint (d : Decimal.uint) : jsstring :=
  match d with
  | Decimal.Nil => []
  | Decimal.D0 d => 48%N :: digits_of_uint d
  | Decimal.D1 d => 49%N :: digits_of_uint d
  | Decimal.D2 d => 50%N :: digits_of_uint d
  | Decimal.D3 d => 51%N :: digits_of_uint d
  | Decimal.D4 d => 52%N :: digits_of_uint d
  | Decimal.D5 d => 53%N :: digits_of_uint d
  | Decimal.D6 d => 54%N :: digits_of_uint d
  | Decimal.D7 d => 55%N :: digits_of_uint d
  | Decimal.D8 d => 56%N :: digits_of_uint d
  | Decimal.D9 d => 57%N :: digits_of_uint d
  end.

Definition ofNat (n : nat) : jsstring := digits_of_uint (Nat.to_uint n).

Definition hasLineFeed (s : jsstring) : bool := existsb (N.eqb LF) s.

(** The length of the longest prefix of [s] made of units of a class. *)
Fixpoint runLength (p : codeunit -> bool) (s : jsstring) : nat :=
  match s with
  | x :: s' => if p x then S (runLength p s') else 0
  | [] => 0
  end.

End JsString.
Import JsString.

(* ================================================================== *)
(** * JavaScript numbers where rounding shows

    [Math.floor(n * 0.7)] is computed in binary64: [90 * 0.7] is
    [62.99999999999999], whose floor is 62 and not 63.  The product is
    taken with the IEEE 754 operations of the Standard Library. *)

Module JsNumber.
Import Floats.SpecFloat.

Definition prec : Z := 53.
Definition emax : Z := 1024.

Definition ofNat (n : nat) : spec_float :=
  binary_normalize prec emax (Z.of_nat n) 0 false.

(** The doubles nearest to 0.7 and 0.3. *)
Definition d0_7 : spec_float := S754_finite false 0x16666666666666 (-53).
Definition d0_3 : spec_float := S754_finite false 0x13333333333333 (-54).

Definition mul : spec_float -> spec_float -> spec_float := SFmul prec emax.
Definition div : spec_float -> spec_float -> spec_float := SFdiv prec emax.
Definition ltb : spec_float -> spec_float -> bool := SFltb.

(** [Math.floor] of a double that is not negative, as a natural number
    (0 for the values that have none). *)
Definition floor (x : spec_float) : nat :=
  match x with
  | S754_finite false m e =>
      Z.to_nat (match e with
                | Zneg p => Z.shiftr (Zpos m) (Zpos p)
                | _ => Z.shiftl (Zpos m) e
                end)
  | _ => 0
  end.

End JsNumber.

(* ================================================================== *)
(** * Regular expressions

    The fragment of ECMAScript regular expressions that the analyzer
    uses, with the backtracking semantics of the language: quantifiers are
    greedy and give units back one at a time, alternatives are tried left
    to right, and a capturing group records what its last successful pass
    consumed.  Every quantifier of the source stands on a character class,
    except the one optional group [(.+)?]. *)

Module Regex.

Inductive regex :=
| Eps
| Cls (p : codeunit -> bool)                      (* a class, [.] included *)
| Seq (r1 r2 : regex)
| Alt (r1 r2 : regex)
| Rep (p : codeunit -> bool) (lo : nat) (hi : option nat)  (* [c{lo,hi}] *)
| Opt (r : regex)                                  (* [r?] *)
| Grp (n : nat) (r : regex)                        (* the n-th [( )] *)
| Bol                                              (* [^], no [m] flag *)
| Eol.                                             (* [$], no [m] flag *)

(** Captures, innermost and latest first. *)
Definition caps := list (nat * jsstring).

Fixpoint group (n : nat) (c : caps) : option jsstring :=
  match c with
  | [] => None
  | (m, g) :: c' => if m =? n then Some g else group n c'
  end.

(** [match[n]] in a template or a string context: undefined reads as
    the empty string. *)
Definition groupText (n : nat) (c : caps) : jsstring :=
  match group n c with Some g => g | None => [] end.

Section Run.
Context {R : Type}.

Definition kont := jsstring -> nat -> caps -> option R.

Definition below (n : nat) (hi : option nat) : bool :=
  match hi with Some h => n <? h | None => true end.

(** [c{lo,hi}] with [taken] units already consumed. *)
Fixpoint rep (p : codeunit -> bool) (lo : nat) (hi : option nat)
    (taken : nat) (s : jsstring) (pos : nat) (c : caps) (k : kont) : option R :=
  let stop := if lo <=? taken then k s pos c else None in
  match s with
  | x :: s' =>
      if p x && below taken hi then
        match rep p lo hi (S taken) s' (S pos) c k with
        | Some r => Some r
        | None => stop
        end
      else stop
  | [] => stop
  end.

(** Match [r] against the suffix [s] that starts at index [pos], then
    continue with [k]. *)
Fixpoint run (r : regex) (s : jsstring) (pos : nat) (c : caps) (k : kont) : option R :=
  match r with
  | Eps => k s pos c
  | Cls p =>
      match s with
      | x :: s' => if p x then k s' (S pos) c else None
      | [] => None
      end
  | Seq a b => run a s pos c (fun s' pos' c' => run b s' pos' c' k)
  | Alt a b =>
      match run a s pos c k with
      | Some r => Some r
      | None => run b s pos c k
      end
  | Rep p lo hi => rep p lo hi 0 s pos c k
  | Opt a =>
      match run a s pos c k with
      | Some r => Some r
      | None => k s pos c
      end
  | Grp n a =>
      run a s pos c (fun s' pos' c' => k s' pos' ((n, firstn (pos' - pos) s) :: c'))
  | Bol => if pos =? 0 then k s pos c else None
  | Eol => match s with [] => k s pos c | _ :: _ => None end
  end.
End Run.

(** A match that starts at [pos]: the index where it ends, and its
    captures. *)
Definition matchAt (r : regex) (s : jsstring) (pos : nat) : option (nat * caps) :=
  run r s pos [] (fun _ pos' c' => Some (pos', c')).

(** The leftmost match in the suffix [s] at [pos]: (start, end, captures). *)
Fixpoint search (r : regex) (s : jsstring) (pos : nat) : option (nat * nat * caps) :=
  match matchAt r s pos with
  | Some (e, c) => Some (pos, e, c)
  | None =>
      match s with
      | [] => None
      | _ :: s' => search r s' (S pos)
      end
  end.

(** [re.test(s)]. *)
Definition test (r : regex) (s : jsstring) : bool :=
  match search r s 0 with Some _ => true | None => false end.

(** [s.match(re)] without the [g] flag: the captures, or [None] for null. *)
Definition exec (r : regex) (s : jsstring) : option caps :=
  match search r s 0 with Some (_, _, c) => Some c | None => None end.

(** Replacement templates: literal units and [$n]. *)
Inductive titem := TLit (c : codeunit) | TGrp (n : nat).

Definition subst (tmpl : list titem) (c : caps) : jsstring :=
  flat_map (fun t => match t with TLit x => [x] | TGrp n => groupText n c end) tmpl.

(** The scan of a [g] regular expression over [s]: at every index not
    inside the previous match, [onMatch] consumes a match and [onSkip] a
    unit that no match starts at.  After an empty match the scan moves
    one unit on, as [lastIndex] does. *)
Section Scan.
Context {A : Type} (r : regex)
        (onMatch : jsstring -> caps -> A -> A) (onSkip : codeunit -> A -> A) (done : A).

Fixpoint scan (s : jsstring) (pos skip : nat) : A :=
  match s with
  | [] =>
      match skip, matchAt r [] pos with
      | 0, Some (_, c) => onMatch [] c done
      | _, _ => done
      end
  | x :: s' =>
      match skip with
      | S skip' => scan s' (S pos) skip'
      | 0 =>
          match matchAt r s pos with
          | Some (e, c) =>
              onMatch (firstn (e - pos) s) c
                (match e - pos with
                 | 0 => onSkip x (scan s' (S pos) 0)
                 | S n => scan s' (S pos) n
                 end)
          | None => onSkip x (scan s' (S pos) 0)
          end
      end
  end.
End Scan.

(** [s.replace(re, tmpl)] with the [g] flag. *)
Definition replaceAll (r : regex) (tmpl : list titem) (s : jsstring) : jsstring :=
  scan r (fun _ c rest => subst tmpl c ++ rest) (fun x rest => x :: rest) [] s 0 0.

(** [s.match(re)] with the [g] flag: the matched substrings, null when
    there is none. *)
Definition matchAll (r : regex) (s : jsstring) : option (list jsstring) :=
  match scan r (fun m _ rest => m :: rest) (fun _ rest => rest) [] s 0 0 with
  | [] => None
  | ms => Some ms
  end.

(** [s.replace(re, tmpl)] without the [g] flag: the first match only. *)
Definition replaceFirst (r : regex) (tmpl : list titem) (s : jsstring) : jsstring :=
  match search r s 0 with
  | Some (b, e, c) => firstn b s ++ subst tmpl c ++ skipn e s
  | None => s
  end.

(** Sequences, literal text, and literal text under the [i] flag (the
    source uses it on Basic Latin letters and on Hangul, which has no
    case). *)
Fixpoint seqs (rs : list regex) : regex :=
  match rs with
  | [] => Eps
  | [r] => r
  | r :: rs' => Seq r (seqs rs')
  end.

Fixpoint alts (rs : list regex) : regex :=
  match rs with
  | [] => Eps
  | [r] => r
  | r :: rs' => Alt r (alts rs')
  end.

Definition chr (c : codeunit) : regex := Cls (N.eqb c).

Definition foldCase (c : codeunit) : codeunit :=
  if isLowerLatin c then (c - 32)%N else c.

Definition chrI (c : codeunit) : regex :=
  Cls (fun x => (foldCase x =? foldCase c)%N).

Definition textI (s : jsstring) : regex := seqs (map chrI s).

Definition star (p : codeunit -> bool) : regex := Rep p 0 None.
Definition plus (p : codeunit -> bool) : regex := Rep p 1 None.
Definition maybe (p : codeunit -> bool) : regex := Rep p 0 (Some 1).

Definition anyOf (cs : list codeunit) (x : codeunit) : bool :=
  existsb (N.eqb x) cs.

(** [.]: any unit that is not a line terminator. *)
Definition dot (c : codeunit) : bool := negb (isLineTerminator c).

Definition isHash (c : codeunit) : bool := (c =? HASH)%N.
Definition isLF (c : codeunit) : bool := (c =? LF)%N.

End Regex.
Import Regex.

(* ================================================================== *)
(** * The case mappings of the host

    [String.prototype.toUpperCase] and [toLowerCase] follow the Unicode
    case tables of the engine that runs the analyzer.  The development is
    parametric in them; it relies on two facts only: an upper-cased string
    holds no unit of [a-z], and on Basic Latin text upper-casing maps
    [a-z] to [A-Z] unit by unit and leaves the rest. *)

Definition isBasicLatin (c : codeunit) : bool := (c <? 128)%N.

Definition upperLatin (c : codeunit) : codeunit :=
  if isLowerLatin c then (c - 32)%N else c.

Definition lowerLatin (c : codeunit) : codeunit :=
  if isUpperLatin c then (c + 32)%N else c.

Class Host := {
  toUpperCase : jsstring -> jsstring;
  toLowerCase : jsstring -> jsstring;
  toUpperCase_no_lower :
    forall s, existsb isLowerLatin (toUpperCase s) = false;
  toUpperCase_latin :
    forall s, forallb isBasicLatin s = true -> toUpperCase s = map upperLatin s
}.

Lemma upperLatin_not_lower c : isLowerLatin (upperLatin c) = false.
Proof.
  unfold upperLatin. destruct (isLowerLatin c) eqn:E; [|exact E].
  unfold isLowerLatin, between in *.
  apply andb_prop in E as [E1 E2]. apply N.leb_le in E1, E2.
  apply andb_false_iff. left. apply N.leb_gt. lia.
Qed.

Lemma map_upperLatin_no_lower s : existsb isLowerLatin (map upperLatin s) = false.
Proof.
  induction s as [|c s IH]; simpl; [reflexivity|].
  now rewrite upperLatin_not_lower, IH.
Qed.

(** The host restricted to Basic Latin letters: it agrees with every
    engine on text without other cased letters, and runs the analyzer on
    such text. *)
#[export] Instance latinHost : Host := {|
  toUpperCase := map upperLatin;
  toLowerCase := map lowerLatin;
  toUpperCase_no_lower := map_upperLatin_no_lower;
  toUpperCase_latin := fun s _ => eq_refl
|}.

(* ================================================================== *)
(** * Chunker *)

Definition CHUNK_SIZE : nat := 8000.
Definition CHUNK_OVERLAP : nat := 500.

Record ContentChunk := mkChunk {
  index : nat;
  content : jsstring;
  startLine : Z;
  endLine : Z;
  isFirst : bool;
  isLast : bool
}.

(** [/^#{1,6}\s/]. *)
Definition re_mdHeadingStart : regex :=
  Seq Bol (Seq (Rep isHash 1 (Some 6)) (Cls isSpace)).

(** The test of the backward scan: a blank line or a markdown heading. *)
Definition isSplitPoint (line : jsstring) : bool :=
  isEmpty (trim line) || test re_mdHeadingStart line.

(** [for (j = n - 1; j >= lo; j--) if (isSplitPoint cur[j]) { splitIndex =
    j + 1; break }], entered with the candidate [n = j + 1]. *)
Fixpoint scanBack (cur : list jsstring) (lo n dflt : nat) : nat :=
  match n with
  | 0 => dflt
  | S j =>
      if j <? lo then dflt
      else if isSplitPoint (nth j cur []) then S j
      else scanBack cur lo j dflt
  end.

Definition findSplitIndex (cur : list jsstring) : nat :=
  let n := length cur in
  scanBack cur (JsNumber.floor (JsNumber.mul (JsNumber.ofNat n) JsNumber.d0_7)) n n.

(** [Math.ceil(CHUNK_OVERLAP / 80)]. *)
Definition overlapLines : nat := (CHUNK_OVERLAP + 79) / 80.

(** The variables of the loop of [splitIntoChunks]. *)
Record chunkState := mkState {
  chunks : list ContentChunk;
  currentChunk : list jsstring;
  currentLength : nat;
  chunkStartLine : Z;
  chunkIndex : nat
}.

Definition initState : chunkState := mkState [] [] 0 0 0.

(** One iteration of the loop, at line [i]. *)
Definition chunkStep (st : chunkState) (i : nat) (line : jsstring) : chunkState :=
  let lineLength := length line + 1 in
  let cur := currentChunk st in
  if (CHUNK_SIZE <? currentLength st + lineLength) && (0 <? length cur) then
    let splitIndex := findSplitIndex cur in
    let chunkContent := join [LF] (sliceTo splitIndex cur) in
    let c := mkChunk (chunkIndex st) chunkContent (chunkStartLine st)
               (chunkStartLine st + Z.of_nat splitIndex - 1)
               (length (chunks st) =? 0) false in
    let keepLines :=
      sliceFrom (Z.to_nat (Z.max (Z.of_nat splitIndex - Z.of_nat overlapLines) 0)) cur in
    mkState (chunks st ++ [c]) (keepLines ++ [line])
      (length (join [LF] keepLines) + lineLength)
      (Z.of_nat i - Z.of_nat (length keepLines) + 1)
      (S (chunkIndex st))
  else
    mkState (chunks st) (cur ++ [line]) (currentLength st + lineLength)
      (chunkStartLine st) (chunkIndex st).

Fixpoint chunkLoop (ls : list jsstring) (i : nat) (st : chunkState) : chunkState :=
  match ls with
  | [] => st
  | line :: ls' => chunkLoop ls' (S i) (chunkStep st i line)
  end.

(** [chunks[chunks.length - 1].isLast = true]. *)
Fixpoint markLast (cs : list ContentChunk) : list ContentChunk :=
  match cs with
  | [] => []
  | [c] => [mkChunk (index c) (content c) (startLine c) (endLine c) (isFirst c) true]
  | c :: cs' => c :: markLast cs'
  end.

Definition splitIntoChunks (text : jsstring) : list ContentChunk :=
  let lines := split LF text in
  let st := chunkLoop lines 0 initState in
  let cs :=
    if 0 <? length (currentChunk st) then
      chunks st ++ [mkChunk (chunkIndex st) (join [LF] (currentChunk st))
                      (chunkStartLine st) (Z.of_nat (length lines) - 1)
                      (length (chunks st) =? 0) true]
    else chunks st in
  markLast cs.

Definition needsChunking (text : jsstring) : bool :=
  CHUNK_SIZE <? length text.

(** The lines [from..to] of a document, joined: what a chunk that records
    [startLine = from] and [endLine = to] is read as. *)
Definition linesBetween (text : jsstring) (from to : Z) : jsstring :=
  join [LF]
    (firstn (Z.to_nat (to - from + 1)) (skipn (Z.to_nat from) (split LF text))).

Definition chunkMatchesItsRange (text : jsstring) (c : ContentChunk) : bool :=
  (0 <=? startLine c)%Z &&
  JsString.eqb (content c) (linesBetween text (startLine c) (endLine c)).

(** The document of two lines of 5000 units, [a...a\nb...b]. *)
Definition twoLongLines : jsstring :=
  repeat 97%N 5000 ++ [LF] ++ repeat 98%N 5000.


(** ** Coverage of the document by the chunks *)

(** The ranges (first line, number of lines) that a chunk list reads from
    the document: every range has a line, the first starts at [a0], and
    each next one starts [k] lines before the end of its predecessor (at
    its start when the predecessor is shorter). *)
Fixpoint overlapChain (k a0 : nat) (rs : list (nat * nat)) : Prop :=
  match rs with
  | [] => True
  | (a, len) :: rs' => a = a0 /\ 1 <= len /\ overlapChain k (a + (len - k)) rs'
  end.

Definition rangeEnd (r : nat * nat) : nat := fst r + snd r.

Definition inRange (i : nat) (r : nat * nat) : Prop :=
  fst r <= i < rangeEnd r.

Definition linesOf (ls : list jsstring) (r : nat * nat) : list jsstring :=
  firstn (snd r) (skipn (fst r) ls).

(** The start of the range that follows [rs] in a chain from [a0]. *)
Fixpoint nextStart (k a0 : nat) (rs : list (nat * nat)) : nat :=
  match rs with
  | [] => a0
  | (a, len) :: rs' => nextStart k (a + (len - k)) rs'
  end.

(* ================================================================== *)
(** * Table of contents *)

Module TOCEntry.
Record t := mk {
  id : jsstring;
  title : jsstring;
  level : nat;
  position : Z
}.
End TOCEntry.

(** [/[^a-z0-9가-힣\s-]/g], [/\s+/g] and [/-+/g]. *)
Definition isSlugUnit (c : codeunit) : bool :=
  isLowerLatin c || isDigit c || isHangul c || isSpace c || (c =? HYPHEN)%N.

Definition re_nonSlug : regex := Cls (fun c => negb (isSlugUnit c)).
Definition re_spaces : regex := plus isSpace.
Definition re_hyphens : regex := plus (N.eqb HYPHEN).

(** [/^(#{1,6})\s+(.+)$/]. *)
Definition re_mdHeading : regex :=
  seqs [Bol; Grp 1 (Rep isHash 1 (Some 6)); plus isSpace; Grp 2 (plus dot); Eol].

Section TableOfContents.
Context {host : Host}.

(** The slug of [generateHeadingId]. *)
Definition slugOf (text : jsstring) : jsstring :=
  trim (replaceAll re_hyphens [TLit HYPHEN]
          (replaceAll re_spaces [TLit HYPHEN]
             (replaceAll re_nonSlug [] (toLowerCase text)))).

(** [`heading-${slug || index}`]. *)
Definition generateHeadingId (text : jsstring) (index : nat) : jsstring :=
  let slug := slugOf text in
  lit "heading-" ++ (if isEmpty slug then JsString.ofNat index else slug).

(** [lines.forEach((line, index) => ...)], with [headingIndex]. *)
Fixpoint tocLoop (lines : list jsstring) (index headingIndex : nat)
    : list TOCEntry.t :=
  match lines with
  | [] => []
  | line :: rest =>
      match exec re_mdHeading line with
      | Some headingMatch =>
          let level := length (groupText 1 headingMatch) in
          let title := trim (groupText 2 headingMatch) in
          let id := generateHeadingId title headingIndex in
          TOCEntry.mk id title level (Z.of_nat index + 1)
            :: tocLoop rest (S index) (S headingIndex)
      | None => tocLoop rest (S index) headingIndex
      end
  end.

Definition extractTableOfContents (markdown : jsstring) : list TOCEntry.t :=
  tocLoop (split LF markdown) 0 0.

End TableOfContents.

(** Two headings with one title. *)
Definition twoIntros : jsstring := lit "# Intro" ++ [LF] ++ lit "# Intro".

(** The first example of the specification's testable properties. *)
Definition twoChapters : jsstring :=
  lit "# Chapter 1" ++ [LF; LF] ++ lit "Hello world." ++ [LF; LF]
  ++ lit "# Chapter 2" ++ [LF; LF] ++ lit "Bye.".

(* ================================================================== *)
(** * Merging the analyses of the chunks *)

(** The four values of the type [ContentType]. *)
Inductive ContentType := fiction | nonFiction | technical | educational.

Definition ContentType_eqb (a b : ContentType) : bool :=
  match a, b with
  | fiction, fiction | nonFiction, nonFiction
  | technical, technical | educational, educational => true
  | _, _ => false
  end.

Definition ContentType_eq_dec (a b : ContentType) : {a = b} + {a <> b}.
Proof. decide equality. Defined.

Module ImageInsertionPoint.
Record place := mkPlace {
  section : jsstring;
  afterParagraph : Z;
  lineNumber : Z
}.
Record t := mk {
  id : jsstring;
  position : place;
  suggestedType : jsstring;
  context : jsstring;
  generatedPrompt : jsstring;
  approved : bool
}.
End ImageInsertionPoint.

(** What [analyzeChunk] returns for one chunk. *)
Module ChunkResult.
Record t := mk {
  tableOfContents : list TOCEntry.t;
  imagePoints : list ImageInsertionPoint.t;
  contentType : ContentType
}.
End ChunkResult.

Module ContentAnalysis.
Record t := mk {
  wordCount : nat;
  estimatedPages : nat;
  contentType : ContentType;
  tableOfContents : list TOCEntry.t;
  imagePoints : list ImageInsertionPoint.t
}.
End ContentAnalysis.

(** [a.sort((x, y) => key(x) - key(y))]: [Array.prototype.sort] is stable,
    and with a comparator that is the difference of integer keys its
    result is the stable sort by that key. *)
Section Sort.
Context {A : Type} (key : A -> Z).

Fixpoint insertByKey (x : A) (l : list A) : list A :=
  match l with
  | [] => [x]
  | y :: l' =>
      if (key x <=? key y)%Z then x :: y :: l' else y :: insertByKey x l'
  end.

Fixpoint sortByKey (l : list A) : list A :=
  match l with
  | [] => []
  | x :: l' => insertByKey x (sortByKey l')
  end.
End Sort.

(** [contentTypeCounts[k] = (contentTypeCounts[k] || 0) + 1] on an object
    whose keys are kept in insertion order. *)
Fixpoint bump (k : ContentType) (counts : list (ContentType * nat))
    : list (ContentType * nat) :=
  match counts with
  | [] => [(k, 1)]
  | (k', n) :: rest =>
      if ContentType_eqb k' k then (k', n + 1) :: rest
      else (k', n) :: bump k rest
  end.

Definition countContentTypes (results : list ChunkResult.t)
    : list (ContentType * nat) :=
  fold_left (fun counts r => bump (ChunkResult.contentType r) counts) results [].

(** [Object.entries(counts).sort((a, b) => b[1] - a[1])[0]?.[0] ||
    'non-fiction']. *)
Definition majorityContentType (counts : list (ContentType * nat)) : ContentType :=
  match sortByKey (fun e => (- Z.of_nat (snd e))%Z) counts with
  | (k, _) :: _ => k
  | [] => nonFiction
  end.

Definition mergeChunkResults (results : list ChunkResult.t) (totalWordCount : nat)
    : ContentAnalysis.t :=
  let allToc :=
    sortByKey TOCEntry.position (flat_map ChunkResult.tableOfContents results) in
  let allImagePoints :=
    sortByKey (fun p => ImageInsertionPoint.lineNumber (ImageInsertionPoint.position p))
      (flat_map ChunkResult.imagePoints results) in
  let contentType := majorityContentType (countContentTypes results) in
  ContentAnalysis.mk totalWordCount ((totalWordCount + 249) / 250)
    contentType allToc allImagePoints.

(** The number of chunks classified as [c]. *)
Definition votes (c : ContentType) (results : list ChunkResult.t) : nat :=
  length (filter (fun r => ContentType_eqb (ChunkResult.contentType r) c) results).

(* ================================================================== *)
(** * Chapters for export *)

Module Chapter.
Record t := mk {
  title : jsstring;
  content : jsstring;
  level : nat
}.
End Chapter.

(** [/^(#{1,2})\s+(.+)$/]. *)
Definition re_chapterHeading : regex :=
  seqs [Bol; Grp 1 (Rep isHash 1 (Some 2)); plus isSpace; Grp 2 (plus dot); Eol].

(** [currentChapter]: its content is an array of lines until it is pushed. *)
Record openChapter := mkOpen {
  openTitle : jsstring;
  openLines : list jsstring;
  openLevel : nat
}.

Definition closeChapter (c : openChapter) : Chapter.t :=
  Chapter.mk (openTitle c) (trim (join [LF] (openLines c))) (openLevel c).

(** [headingMatch && headingMatch[1].length <= 2]. *)
Definition chapterHeadingMatch (line : jsstring) : option caps :=
  match exec re_chapterHeading line with
  | Some m => if length (groupText 1 m) <=? 2 then Some m else None
  | None => None
  end.

(** One iteration of [for (const line of lines)] on [chapters] and
    [currentChapter]. *)
Definition chapterStep (st : list Chapter.t * option openChapter) (line : jsstring)
    : list Chapter.t * option openChapter :=
  let (chapters, currentChapter) := st in
  match chapterHeadingMatch line with
  | Some m =>
      let chapters' :=
        match currentChapter with
        | Some c => chapters ++ [closeChapter c]
        | None => chapters
        end in
      (chapters', Some (mkOpen (trim (groupText 2 m)) [] (length (groupText 1 m))))
  | None =>
      match currentChapter with
      | Some c => (chapters, Some (mkOpen (openTitle c) (openLines c ++ [line]) (openLevel c)))
      | None => (chapters, Some (mkOpen (lit "Introduction") [line] 1))
      end
  end.

Definition splitIntoChapters (markdown : jsstring) : list Chapter.t :=
  let lines := split LF markdown in
  let (chapters, currentChapter) := fold_left chapterStep lines ([], None) in
  let chapters' :=
    match currentChapter with
    | Some c => chapters ++ [closeChapter c]
    | None => chapters
    end in
  filter (fun ch => 0 <? length (Chapter.content ch)) chapters'.

(** The chapters that [generateEPUB] converts: those of
    [splitIntoChapters], or one chapter with all the content when there is
    none; [metadataTitle] is [options.metadata.title]. *)
Definition generateEPUB_chapters (markdown metadataTitle : jsstring) : list Chapter.t :=
  let chapters := splitIntoChapters markdown in
  if length chapters =? 0 then
    [Chapter.mk (if isEmpty metadataTitle then lit "Content" else metadataTitle)
       markdown 1]
  else chapters.

(* ================================================================== *)
(** * Heading classifier *)

Module HeadingMatch.
Record t := mk {
  isHeading : bool;
  title : jsstring;
  level : nat
}.
End HeadingMatch.

(** Units of the Korean keywords and of the full-width punctuation. *)
Definition JE : codeunit := 0xC81C%N.      (* 제 *)
Definition JANG : codeunit := 0xC7A5%N.    (* 장 *)
Definition PYEON : codeunit := 0xD3B8%N.   (* 편 *)
Definition BU : codeunit := 0xBD80%N.      (* 부 *)
Definition JEOL : codeunit := 0xC808%N.    (* 절 *)

Definition isColonOrStop : codeunit -> bool := anyOf [46; 58; 0xFF1A]%N.   (* [.:：] *)
Definition isStop : codeunit -> bool := anyOf [46; 0xFF0E]%N.               (* [.．] *)
Definition isRoman : codeunit -> bool :=                                    (* [IVXLCDM] with i *)
  fun c => anyOf (lit "IVXLCDM") (foldCase c).

(** [\s*[.:：]?\s*(.+)?$], the tail of the keyword patterns. *)
Definition re_titleTail : list regex :=
  [star isSpace; maybe isColonOrStop; star isSpace; Opt (Grp 2 (plus dot)); Eol].

(** [/^(제\s*\d+\s*K)\s*[.:：]?\s*(.+)?$/] for a keyword unit [K]. *)
Definition re_korean (k : codeunit) : regex :=
  seqs (Bol :: Grp 1 (seqs [chr JE; star isSpace; plus isDigit; star isSpace; chr k])
            :: re_titleTail).

(** [/^(W\s+\d+)\s*[.:：]?\s*(.+)?$/i] for a word [W]. *)
Definition re_english (w : string) : regex :=
  seqs (Bol :: Grp 1 (seqs [textI (lit w); plus isSpace; plus isDigit]) :: re_titleTail).

Definition CHAPTER_PATTERNS : list regex :=
  [ (* Korean patterns *)
    re_korean JANG;
    re_korean PYEON;
    re_korean BU;
    re_korean JEOL;
    seqs (Bol :: Grp 1 (seqs [plus isDigit; chr JANG]) :: re_titleTail);
    seqs [Bol; Grp 1 (alts [textI [0xD504; 0xB864; 0xB85C; 0xADF8]%N;   (* 프롤로그 *)
                            textI [0xC5D0; 0xD544; 0xB85C; 0xADF8]%N;   (* 에필로그 *)
                            textI [0xC11C; 0xBB38]%N;                   (* 서문 *)
                            textI [0xBA38; 0xB9AC; 0xB9D0]%N;           (* 머리말 *)
                            textI [0xB9FA; 0xC74C; 0xB9D0]%N;           (* 맺음말 *)
                            textI [0xB4E4; 0xC5B4; 0xAC00; 0xBA70]%N;   (* 들어가며 *)
                            textI [0xB098; 0xAC00; 0xBA70]%N])];        (* 나가며 *)
    (* English patterns *)
    re_english "Chapter";
    re_english "Part";
    re_english "Section";
    seqs [Bol; Grp 1 (alts [textI (lit "Prologue"); textI (lit "Epilogue");
                            textI (lit "Introduction"); textI (lit "Conclusion");
                            textI (lit "Preface")])];
    (* Numbered patterns *)
    seqs [Bol; Grp 1 (plus isDigit); star isSpace; Cls isStop; plus isSpace;
          Grp 2 (plus dot); Eol];
    seqs [Bol; Grp 1 (plus isRoman); star isSpace; Cls isStop; plus isSpace;
          Grp 2 (plus dot); Eol];
    (* Already markdown headings *)
    seqs [Bol; Rep isHash 1 (Some 3); plus isSpace; Grp 1 (plus dot); Eol] ].

(** [/부|Part/i], [/편|장|Chapter/i] and [/절|Section/i]. *)
Definition re_partClass : regex := alts [chrI BU; textI (lit "Part")].
Definition re_chapterClass : regex :=
  alts [chrI PYEON; chrI JANG; textI (lit "Chapter")].
Definition re_sectionClass : regex := alts [chrI JEOL; textI (lit "Section")].

(** [/[A-Z가-힣]/], [/[.。,，;；]$/] and [/[a-zA-Z가-힣]/]. *)
Definition isCapitalOrHangul (c : codeunit) : bool := isUpperLatin c || isHangul c.
Definition isEndPunct : codeunit -> bool :=
  anyOf [46; 0x3002; 44; 0xFF0C; 59; 0xFF1B]%N.
Definition isLetter (c : codeunit) : bool :=
  isLowerLatin c || isUpperLatin c || isHangul c.

Definition re_capitalOrHangul : regex := Cls isCapitalOrHangul.
Definition re_endPunct : regex := Seq (Cls isEndPunct) Eol.
Definition re_letter : regex := Cls isLetter.

(** [for (const pattern of CHAPTER_PATTERNS)]: the first pattern that
    matches. *)
Fixpoint firstMatch (patterns : list regex) (s : jsstring) : option caps :=
  match patterns with
  | [] => None
  | pattern :: rest =>
      match exec pattern s with
      | Some m => Some m
      | None => firstMatch rest s
      end
  end.

Definition notHeading : HeadingMatch.t := HeadingMatch.mk false [] 0.

Section HeadingClassifier.
Context {host : Host}.

Definition isChapterHeading (line : jsstring) : HeadingMatch.t :=
  let trimmed := trim line in
  if isEmpty trimmed then notHeading
  else
    match exec re_mdHeading trimmed with
    | Some mdMatch =>
        HeadingMatch.mk true (groupText 2 mdMatch) (length (groupText 1 mdMatch))
    | None =>
        match firstMatch CHAPTER_PATTERNS trimmed with
        | Some m =>
            let m1 := groupText 1 m in
            let title :=
              match group 2 m with
              | Some ((_ :: _) as m2) => trim (m1 ++ [SP] ++ m2)
              | _ => m1
              end in
            let level :=
              if test re_partClass m1 then 1
              else if test re_chapterClass m1 then 2
              else if test re_sectionClass m1 then 3
              else 1 in
            HeadingMatch.mk true title level
        | None =>
            if (length trimmed <=? 50) && (2 <=? length trimmed) then
              let isAllCaps :=
                JsString.eqb trimmed (toUpperCase trimmed)
                && test re_capitalOrHangul trimmed in
              let noEndPunct := negb (test re_endPunct trimmed) in
              let hasLetters := test re_letter trimmed in
              if isAllCaps && noEndPunct && hasLetters
              then HeadingMatch.mk true trimmed 2
              else notHeading
            else notHeading
        end
    end.

End HeadingClassifier.


(* ================================================================== *)
(** * Readability scorer

    The two tests on numbers that are not integers, [count > n * 0.3] and
    [total / n > 150], compare a binary64 product or quotient of counts
    with an integer.  They are modelled by the exact comparison of
    integers; [0 / 0] is NaN, which exceeds nothing.  For the counts a
    document can have, rounding does not change the outcome: the exact
    product and quotient are either integers, which binary64 represents,
    or at least 1/10 (resp. 1/n) away from every integer. *)

(** [count > n * 0.3]. *)
Definition exceedsThreeTenths (count n : nat) : bool := 3 * n <? 10 * count.

(** [total / n], of two counts. *)
Inductive quotient := NaN | Infinity | Ratio (total n : nat).

Definition divide (total n : nat) : quotient :=
  match n, total with
  | 0, 0 => NaN
  | 0, _ => Infinity
  | _, _ => Ratio total n
  end.

(** [q > bound]. *)
Definition exceeds (q : quotient) (bound : nat) : bool :=
  match q with
  | NaN => false
  | Infinity => true
  | Ratio total n => bound * n <? total
  end.

(** The messages of the report.  [VeryLongLines n] is
    [`${n}개의 매우 긴 줄이 감지됨`]; the others are the fixed texts
    [목차/제목이 감지되지 않음], [단락 구분이 부족함] and
    [불필요한 공백이 많음]. *)
Inductive issue :=
| VeryLongLines (n : nat)
| NoHeadingDetected
| FewParagraphBreaks
| ManyNeedlessSpaces.

(** [자동 줄바꿈을 활성화하세요], [챕터 감지를 활성화하세요],
    [자동 줄바꿈으로 가독성을 개선하세요], [공백 제거를 활성화하세요]. *)
Inductive suggestion :=
| EnableAutoLineBreak
| EnableChapterDetection
| ImproveWithAutoLineBreak
| EnableSpaceRemoval.

Module ReadabilityReport.
Record t := mk {
  issues : list issue;
  score : Z;
  suggestions : list suggestion
}.
End ReadabilityReport.

(** [if (cond) { issues.push(i); suggestions.push(s); score -= points }]. *)
Definition penalize (cond : bool) (i : issue) (s : suggestion) (points : Z)
    (r : ReadabilityReport.t) : ReadabilityReport.t :=
  if cond then
    ReadabilityReport.mk (ReadabilityReport.issues r ++ [i])
      (ReadabilityReport.score r - points)
      (ReadabilityReport.suggestions r ++ [s])
  else r.

(** [/  +/g]: a space, then one space or more. *)
Definition re_twoSpaces : regex := Seq (chr SP) (plus (N.eqb SP)).

Definition nonEmptyLinesOf (lines : list jsstring) : list jsstring :=
  filter (fun l => negb (isEmpty (trim l))) lines.

Definition longLinesOf (nonEmptyLines : list jsstring) : list jsstring :=
  filter (fun l => 200 <? length l) nonEmptyLines.

(** [nonEmptyLines.reduce((a, b) => a + b.length, 0) / nonEmptyLines.length]. *)
Definition avgLineLengthOf (nonEmptyLines : list jsstring) : quotient :=
  divide (fold_left (fun a b => a + length b) nonEmptyLines 0) (length nonEmptyLines).

Section Readability.
Context {host : Host}.

(** [/^#{1,6}\s/.test(l) || isChapterHeading(l).isHeading]. *)
Definition isDetectedHeading (l : jsstring) : bool :=
  test re_mdHeadingStart l || HeadingMatch.isHeading (isChapterHeading l).

Definition analyzeReadability (content : jsstring) : ReadabilityReport.t :=
  let lines := split LF content in
  let nonEmptyLines := nonEmptyLinesOf lines in
  (* very long lines *)
  let longLines := longLinesOf nonEmptyLines in
  let r1 :=
    penalize (exceedsThreeTenths (length longLines) (length nonEmptyLines))
      (VeryLongLines (length longLines)) EnableAutoLineBreak 20
      (ReadabilityReport.mk [] 100 []) in
  (* lack of headings *)
  let headings := filter isDetectedHeading lines in
  let r2 :=
    penalize ((length headings =? 0) && (3000 <? length content))
      NoHeadingDetected EnableChapterDetection 15 r1 in
  (* lack of paragraph breaks *)
  let avgLineLength := avgLineLengthOf nonEmptyLines in
  let r3 :=
    penalize (exceeds avgLineLength 150)
      FewParagraphBreaks ImproveWithAutoLineBreak 15 r2 in
  (* excessive whitespace *)
  let excessiveSpaces := matchAll re_twoSpaces content in
  let r4 :=
    penalize (match excessiveSpaces with
              | Some ms => 20 <? length ms
              | None => false
              end)
      ManyNeedlessSpaces EnableSpaceRemoval 10 r3 in
  ReadabilityReport.mk (ReadabilityReport.issues r4)
    (Z.max 0 (ReadabilityReport.score r4))
    (ReadabilityReport.suggestions r4).

End Readability.

(** The binary64 forms of the two tests, for the comparison with the exact
    ones. *)
Definition exceedsThreeTenths_binary64 (count n : nat) : bool :=
  JsNumber.ltb (JsNumber.mul (JsNumber.ofNat n) JsNumber.d0_3) (JsNumber.ofNat count).

Definition averageExceeds_binary64 (total n bound : nat) : bool :=
  JsNumber.ltb (JsNumber.ofNat bound) (JsNumber.div (JsNumber.ofNat total) (JsNumber.ofNat n)).

(** A well-headed document of four lines, and 25 lines of 201 units. *)
Definition shortHeadedDocument : jsstring :=
  lit "# One" ++ [LF; LF] ++ lit "Some text." ++ [LF] ++ lit "More text.".

Definition longLines25 : list jsstring := repeat (repeat 120%N 201) 25.

(* ================================================================== *)
(** * Preprocessor *)

Record PreprocessOptions := mkOptions {
  autoLineBreak : bool;
  detectChapters : bool;
  removeExtraSpaces : bool;
  fixPunctuation : bool
}.

Definition notLF (c : codeunit) : bool := negb (c =? LF)%N.
Definition isSP (c : codeunit) : bool := (c =? SP)%N.

(** The regular expressions of [preprocessContent], in the order of the
    source, and their replacement templates. *)
Definition re_crlf : regex := Seq (chr CR) (chr LF).                    (* /\r\n/g *)
Definition re_cr : regex := chr CR.                                     (* /\r/g *)
Definition re_multiSpace : regex :=                                     (* /([^\n]) {2,}/g *)
  Seq (Grp 1 (Cls notLF)) (Rep isSP 2 None).
Definition re_trailingSpace : regex := Seq (plus isSP) (chr LF).        (* / +\n/g *)
Definition re_fourNewlines : regex := Rep isLF 4 None.                  (* /\n{4,}/g *)
Definition re_punctCapital : regex :=                                   (* /([.!?])([A-Z가-힣])/g *)
  Seq (Grp 1 (Cls (anyOf (lit ".!?")))) (Grp 2 (Cls isCapitalOrHangul)).
Definition re_spaceBeforePunct : regex :=                               (* /\s+([,.])/g *)
  Seq (plus isSpace) (Grp 1 (Cls (anyOf (lit ",.")))).
Definition re_hangulStop : regex :=                                     (* /([가-힣])\.([가-힣])/g *)
  seqs [Grp 1 (Cls isHangul); chr 46%N; Grp 2 (Cls isHangul)].
Definition re_headingSpacing : regex :=                                 (* /\n*(#{1,6}\s+[^\n]+)\n*/g *)
  seqs [star isLF; Grp 1 (seqs [Rep isHash 1 (Some 6); plus isSpace; plus notLF]);
        star isLF].
Definition re_leadingNewlines : regex := Seq Bol (plus isLF).           (* /^\n+/ *)
Definition re_threeNewlines : regex := Rep isLF 3 None.                 (* /\n{3,}/g *)

(** [s.endsWith(t)]. *)
Definition endsWith (s t : jsstring) : bool :=
  (length t <=? length s) && JsString.eqb (skipn (length s - length t) s) t.

Definition sentenceEndings : list codeunit :=
  [46; 33; 63; 0x3002; 0xFF01; 0xFF1F]%N.      (* . ! ? 。 ！ ？ *)

Definition abbrevs : list jsstring :=
  [lit "Mr"; lit "Mrs"; lit "Ms"; lit "Dr"; lit "Prof"; lit "Inc"; lit "Ltd";
   lit "etc"; lit "vs"].

(** [detectSentenceEnd(text, pos)]. *)
Definition detectSentenceEnd (text : jsstring) (pos : nat) : bool :=
  match nth_error text pos with
  | None => false
  | Some char =>
      if negb (anyOf sentenceEndings char) then false
      else
        let followed :=
          match nth_error text (pos + 1) with
          | None => true
          | Some nextChar => isSpace nextChar
          end in
        if followed then
          let prevWord := firstn (pos - (pos - 10)) (skipn (pos - 10) text) in
          negb (existsb (endsWith prevWord) abbrevs)
        else false
  end.

(** The inner loop of the line wrap, over the units [rest] of [trimmed]
    from index [j]: [currentLine] and the lines pushed. *)
Fixpoint breakAtSentences (trimmed rest : jsstring) (j : nat)
    (currentLine : jsstring) (pushed : list jsstring) : list jsstring * jsstring :=
  match rest with
  | [] => (pushed, currentLine)
  | c :: rest' =>
      let currentLine := currentLine ++ [c] in
      if detectSentenceEnd trimmed j && (40 <=? length currentLine) then
        breakAtSentences trimmed rest' (S j) [] (pushed ++ [trim currentLine])
      else
        breakAtSentences trimmed rest' (S j) currentLine pushed
  end.

Section Preprocess.
Context {host : Host}.

(** Step 4 on one line: the lines it pushes to [processed]. *)
Definition wrapLine (line : jsstring) : list jsstring :=
  let trimmed := trim line in
  if (length trimmed <=? 80) || isEmpty trimmed then [line]
  else if HeadingMatch.isHeading (isChapterHeading trimmed) then [line]
  else
    let (pushed, currentLine) := breakAtSentences trimmed trimmed 0 [] [] in
    if isEmpty (trim currentLine) then pushed else pushed ++ [trim currentLine].

(** Step 5: the loop over [lines] with [prevEmpty]. *)
Fixpoint formatChapters (lines : list jsstring) (prevEmpty : bool) : list jsstring :=
  match lines with
  | [] => []
  | line :: rest =>
      let trimmed := trim line in
      let h := isChapterHeading trimmed in
      if negb (isEmpty trimmed) && prevEmpty
         && HeadingMatch.isHeading h
         && negb (match trimmed with c :: _ => (c =? HASH)%N | [] => false end)
      then
        let prefix := repeat HASH (HeadingMatch.level h) in
        [] :: (prefix ++ [SP] ++ HeadingMatch.title h) :: []
           :: formatChapters rest true
      else line :: formatChapters rest (isEmpty trimmed)
  end.

Definition preprocessContent (content : jsstring) (options : PreprocessOptions)
    : jsstring :=
  (* Step 1: normalize line endings *)
  let result := replaceAll re_cr [TLit LF] (replaceAll re_crlf [TLit LF] content) in
  (* Step 2: remove extra spaces *)
  let result :=
    if removeExtraSpaces options then
      let result := replaceAll re_multiSpace [TGrp 1; TLit SP] result in
      let result := replaceAll re_trailingSpace [TLit LF] result in
      replaceAll re_fourNewlines [TLit LF; TLit LF; TLit LF] result
    else result in
  (* Step 3: fix punctuation *)
  let result :=
    if fixPunctuation options then
      let result := replaceAll re_punctCapital [TGrp 1; TLit SP; TGrp 2] result in
      let result := replaceAll re_spaceBeforePunct [TGrp 1] result in
      replaceAll re_hangulStop [TGrp 1; TLit 46%N; TLit SP; TGrp 2] result
    else result in
  (* Step 4: auto line break *)
  let result :=
    if autoLineBreak options then join [LF] (flat_map wrapLine (split LF result))
    else result in
  (* Step 5: detect and format chapters *)
  let result :=
    if detectChapters options then join [LF] (formatChapters (split LF result) true)
    else result in
  (* Clean up: spacing around headings, leading newlines, blank lines *)
  let result :=
    replaceAll re_headingSpacing [TLit LF; TLit LF; TGrp 1; TLit LF; TLit LF] result in
  let result := replaceFirst re_leadingNewlines [] result in
  replaceAll re_threeNewlines [TLit LF; TLit LF] result.

End Preprocess.


Definition allOptions : PreprocessOptions := mkOptions true true true true.
Definition noOptions : PreprocessOptions := mkOptions false false false false.


(* ================================================================== *)
(** * The passes of the preprocessor, unit by unit

    Steps 2 and 3 and the clean-up of [preprocessContent] are chains of
    global replacements.  The functions of this part say, for each
    replacement, which units it keeps, drops or adds after a look at the
    units next to them; the proofs show them equal to the replacements and
    work on them. *)

(** A global replacement, from any index and inside any match. *)
Definition plainScan (r : regex) (tmpl : list titem) (s : jsstring) (pos skip : nat)
    : jsstring :=
  scan r (fun _ c rest => subst tmpl c ++ rest) (fun x rest => x :: rest) [] s pos skip.




Definition headIs (p : codeunit -> bool) (s : jsstring) : bool :=
  match s with x :: _ => p x | [] => false end.

(** What follows the run of units of [p] that [s] starts with. *)
Definition afterRun (p : codeunit -> bool) (s : jsstring) : jsstring :=
  skipn (runLength p s) s.



Definition isSentenceStop : codeunit -> bool := anyOf (lit ".!?").
Definition isCommaStop : codeunit -> bool := anyOf (lit ",.").



(** Texts that hold no unit of [p] followed by one of [q], and none of
    [p] followed by one of [q] and one of [r]. *)
Fixpoint avoids2 (p q : codeunit -> bool) (s : jsstring) : Prop :=
  match s with
  | [] => True
  | x :: t => p x && headIs q t = false /\ avoids2 p q t
  end.





(** A full stop right before a capital. *)
Definition stopThenCapital : jsstring := lit ".A".
(* ================================================================== *)
(** * The reply of the model, without its code fence *)

(** [s.startsWith(t)]. *)
Definition startsWith (s t : jsstring) : bool :=
  JsString.eqb (firstn (length t) s) t.

(** [cleanJsonResponse] of the AI client. *)
Definition cleanJsonResponse (response : jsstring) : jsstring :=
  let jsonStr := trim response in
  let jsonStr :=
    if startsWith jsonStr (lit "```json") then sliceFrom 7 jsonStr else jsonStr in
  let jsonStr :=
    if startsWith jsonStr (lit "```") then sliceFrom 3 jsonStr else jsonStr in
  let jsonStr :=
    if endsWith jsonStr (lit "```") then sliceTo (length jsonStr - 3) jsonStr
    else jsonStr in
  trim jsonStr.
(* ================================================================== *)
(** * Validation before export *)

(** [#{1,6}\s], what follows [^] in the tests for a heading line. *)
Definition re_hashesSpace : regex := Seq (Rep isHash 1 (Some 6)) (Cls isSpace).

(** Where [#{1,6}\s] matches: one to six [#] stand before a white-space
    unit. *)
Definition startsHeading (s : jsstring) : bool :=
  (1 <=? runLength isHash s) && (runLength isHash s <=? 6)
  && headIs isSpace (afterRun isHash s).

(** [/^r/m.test(s)] for the suffix [s] at index [pos]: under the [m] flag
    [^] holds at index 0 and after every line terminator; [lineStart]
    says whether it holds at [pos]. *)
Fixpoint testAtLineStart (r : regex) (s : jsstring) (pos : nat) (lineStart : bool)
    : bool :=
  (lineStart && match matchAt r s pos with Some _ => true | None => false end)
  || match s with
     | [] => false
     | c :: s' => testAtLineStart r s' (S pos) (isLineTerminator c)
     end.

(** The three messages: [Content is empty], [Content is too short for an
    ebook] and [No headings found. Add at least one heading for chapter
    structure.]. *)
Inductive epubError := ContentIsEmpty | ContentTooShort | NoHeadingsFound.

Module Validation.
Record t := mk {
  valid : bool;
  errors : list epubError
}.
End Validation.

Definition validateEpubContent (markdown : jsstring) : Validation.t :=
  let errors := [] in
  let errors :=
    if isEmpty markdown || (length (trim markdown) =? 0)
    then errors ++ [ContentIsEmpty] else errors in
  let errors :=
    if length markdown <? 100 then errors ++ [ContentTooShort] else errors in
  let errors :=
    if negb (testAtLineStart re_hashesSpace markdown 0 true)
    then errors ++ [NoHeadingsFound] else errors in
  Validation.mk (length errors =? 0) errors.

(** A line that [extractTableOfContents] lists, its level and its title. *)
Definition isTocLine (line : jsstring) (level : nat) (title : jsstring) : Prop :=
  startsHeading line = true
  /\ level = runLength isHash line
  /\ title = trim (afterRun isHash line).
(* ================================================================== *)
(** * Places for images *)

(** The variables of the loop of [findImageInsertionPoints]. *)
Record pointsState := mkPoints {
  points : list nat;
  paragraphCount : nat;
  lastHeadingLine : nat
}.

(** One iteration of the loop, at line [i] of [lines]. *)
Definition pointsStep (lines : list jsstring) (st : pointsState) (i : nat)
    (line : jsstring) : pointsState :=
  if test re_mdHeadingStart line then
    (* track headings *)
    mkPoints (points st) 0 i
  else if isEmpty (trim line) && (0 <? i)
          && negb (isEmpty (trim (nth (i - 1) lines []))) then
    (* track paragraph ends *)
    let paragraphCount := S (paragraphCount st) in
    if (3 <=? paragraphCount) && (paragraphCount mod 3 =? 0) then
      mkPoints (points st ++ [i]) paragraphCount (lastHeadingLine st)
    else mkPoints (points st) paragraphCount (lastHeadingLine st)
  else st.

Fixpoint pointsLoop (lines rest : list jsstring) (i : nat) (st : pointsState)
    : pointsState :=
  match rest with
  | [] => st
  | line :: rest' => pointsLoop lines rest' (S i) (pointsStep lines st i line)
  end.

Definition findImageInsertionPoints (markdown : jsstring) : list nat :=
  let lines := split LF markdown in
  points (pointsLoop lines lines 0 (mkPoints [] 0 0)).

(** A blank line: [line.trim() === '']. *)
Definition isBlankLine (line : jsstring) : bool := isEmpty (trim line).

(** ** Insertion of the images *)

Module ImageToInsert.
Record t := mk {
  lineNumber : Z;
  imageUrl : jsstring;
  alt : jsstring
}.
End ImageToInsert.

(** [a.splice(start, 0, item)] for an integer [start]: a negative
    [start] counts from the end, and the index is clamped to the array. *)
Definition spliceIn {A} (start : Z) (item : A) (a : list A) : list A :=
  let len := Z.of_nat (length a) in
  let actualStart :=
    if (start <? 0)%Z then Z.max (len + start) 0 else Z.min start len in
  firstn (Z.to_nat actualStart) a ++ item :: skipn (Z.to_nat actualStart) a.

(** [`\n![${image.alt}](${image.imageUrl})\n`]. *)
Definition imageMarkdown (image : ImageToInsert.t) : jsstring :=
  [LF] ++ lit "![" ++ ImageToInsert.alt image ++ lit "]("
  ++ ImageToInsert.imageUrl image ++ lit ")" ++ [LF].

Definition insertImagesIntoMarkdown (markdown : jsstring)
    (images : list ImageToInsert.t) : jsstring :=
  let lines := split LF markdown in
  let sortedImages :=
    sortByKey (fun image => (- ImageToInsert.lineNumber image)%Z) images in
  join [LF]
    (fold_left
       (fun lines image =>
          spliceIn (ImageToInsert.lineNumber image) (imageMarkdown image) lines)
       sortedImages lines).

(** The images whose [lineNumber] is [i], the last of the array first. *)
Definition imagesAt (i : nat) (images : list ImageToInsert.t) : list jsstring :=
  map imageMarkdown
    (rev (filter (fun image => (ImageToInsert.lineNumber image =? Z.of_nat i)%Z) images)).

(** The lines from index [i] on, each after the images whose [lineNumber]
    is its index; the images whose [lineNumber] is the number of lines
    come last. *)
Fixpoint weave (i : nat) (lines : list jsstring) (images : list ImageToInsert.t)
    : list jsstring :=
  match lines with
  | [] => imagesAt i images
  | line :: lines' => imagesAt i images ++ line :: weave (S i) lines' images
  end.
(* ================================================================== *)
(** * Slugs *)

Section Slug.
Context {host : Host}.

(** [generateSlug]: the chain of [generateHeadingId], written a second
    time in the source. *)
Definition generateSlug (title : jsstring) : jsstring :=
  trim (replaceAll re_hyphens [TLit HYPHEN]
          (replaceAll re_spaces [TLit HYPHEN]
             (replaceAll re_nonSlug [] (toLowerCase title)))).

End Slug.

(** The units of [a-z0-9가-힣-]. *)
Definition isAnchorUnit (c : codeunit) : bool :=
  isLowerLatin c || isDigit c || isHangul c || (c =? HYPHEN)%N.

(** [/p+/g] to one unit [c]: of a run of units of [p] the last becomes
    [c] and the others go. *)
Fixpoint squash (p : codeunit -> bool) (c : codeunit) (s : jsstring) : jsstring :=
  match s with
  | [] => []
  | x :: s' =>
      if p x then (if headIs p s' then squash p c s' else c :: squash p c s')
      else x :: squash p c s'
  end.
(* ================================================================== *)
(** * Chapters for the preview *)

Module SectionChapter.
Record t := mk {
  title : jsstring;
  content : jsstring;
  level : nat;
  startLine : nat
}.
End SectionChapter.

(** A chapter of [splitByChapters] while its content is an array of
    lines. *)
Record openSection := mkSection {
  sectionTitle : jsstring;
  sectionLines : list jsstring;
  sectionLevel : nat;
  sectionStart : nat
}.

(** The variables of the loop of [splitByChapters]. *)
Record sectionState := mkSectionState {
  sections : list openSection;
  currentSection : option openSection;
  introContent : list jsstring
}.

(** [/^#+\s*/]. *)
Definition re_leadingHashes : regex := seqs [Bol; plus isHash; star isSpace].

Definition PREFACE : jsstring := [0xC11C; 0xBB38]%N.      (* 서문 *)
Definition MAIN_TEXT : jsstring := [0xBCF8; 0xBB38]%N.    (* 본문 *)

(** [introContent.some(l => l.trim().length > 0)]. *)
Definition hasContent (introContent : list jsstring) : bool :=
  existsb (fun l => 0 <? length (trim l)) introContent.

(** The chapter that the text before the first heading gives, if any. *)
Definition pushIntro (title : jsstring) (st : sectionState) : list openSection :=
  if 0 <? length (introContent st) then
    if hasContent (introContent st)
    then sections st ++ [mkSection title (introContent st) 1 0]
    else sections st
  else sections st.

Section ByChapters.
Context {host : Host}.

(** One iteration of the loop, at line [i]. *)
Definition sectionStep (st : sectionState) (i : nat) (line : jsstring) : sectionState :=
  let h := isChapterHeading (trim line) in
  if HeadingMatch.isHeading h && (HeadingMatch.level h <=? 2) then
    (* save the previous chapter *)
    let sections' :=
      match currentSection st with
      | Some c => sections st ++ [c]
      | None => pushIntro PREFACE st
      end in
    (* start a new chapter *)
    mkSectionState sections'
      (Some (mkSection (replaceFirst re_leadingHashes [] (HeadingMatch.title h))
               [] (HeadingMatch.level h) i))
      (introContent st)
  else
    match currentSection st with
    | Some c =>
        mkSectionState (sections st)
          (Some (mkSection (sectionTitle c) (sectionLines c ++ [line])
                   (sectionLevel c) (sectionStart c)))
          (introContent st)
    | None =>
        mkSectionState (sections st) None (introContent st ++ [line])
    end.

Fixpoint sectionLoop (lines : list jsstring) (i : nat) (st : sectionState)
    : sectionState :=
  match lines with
  | [] => st
  | line :: lines' => sectionLoop lines' (S i) (sectionStep st i line)
  end.

Definition closeSection (c : openSection) : SectionChapter.t :=
  SectionChapter.mk (sectionTitle c) (trim (join [LF] (sectionLines c)))
    (sectionLevel c) (sectionStart c).

Definition splitByChapters (content : jsstring) : list SectionChapter.t :=
  let lines := split LF content in
  let st := sectionLoop lines 0 (mkSectionState [] None []) in
  let sections' :=
    match currentSection st with
    | Some c => sections st ++ [c]
    | None => pushIntro MAIN_TEXT st
    end in
  map closeSection sections'.

(** A line that starts a chapter: a heading of level 1 or 2. *)
Definition startsChapter (line : jsstring) : bool :=
  let h := isChapterHeading line in
  HeadingMatch.isHeading h && (HeadingMatch.level h <=? 2).

(** The indices, from [i], of the lines that start a chapter. *)
Fixpoint chapterStarts (lines : list jsstring) (i : nat) : list nat :=
  match lines with
  | [] => []
  | line :: lines' =>
      if startsChapter line then i :: chapterStarts lines' (S i)
      else chapterStarts lines' (S i)
  end.

(** What a chapter that a heading opened records of that heading: the
    index of the line, the level, and the title without leading hashes. *)
Definition headed (lines : list jsstring) (start level : nat) (title : jsstring)
    : Prop :=
  exists line,
    nth_error lines start = Some line
    /\ level = HeadingMatch.level (isChapterHeading line)
    /\ 1 <= level <= 2
    /\ title = replaceFirst re_leadingHashes []
                (HeadingMatch.title (isChapterHeading line)).

End ByChapters.

(** The chapter that the lines [pre] before the first heading give. *)
Definition introChapter (title : jsstring) (pre : list jsstring)
    : list SectionChapter.t :=
  if hasContent pre then [SectionChapter.mk title (trim (join [LF] pre)) 1 0] else [].

(** The units of a text that are not white space. *)
Definition inked (s : jsstring) : jsstring := filter (fun c => negb (isSpace c)) s.
(* ================================================================== *)
(** * What [splitIntoChapters] reads of a line *)

(** A line that [splitIntoChapters] takes for a heading. *)
Definition isChapterLine (line : jsstring) : bool :=
  match chapterHeadingMatch line with
  | Some _ => true
  | None => false
  end.

(** What a chapter records of the line that opened it: the number of
    hashes that start the line, one or two, and the rest of the line,
    trimmed; or the title [Introduction] and level 1 of the chapter that
    the lines before the first heading make. *)
Definition chapterFrom (lines : list jsstring) (title : jsstring) (level : nat)
    : Prop :=
  (title = lit "Introduction" /\ level = 1)
  \/ exists line,
       In line lines
       /\ isChapterLine line = true
       /\ level = runLength isHash line
       /\ 1 <= level <= 2
       /\ title = trim (afterRun isHash line).

(* ================================================================== *)
(** * The word count

    [analyzeContent] counts the words of a document with
    [content.split(/\s+/).filter(w => w.length > 0).length], and the
    preprocessing route counts those of a chapter the same way. *)

(** [/\s+/]. *)
Definition re_whiteSpace : regex := plus isSpace.

(** The limit of [split] when none is given: 2^32 - 1 pieces. *)
Definition splitLimit : N := 4294967295%N.

(** [S.substring(p, q)] for [p <= q]. *)
Definition substring (S : jsstring) (p q : nat) : jsstring :=
  firstn (q - p) (skipn p S).

(** The loop of [RegExp.prototype[@@split]] for a splitter without
    capturing groups: the splitter is tried at the index [q] only (it is
    made sticky); [p] is where the piece under way starts.  A round either
    moves [q] one unit on or starts the next piece at the end of the match;
    after an empty match that ends a piece the next round moves [q], so
    twice the length of [S] bounds the number of rounds, and [None] is a
    loop that has not ended within [fuel] rounds. *)
Fixpoint splitLoop (splitter : regex) (S : jsstring) (fuel p q : nat)
    (A : list jsstring) : option (list jsstring) :=
  if q <? length S then
    match fuel with
    | 0 => None
    | Datatypes.S fuel' =>
        match matchAt splitter (skipn q S) q with
        | None => splitLoop splitter S fuel' p (q + 1) A
        | Some (lastIndex, _) =>
            let e := Nat.min lastIndex (length S) in
            if e =? p then splitLoop splitter S fuel' p (q + 1) A
            else
              let A := A ++ [substring S p q] in
              if (N.of_nat (length A) =? splitLimit)%N then Some A
              else splitLoop splitter S fuel' e e A
        end
    end
  else Some (A ++ [substring S p (length S)]).

(** [S.split(splitter)]. *)
Definition splitRegex (splitter : regex) (S : jsstring) : option (list jsstring) :=
  match S with
  | [] =>
      match matchAt splitter [] 0 with
      | Some _ => Some []
      | None => Some [S]
      end
  | _ :: _ => splitLoop splitter S (2 * length S + 1) 0 0 []
  end.

(** [const totalWordCount = content.split(/\s+/).filter(w => w.length > 0).length]. *)
Definition totalWordCount (content : jsstring) : option nat :=
  match splitRegex re_whiteSpace content with
  | Some pieces => Some (length (filter (fun w => 0 <? length w) pieces))
  | None => None
  end.

(** The number of maximal runs of units that are not white space;
    [inWord] says that the unit before is one of a run. *)
Fixpoint wordRunsFrom (inWord : bool) (s : jsstring) : nat :=
  match s with
  | [] => if inWord then 1 else 0
  | c :: s' =>
      if isSpace c then (if inWord then 1 else 0) + wordRunsFrom false s'
      else wordRunsFrom true s'
  end.

Definition wordRuns (s : jsstring) : nat := wordRunsFrom false s.

(* ================================================================== *)
(** * The word count of the local analysis

    [countWords] takes the markdown syntax off a text before it counts.
    Three of its patterns have a lazy quantifier, [[\s\S]*?] and [.*?],
    which the patterns above do not have: a lazy quantifier tries what
    follows it first and takes one more unit each time that fails.  None
    of the patterns of [countWords] has a capturing group that is read,
    so a match is the index where it ends. *)

Inductive lazyRegex :=
| Greedy (r : regex)                     (* a part with no lazy quantifier *)
| LazyStar (p : codeunit -> bool)        (* [c*?] *)
| LSeq (a b : lazyRegex)
| LAlt (a b : lazyRegex).

Definition lazyKont := jsstring -> nat -> option nat.

(** [c*?] on the suffix [s] at [pos]. *)
Fixpoint lazyRep (p : codeunit -> bool) (s : jsstring) (pos : nat) (k : lazyKont)
    : option nat :=
  match k s pos with
  | Some e => Some e
  | None =>
      match s with
      | x :: s' => if p x then lazyRep p s' (S pos) k else None
      | [] => None
      end
  end.

Fixpoint runLazy (r : lazyRegex) (s : jsstring) (pos : nat) (k : lazyKont)
    : option nat :=
  match r with
  | Greedy g => run g s pos [] (fun s' pos' _ => k s' pos')
  | LazyStar p => lazyRep p s pos k
  | LSeq a b => runLazy a s pos (fun s' pos' => runLazy b s' pos' k)
  | LAlt a b =>
      match runLazy a s pos k with
      | Some e => Some e
      | None => runLazy b s pos k
      end
  end.

(** A match that starts at [pos]: the index where it ends. *)
Definition matchAtLazy (r : lazyRegex) (s : jsstring) (pos : nat) : option nat :=
  runLazy r s pos (fun _ pos' => Some pos').

(** [s.replace(re, f)] with the [g] flag and a function of the matched
    text ([() => ''] for the replacement ['']), as the scan of [replaceAll]:
    [skip] units are inside the previous match, and after an empty match
    the scan moves one unit on. *)
Fixpoint replaceAllWith (r : lazyRegex) (f : jsstring -> jsstring)
    (s : jsstring) (pos skip : nat) : jsstring :=
  match s with
  | [] =>
      match skip, matchAtLazy r [] pos with
      | 0, Some _ => f []
      | _, _ => []
      end
  | x :: s' =>
      match skip with
      | S skip' => replaceAllWith r f s' (S pos) skip'
      | 0 =>
          match matchAtLazy r s pos with
          | Some e =>
              f (firstn (e - pos) s)
              ++ match e - pos with
                 | 0 => x :: replaceAllWith r f s' (S pos) 0
                 | S n => replaceAllWith r f s' (S pos) n
                 end
          | None => x :: replaceAllWith r f s' (S pos) 0
          end
      end
  end.

Definition BACKTICK : codeunit := 96%N.
Definition BANG : codeunit := 33%N.
Definition LBRACKET : codeunit := 91%N.
Definition RBRACKET : codeunit := 93%N.
Definition LPAREN : codeunit := 40%N.
Definition RPAREN : codeunit := 41%N.

Definition anyUnit (c : codeunit) : bool := true.                  (* [\s\S] *)
Definition notBacktick (c : codeunit) : bool := negb (c =? BACKTICK)%N.

(** [/```[\s\S]*?```/g]. *)
Definition re_codeBlock : lazyRegex :=
  LSeq (Greedy (seqs [chr BACKTICK; chr BACKTICK; chr BACKTICK]))
    (LSeq (LazyStar anyUnit)
       (Greedy (seqs [chr BACKTICK; chr BACKTICK; chr BACKTICK]))).

(** [/`[^`]+`/g]. *)
Definition re_inlineCode : regex :=
  seqs [chr BACKTICK; plus notBacktick; chr BACKTICK].

(** [\[.*?\]\(.*?\)]. *)
Definition bracketsThenParens : lazyRegex :=
  LSeq (Greedy (chr LBRACKET))
    (LSeq (LazyStar dot)
       (LSeq (Greedy (seqs [chr RBRACKET; chr LPAREN]))
          (LSeq (LazyStar dot) (Greedy (chr RPAREN))))).

(** [/!\[.*?\]\(.*?\)/g] and [/\[.*?\]\(.*?\)/g]. *)
Definition re_image : lazyRegex := LSeq (Greedy (chr BANG)) bracketsThenParens.
Definition re_link : lazyRegex := bracketsThenParens.

(** [/\[|\]|\(.*?\)/g]. *)
Definition re_linkSyntax : lazyRegex :=
  LAlt (Greedy (chr LBRACKET))
    (LAlt (Greedy (chr RBRACKET))
       (LSeq (Greedy (chr LPAREN)) (LSeq (LazyStar dot) (Greedy (chr RPAREN))))).

(** [/[#*_~`>|-]/g]. *)
Definition isMarkdownSymbol : codeunit -> bool := anyOf (lit "#*_~`>|-").

Definition remove (m : jsstring) : jsstring := [].

(** [(match) => match.replace(/\[|\]|\(.*?\)/g, '')]. *)
Definition keepLinkText (m : jsstring) : jsstring :=
  replaceAllWith re_linkSyntax remove m 0 0.

(** [plainText] of [countWords]. *)
Definition plainTextOf (content : jsstring) : jsstring :=
  let s := replaceAllWith re_codeBlock remove content 0 0 in     (* code blocks *)
  let s := replaceAll re_inlineCode [] s in                      (* inline code *)
  let s := replaceAllWith re_image remove s 0 0 in               (* images *)
  let s := replaceAllWith re_link keepLinkText s 0 0 in          (* link text *)
  let s := replaceAll (Cls isMarkdownSymbol) [] s in             (* symbols *)
  trim s.

(** [plainText.split(/\s+/).filter((word) => word.length > 0).length]:
    the expression of [totalWordCount]. *)
Definition countWords (content : jsstring) : option nat :=
  totalWordCount (plainTextOf content).

(* ================================================================== *)
(** * Properties of JavaScript strings *)

Lemma eqb_eq a b : JsString.eqb a b = true <-> a = b.
Proof.
  unfold JsString.eqb. destruct (list_eq_dec N.eq_dec a b); split; congruence.
Qed.

(* ================================================================== *)
(** * Properties of the chunker *)

(** C9. [needsChunking] is false exactly on the documents of at most
    [CHUNK_SIZE] = 8000 code units. *)
Theorem needsChunking_false_iff (D : jsstring) :
  needsChunking D = false <-> length D <= CHUNK_SIZE.
Proof.
  unfold needsChunking. rewrite Nat.ltb_ge. reflexivity.
Qed.

Lemma CHUNK_SIZE_value : CHUNK_SIZE = 8000.
Proof. reflexivity. Qed.

(** [Math.floor(n * 0.7)] is the floor of the binary64 product. *)
Example floor_of_seven_tenths :
  map (fun n => JsNumber.floor (JsNumber.mul (JsNumber.ofNat n) JsNumber.d0_7))
      [0; 1; 3; 10; 90; 100]
  = [0; 0; 2; 7; 62; 70].
Proof. vm_compute. reflexivity. Qed.

(** The last example of the specification's testable properties: 200
    lines of 99 units, 19999 units in all, give three chunks. *)
Example splitIntoChunks_three_chunks :
  map (fun c => (index c, startLine c, endLine c, isFirst c, isLast c))
      (splitIntoChunks (join [LF] (repeat (repeat 97%N 99) 200)))
  = [(0, 0%Z, 79%Z, true, false); (1, 74%Z, 153%Z, false, false);
     (2, 147%Z, 199%Z, false, true)].
Proof. vm_compute. reflexivity. Qed.

(** C1. On [twoLongLines] the second chunk holds both lines (the first is
    kept as overlap) and records [startLine = 1] and [endLine = 1]: its
    content begins at line 0, one line before the recorded start, and is
    not the text of lines 1..1. *)
Theorem splitIntoChunks_startLine_off_by_one :
  map (fun c => (index c, startLine c, endLine c, isFirst c, isLast c))
      (splitIntoChunks twoLongLines)
    = [(0, 0%Z, 0%Z, true, false); (1, 1%Z, 1%Z, false, true)]
  /\ map content (splitIntoChunks twoLongLines)
     = [repeat 97%N 5000; twoLongLines]
  /\ map (chunkMatchesItsRange twoLongLines) (splitIntoChunks twoLongLines)
     = [true; false]
  /\ linesBetween twoLongLines 0 1 = twoLongLines.
Proof.
  vm_compute. repeat split.
Qed.

(** ** Coverage *)

Lemma overlapChain_snoc k rs : forall a0 len,
  overlapChain k a0 rs -> 1 <= len ->
  overlapChain k a0 (rs ++ [(nextStart k a0 rs, len)]).
Proof.
  induction rs as [|[a l] rs IH]; simpl; intros a0 len H Hl.
  - auto.
  - destruct H as (-> & H1 & H2). auto.
Qed.

Lemma nextStart_snoc k rs : forall a0 a len,
  nextStart k a0 (rs ++ [(a, len)]) = a + (len - k).
Proof.
  induction rs as [|[b l] rs IH]; simpl; intros; auto.
Qed.

(** In a chain every range starts no later than the lines covered so
    far end, so the ranges leave no gap. *)
Lemma overlapChain_covers k rs : forall a0 hi i,
  overlapChain k a0 rs ->
  a0 <= hi -> a0 <= i ->
  i < fold_left Nat.max (map rangeEnd rs) hi ->
  i < hi \/ Exists (inRange i) rs.
Proof.
  induction rs as [|[a l] rs IH]; simpl; intros a0 hi i H Hhi Hi Hlt.
  - auto.
  - destruct H as (-> & Hl & H).
    unfold rangeEnd at 1 in Hlt. simpl in Hlt.
    destruct (Nat.lt_ge_cases i (a0 + l)) as [Hin|Hout].
    + right. constructor. unfold inRange, rangeEnd. simpl. lia.
    + destruct (IH (a0 + (l - k)) (Nat.max hi (a0 + l)) i H) as [Hc|Hc];
        try lia; auto.
Qed.

Lemma fold_max_ge l : forall hi, hi <= fold_left Nat.max l hi.
Proof.
  induction l as [|x l IH]; simpl; intros; auto.
  etransitivity; [|apply IH]. lia.
Qed.

Lemma fold_max_last l : forall hi d,
  l <> [] -> last l d <= fold_left Nat.max l hi.
Proof.
  induction l as [|x l IH]; intros hi d Hne; [congruence|].
  destruct l as [|y l].
  - simpl. lia.
  - change (last (y :: l) d <= fold_left Nat.max (y :: l) (Nat.max hi x)).
    apply IH. discriminate.
Qed.

Lemma split_not_nil sep s : split sep s <> [].
Proof.
  destruct s as [|c s]; simpl; [discriminate|].
  destruct (c =? sep)%N; [discriminate|].
  destruct (split sep s); discriminate.
Qed.

Lemma join_nil_inv sep ls :
  sep <> [] -> ls <> [] -> join sep ls = [] -> ls = [[]].
Proof.
  intros Hsep Hls. destruct ls as [|l [|l' ls]]; simpl; intros H.
  - congruence.
  - now subst.
  - apply app_eq_nil in H as [_ H]. apply app_eq_nil in H as [H _]. congruence.
Qed.

Lemma scanBack_range cur lo : forall n dflt,
  scanBack cur lo n dflt = dflt \/ 1 <= scanBack cur lo n dflt <= n.
Proof.
  induction n as [|j IH]; simpl; intros dflt; auto.
  destruct (j <? lo); auto.
  destruct (isSplitPoint (nth j cur [])).
  - right; lia.
  - destruct (IH dflt) as [->|H]; auto. right; lia.
Qed.

Lemma findSplitIndex_range cur :
  cur <> [] -> 1 <= findSplitIndex cur <= length cur.
Proof.
  intros Hne. unfold findSplitIndex.
  assert (1 <= length cur) by (destruct cur; simpl; [congruence|lia]).
  match goal with |- context [scanBack cur ?lo ?n ?d] =>
    destruct (scanBack_range cur lo n d) as [->|Hr] end; lia.
Qed.

(** The loop invariant of [splitIntoChunks] after the lines [pre]: the
    chunks emitted so far read ranges of a chain, and the working buffer is
    the rest of [pre] from the start that the chain gives next.  The start
    that a chunk records is the first line of its range for the first
    chunk, and one more for the others. *)
Definition recordedOffset (first : bool) : Z := if first then 0%Z else 1%Z.

Definition chunkIsRange (pre : list jsstring) (c : ContentChunk) (r : nat * nat) : Prop :=
  content c = join [LF] (linesOf pre r)
  /\ rangeEnd r <= length pre
  /\ startLine c = (Z.of_nat (fst r) + recordedOffset (isFirst c))%Z.

Definition firstFlags (cs : list ContentChunk) : Prop :=
  match cs with
  | [] => True
  | c :: cs' => isFirst c = true /\ Forall (fun c' => isFirst c' = false) cs'
  end.

Definition chunkInv (pre : list jsstring) (st : chunkState) : Prop :=
  exists rs,
    Forall2 (chunkIsRange pre) (chunks st) rs
    /\ overlapChain overlapLines 0 rs
    /\ currentChunk st = skipn (nextStart overlapLines 0 rs) pre
    /\ nextStart overlapLines 0 rs <= length pre
    /\ (pre <> [] -> nextStart overlapLines 0 rs < length pre)
    /\ chunkStartLine st
       = (Z.of_nat (nextStart overlapLines 0 rs)
          + recordedOffset (length (chunks st) =? 0)%nat)%Z
    /\ firstFlags (chunks st).

Lemma linesOf_app pre post r :
  rangeEnd r <= length pre -> linesOf (pre ++ post) r = linesOf pre r.
Proof.
  destruct r as [a len]. unfold linesOf, rangeEnd. simpl. intros H.
  rewrite skipn_app, firstn_app, length_skipn.
  replace (len - (length pre - a)) with 0 by lia.
  simpl. now rewrite app_nil_r.
Qed.

Lemma chunkIsRange_app pre post c r :
  chunkIsRange pre c r -> chunkIsRange (pre ++ post) c r.
Proof.
  intros (H1 & H2 & H3). repeat split.
  - now rewrite linesOf_app.
  - rewrite length_app. lia.
  - exact H3.
Qed.

Lemma skipn_snoc {A} n (l : list A) x :
  n <= length l -> skipn n (l ++ [x]) = skipn n l ++ [x].
Proof.
  intros H. rewrite skipn_app. replace (n - length l) with 0 by lia. reflexivity.
Qed.

Lemma firstFlags_snoc cs c :
  firstFlags cs -> isFirst c = (length cs =? 0) -> firstFlags (cs ++ [c]).
Proof.
  destruct cs as [|c0 cs]; simpl; intros H Hc.
  - split; [exact Hc|constructor].
  - destruct H as [H0 H]. split; [exact H0|].
    apply Forall_app. split; [exact H|]. constructor; [exact Hc|constructor].
Qed.

Arguments overlapLines : simpl never.

Lemma chunkStep_inv pre st line :
  chunkInv pre st -> chunkInv (pre ++ [line]) (chunkStep st (length pre) line).
Proof.
  intros (rs & Hcs & Hch & Hcur & Hle & Hlt & Hstart & Hflags).
  set (s := nextStart overlapLines 0 rs) in *.
  unfold chunkStep.
  destruct ((CHUNK_SIZE <? currentLength st + (length line + 1))
            && (0 <? length (currentChunk st))) eqn:Hsplit.
  - apply andb_prop in Hsplit as [_ Hpos]. apply Nat.ltb_lt in Hpos.
    assert (Hne : currentChunk st <> []) by (destruct (currentChunk st); simpl in *; [lia|discriminate]).
    pose proof (findSplitIndex_range _ Hne) as Hk.
    set (k := findSplitIndex (currentChunk st)) in *.
    assert (Hlen : length (currentChunk st) = length pre - s)
      by (rewrite Hcur; apply length_skipn).
    exists (rs ++ [(s, k)]). cbn [chunks currentChunk chunkStartLine].
    rewrite nextStart_snoc.
    replace (Z.to_nat (Z.max (Z.of_nat k - Z.of_nat overlapLines) 0))
      with (k - overlapLines) by lia.
    repeat split.
    + apply Forall2_app.
      * eapply Forall2_impl; [|exact Hcs]. intros; now apply chunkIsRange_app.
      * constructor; [|constructor]. apply chunkIsRange_app. repeat split.
        -- unfold linesOf, sliceTo. cbn [content fst snd]. now rewrite Hcur.
        -- unfold rangeEnd. cbn [fst snd]. lia.
        -- cbn [startLine isFirst fst]. exact Hstart.
    + apply overlapChain_snoc; [assumption|lia].
    + unfold sliceFrom. rewrite Hcur, skipn_skipn.
      rewrite skipn_snoc by lia. f_equal. f_equal. lia.
    + rewrite length_app. simpl. lia.
    + intros _. rewrite length_app. simpl. lia.
    + unfold sliceFrom. rewrite length_skipn, Hlen, length_app.
      replace (length (chunks st) + length [_] =? 0) with false
        by (symmetry; apply Nat.eqb_neq; simpl; lia).
      unfold recordedOffset. lia.
    + apply firstFlags_snoc; [assumption|reflexivity].
  - exists rs. cbn [chunks currentChunk chunkStartLine]. fold s. repeat split.
    + eapply Forall2_impl; [|exact Hcs]. intros; now apply chunkIsRange_app.
    + assumption.
    + rewrite Hcur. now rewrite skipn_snoc.
    + rewrite length_app. simpl. lia.
    + intros _. rewrite length_app. simpl. lia.
    + exact Hstart.
    + exact Hflags.
Qed.

Lemma chunkLoop_inv ls : forall pre st,
  chunkInv pre st -> chunkInv (pre ++ ls) (chunkLoop ls (length pre) st).
Proof.
  induction ls as [|l ls IH]; simpl; intros pre st H.
  - now rewrite app_nil_r.
  - replace (pre ++ l :: ls) with ((pre ++ [l]) ++ ls) by (now rewrite <- app_assoc).
    replace (S (length pre)) with (length (pre ++ [l]))
      by (rewrite length_app; simpl; lia).
    apply IH. now apply chunkStep_inv.
Qed.

Lemma initState_inv : chunkInv [] initState.
Proof.
  exists []. simpl. repeat split; auto. congruence.
Qed.

Definition setLast (c : ContentChunk) : ContentChunk :=
  mkChunk (index c) (content c) (startLine c) (endLine c) (isFirst c) true.

Lemma Forall2_markLast (P : ContentChunk -> nat * nat -> Prop) cs : forall rs,
  (forall c r, P c r -> P (setLast c) r) ->
  Forall2 P cs rs -> Forall2 P (markLast cs) rs.
Proof.
  intros rs HP H. induction H as [|c r cs rs Hc Hcs IH]; simpl.
  - constructor.
  - destruct cs as [|c' cs].
    + inversion Hcs; subst. constructor; [|constructor]. now apply HP.
    + constructor; auto.
Qed.

Lemma firstFlags_markLast cs : firstFlags cs -> firstFlags (markLast cs).
Proof.
  destruct cs as [|c cs]; [auto|]. intros [H0 H].
  assert (Hall : forall l, Forall (fun c' => isFirst c' = false) l ->
                   Forall (fun c' => isFirst c' = false) (markLast l)).
  { induction l as [|x l IHl]; intros Hl; [constructor|].
    apply Forall_cons_iff in Hl as [Hx Hl]. simpl.
    destruct l as [|y l]; [constructor; [exact Hx|constructor]|].
    constructor; auto. }
  simpl. destruct cs as [|c' cs].
  - split; [exact H0|constructor].
  - split; [exact H0|]. now apply (Hall (c' :: cs)).
Qed.

Lemma last_snoc {A} (l : list A) x d : last (l ++ [x]) d = x.
Proof.
  induction l as [|y l IH]; simpl; auto.
  destruct (l ++ [x]) eqn:E; [destruct l; discriminate|]. exact IH.
Qed.

Lemma linesOf_length ls r :
  rangeEnd r <= length ls -> length (linesOf ls r) = snd r.
Proof.
  destruct r as [a len]. unfold linesOf, rangeEnd. cbn [fst snd]. intros H.
  rewrite length_firstn, length_skipn. lia.
Qed.

Lemma overlapChain_lengths k rs : forall a0,
  overlapChain k a0 rs -> Forall (fun r => 1 <= snd r) rs.
Proof.
  induction rs as [|[a len] rs IH]; simpl; intros a0 H; constructor.
  - simpl. tauto.
  - destruct H as (_ & _ & H). eauto.
Qed.

(** The ranges of the chunks of a document. *)
Lemma splitIntoChunks_ranges (D : jsstring) :
  exists rs : list (nat * nat),
    Forall2 (chunkIsRange (split LF D)) (splitIntoChunks D) rs
    /\ overlapChain overlapLines 0 rs
    /\ rs <> []
    /\ last (map rangeEnd rs) 0 = length (split LF D)
    /\ firstFlags (splitIntoChunks D).
Proof.
  set (lines := split LF D).
  pose proof (chunkLoop_inv lines [] initState initState_inv) as Hinv.
  cbn [app length] in Hinv. fold lines in Hinv.
  destruct Hinv as (rs & Hcs & Hch & Hcur & Hle & Hlt & Hstart & Hflags).
  assert (Hne : lines <> []) by apply split_not_nil.
  specialize (Hlt Hne).
  set (s := nextStart overlapLines 0 rs) in *.
  set (st := chunkLoop lines 0 initState) in *.
  set (final := (s, length lines - s)).
  exists (rs ++ [final]).
  assert (Hpos : (0 <? length (currentChunk st)) = true).
  { apply Nat.ltb_lt. rewrite Hcur, length_skipn. lia. }
  repeat split.
  - unfold splitIntoChunks. fold lines. fold st. rewrite Hpos.
    apply Forall2_markLast.
    { intros c r (H1 & H2 & H3). repeat split; assumption. }
    apply Forall2_app; [exact Hcs|].
    constructor; [|constructor]. repeat split.
    + cbn [content]. unfold linesOf, final. cbn [fst snd]. rewrite Hcur.
      rewrite firstn_all2; [reflexivity|]. rewrite length_skipn. lia.
    + unfold rangeEnd, final. cbn [fst snd]. lia.
    + cbn [startLine isFirst]. unfold final. cbn [fst]. exact Hstart.
  - apply overlapChain_snoc; [assumption|lia].
  - destruct rs; discriminate.
  - rewrite map_app. cbn [map]. rewrite last_snoc.
    unfold rangeEnd, final. cbn [fst snd]. lia.
  - unfold splitIntoChunks. fold lines. fold st. rewrite Hpos.
    apply firstFlags_markLast. apply firstFlags_snoc; [assumption|reflexivity].
Qed.

(** For every document, the first chunk records the line at which its
    content begins and every later chunk records one line more: the
    off-by-one of [chunkStartLine] that [twoLongLines] shows. *)
Lemma splitIntoChunks_recorded_startLine (D : jsstring) :
  exists rs : list (nat * nat),
    Forall2 (fun c r =>
               content c = join [LF] (linesOf (split LF D) r)
               /\ startLine c = (Z.of_nat (fst r) + (if isFirst c then 0 else 1))%Z)
            (splitIntoChunks D) rs
    /\ match splitIntoChunks D with
       | [] => True
       | c :: cs => isFirst c = true /\ Forall (fun c' => isFirst c' = false) cs
       end.
Proof.
  destruct (splitIntoChunks_ranges D) as (rs & Hcs & _ & _ & _ & Hflags).
  exists rs. split; [|exact Hflags].
  eapply Forall2_impl; [|exact Hcs]. intros c r (H1 & _ & H3). now split.
Qed.

(** The document [\n] followed by 8000 [a]: not empty, two lines. *)
Definition blankThenLongLine : jsstring := LF :: repeat 97%N 8000.

(** C3, as stated, fails: the first chunk of [blankThenLongLine] is the
    single blank line, whose content is the empty string. *)
Lemma splitIntoChunks_emits_empty_content :
  map content (splitIntoChunks blankThenLongLine) = [[]; blankThenLongLine]
  /\ ~ Forall (fun c => content c <> []) (splitIntoChunks blankThenLongLine).
Proof.
  assert (H : map content (splitIntoChunks blankThenLongLine)
              = [[]; blankThenLongLine]) by (vm_compute; reflexivity).
  split; [exact H|].
  intros HF. destruct (splitIntoChunks blankThenLongLine) as [|c cs]; [discriminate|].
  inversion HF; subst. simpl in H. congruence.
Qed.

(** C3 (amended). Every chunk of [splitIntoChunks] is a range of at least
    one line of the document, joined with newlines (its content is the
    empty string only when it is one empty line); the ranges form a chain:
    the first starts at line 0 and each next one starts [overlapLines]
    lines before the end of its predecessor, or at its start when the
    predecessor is shorter; no range leaves the document, and every line
    of the document lies in one of them. *)
Theorem splitIntoChunks_covers_document (D : jsstring) :
  exists rs : list (nat * nat),
    Forall2 (fun c r => content c = join [LF] (linesOf (split LF D) r)
                        /\ (content c = [] -> linesOf (split LF D) r = [[]]))
            (splitIntoChunks D) rs
    /\ overlapChain overlapLines 0 rs
    /\ Forall (fun r => rangeEnd r <= length (split LF D)) rs
    /\ (forall i, i < length (split LF D) -> Exists (inRange i) rs).
Proof.
  destruct (splitIntoChunks_ranges D) as (rs & Hcs & Hch & Hne & Hlast & _).
  set (lines := split LF D) in *.
  assert (Hends : Forall (fun r => rangeEnd r <= length lines) rs).
  { clear -Hcs. induction Hcs as [|c r cs rs' (_ & H & _) _ IH]; constructor; auto. }
  exists rs. repeat split; auto.
  - pose proof (overlapChain_lengths _ _ _ Hch) as Hl.
    clear -Hcs Hl. induction Hcs as [|c r cs rs' (H1 & H2 & _) _ IH]; constructor.
    + inversion Hl; subst. split; [exact H1|].
      intros E. rewrite H1 in E. apply (join_nil_inv [LF]); auto; [discriminate|].
      intros E'. apply (f_equal (@length _)) in E'.
      rewrite linesOf_length in E' by assumption. simpl in E'. lia.
    + inversion Hl; subst. auto.
  - intros i Hi.
    destruct (overlapChain_covers overlapLines rs 0 0 i Hch) as [H|H];
      try lia; auto.
    eapply Nat.lt_le_trans; [exact Hi|]. rewrite <- Hlast.
    apply fold_max_last. now destruct rs.
Qed.
(* ================================================================== *)
(** * Properties of the table of contents *)

Example extractTableOfContents_twoChapters :
  extractTableOfContents twoChapters
  = [TOCEntry.mk (lit "heading-chapter-1") (lit "Chapter 1") 1 1%Z;
     TOCEntry.mk (lit "heading-chapter-2") (lit "Chapter 2") 1 5%Z].
Proof. vm_compute. reflexivity. Qed.

(** C2, as stated, fails: the two headings of [twoIntros] have the same
    title and receive the same id; the occurrence counter is not part of
    an id whose slug is not empty. *)
Lemma extractTableOfContents_repeats_id :
  map TOCEntry.id (extractTableOfContents twoIntros)
  = [lit "heading-intro"; lit "heading-intro"]
  /\ ~ NoDup (map TOCEntry.id (extractTableOfContents twoIntros)).
Proof.
  assert (H : map TOCEntry.id (extractTableOfContents twoIntros)
              = [lit "heading-intro"; lit "heading-intro"])
    by (vm_compute; reflexivity).
  split; [exact H|].
  rewrite H. intros HN. inversion HN as [|x l Hin _]; subst.
  apply Hin. now left.
Qed.

Lemma digits_of_uint_inj d : forall d',
  digits_of_uint d = digits_of_uint d' -> d = d'.
Proof.
  induction d; destruct d'; simpl; intros H; try discriminate;
    try reflexivity; injection H as H; f_equal; auto.
Qed.

Lemma ofNat_inj j k : JsString.ofNat j = JsString.ofNat k -> j = k.
Proof.
  unfold JsString.ofNat. intros H. apply digits_of_uint_inj in H.
  rewrite <- (DecimalNat.Unsigned.of_to j), <- (DecimalNat.Unsigned.of_to k).
  now rewrite H.
Qed.

Section TableOfContentsProofs.
Context {host : Host}.

Lemma tocLoop_id lines : forall index h k e,
  nth_error (tocLoop lines index h) k = Some e ->
  TOCEntry.id e = generateHeadingId (TOCEntry.title e) (h + k).
Proof.
  induction lines as [|line rest IH]; simpl; intros index h k e H.
  - destruct k; discriminate.
  - destruct (exec re_mdHeading line) as [c|].
    + destruct k as [|k]; simpl in H.
      * injection H as <-. simpl. now rewrite Nat.add_0_r.
      * apply IH in H. rewrite H. f_equal. lia.
    + eauto.
Qed.

Lemma generateHeadingId_slug text k :
  slugOf text <> [] -> generateHeadingId text k = lit "heading-" ++ slugOf text.
Proof.
  unfold generateHeadingId. destruct (slugOf text); [congruence|reflexivity].
Qed.

Lemma generateHeadingId_counter text k :
  slugOf text = [] -> generateHeadingId text k = lit "heading-" ++ JsString.ofNat k.
Proof.
  unfold generateHeadingId. now intros ->.
Qed.

(** C2 (amended). The id of the entry of index [k] of the table (from
    0) is [generateHeadingId] of its title and [k]: [heading-] followed
    by the slug of the title when the slug is not empty, and by [k]
    otherwise.  So two entries whose slugs are not empty have the same
    id exactly when their slugs are equal (the same title gives the same
    id), and two entries whose slugs are both empty have the same id
    only when they are the same entry. *)
Theorem extractTableOfContents_ids (markdown : jsstring) :
  let toc := extractTableOfContents markdown in
  (forall k e, nth_error toc k = Some e ->
     TOCEntry.id e = generateHeadingId (TOCEntry.title e) k)
  /\ (forall j k e1 e2,
        nth_error toc j = Some e1 -> nth_error toc k = Some e2 ->
        slugOf (TOCEntry.title e1) <> [] -> slugOf (TOCEntry.title e2) <> [] ->
        (TOCEntry.id e1 = TOCEntry.id e2
         <-> slugOf (TOCEntry.title e1) = slugOf (TOCEntry.title e2)))
  /\ (forall j k e1 e2,
        nth_error toc j = Some e1 -> nth_error toc k = Some e2 ->
        slugOf (TOCEntry.title e1) = [] -> slugOf (TOCEntry.title e2) = [] ->
        TOCEntry.id e1 = TOCEntry.id e2 -> j = k).
Proof.
  intros toc.
  assert (Hid : forall k e, nth_error toc k = Some e ->
            TOCEntry.id e = generateHeadingId (TOCEntry.title e) k)
    by (intros k e H; apply (tocLoop_id _ 0 0 k e H)).
  split; [exact Hid|]. split.
  - intros j k e1 e2 H1 H2 N1 N2.
    rewrite (Hid _ _ H1), (Hid _ _ H2).
    rewrite !generateHeadingId_slug by assumption.
    split; [apply app_inv_head|congruence].
  - intros j k e1 e2 H1 H2 N1 N2.
    rewrite (Hid _ _ H1), (Hid _ _ H2).
    rewrite !generateHeadingId_counter by assumption.
    intros H. apply app_inv_head in H. now apply ofNat_inj.
Qed.

End TableOfContentsProofs.

(** C2 (amended) at [twoIntros]: the second entry, of index 1, has the id
    that its title alone gives. *)
Lemma extractTableOfContents_ids_witness :
  let e := TOCEntry.mk (lit "heading-intro") (lit "Intro") 1 2 in
  nth_error (extractTableOfContents (host := latinHost) twoIntros) 1 = Some e
  /\ TOCEntry.id e = generateHeadingId (host := latinHost) (TOCEntry.title e) 1
  /\ slugOf (host := latinHost) (TOCEntry.title e) = lit "intro".
Proof.
  intros e.
  assert (H : nth_error (extractTableOfContents (host := latinHost) twoIntros) 1 = Some e)
    by (vm_compute; reflexivity).
  split; [exact H|]. split; [|vm_compute; reflexivity].
  exact (proj1 (extractTableOfContents_ids (host := latinHost) twoIntros) 1 e H).
Defined.
(* ================================================================== *)
(** * Properties of the merge *)

Section SortProofs.
Context {A : Type} (key : A -> Z).

Lemma insertByKey_perm x l : Permutation (insertByKey key x l) (x :: l).
Proof.
  induction l as [|y l IH]; simpl; [reflexivity|].
  destruct (key x <=? key y)%Z; [reflexivity|].
  rewrite IH. apply perm_swap.
Qed.

Lemma sortByKey_perm l : Permutation (sortByKey key l) l.
Proof.
  induction l as [|x l IH]; simpl; [reflexivity|].
  rewrite insertByKey_perm. now constructor.
Qed.

Definition keyLe (a b : A) : Prop := (key a <= key b)%Z.

Lemma insertByKey_sorted x l :
  StronglySorted keyLe l -> StronglySorted keyLe (insertByKey key x l).
Proof.
  induction 1 as [|y l Hs IH Hall]; simpl.
  - constructor; constructor.
  - destruct (key x <=? key y)%Z eqn:E.
    + apply Z.leb_le in E. constructor; [constructor; assumption|].
      constructor; [exact E|].
      eapply Forall_impl; [|exact Hall]. unfold keyLe. intros; lia.
    + apply Z.leb_gt in E. constructor; [assumption|].
      eapply Permutation_Forall; [symmetry; apply insertByKey_perm|].
      constructor; [unfold keyLe; lia|assumption].
Qed.

Lemma sortByKey_sorted l : StronglySorted keyLe (sortByKey key l).
Proof.
  induction l as [|x l IH]; simpl; [constructor|].
  now apply insertByKey_sorted.
Qed.

(** The head of the stable sort is the first element of least key. *)
Lemma sortByKey_head l : forall x s,
  sortByKey key l = x :: s ->
  exists l1 l2, l = l1 ++ x :: l2
    /\ (forall y, In y l1 -> (key x < key y)%Z)
    /\ (forall y, In y l2 -> (key x <= key y)%Z).
Proof.
  induction l as [|a l IH]; simpl; intros x s H; [discriminate|].
  destruct (sortByKey key l) as [|y t] eqn:E.
  - assert (l = []) as ->.
    { apply Permutation_nil. rewrite <- E. apply sortByKey_perm. }
    simpl in H. injection H as <- <-. exists [], []. simpl. intuition.
  - destruct (IH y t eq_refl) as (l1 & l2 & -> & H1 & H2).
    simpl in H. destruct (key a <=? key y)%Z eqn:Le.
    + apply Z.leb_le in Le. injection H as <- <-.
      exists [], (l1 ++ y :: l2). simpl. repeat split; [tauto|].
      intros z Hz. apply in_app_or in Hz as [Hz|[<-|Hz]].
      * specialize (H1 z Hz). lia.
      * exact Le.
      * specialize (H2 z Hz). lia.
    + apply Z.leb_gt in Le. injection H as <- <-.
      exists (a :: l1), l2. simpl. repeat split; auto.
      intros z [<-|Hz]; auto.
Qed.
End SortProofs.

(** ** The vote *)

Lemma ContentType_eqb_eq a b : ContentType_eqb a b = true <-> a = b.
Proof. destruct a, b; simpl; split; congruence. Qed.

Lemma ContentType_eqb_refl a : ContentType_eqb a a = true.
Proof. now apply ContentType_eqb_eq. Qed.

Lemma ContentType_eqb_neq a b : ContentType_eqb a b = false <-> a <> b.
Proof. destruct a, b; simpl; split; congruence. Qed.

(** Occurrences of [c] in a list of classifications. *)
Definition tally (c : ContentType) (ts : list ContentType) : nat :=
  length (filter (fun t => ContentType_eqb t c) ts).

(** The distinct classifications, in the order of their first occurrence. *)
Fixpoint distinct (ts : list ContentType) : list ContentType :=
  match ts with
  | [] => []
  | t :: ts' => t :: filter (fun k => negb (ContentType_eqb k t)) (distinct ts')
  end.

Lemma tally_snoc c ts t :
  tally c (ts ++ [t]) = tally c ts + (if ContentType_eqb t c then 1 else 0).
Proof.
  unfold tally. rewrite filter_app, length_app. simpl.
  destruct (ContentType_eqb t c); reflexivity.
Qed.

Lemma tally_zero c ts : ~ In c ts -> tally c ts = 0.
Proof.
  unfold tally. induction ts as [|t ts IH]; simpl; intros H; [reflexivity|].
  destruct (ContentType_eqb t c) eqn:E.
  - apply ContentType_eqb_eq in E. tauto.
  - apply IH. tauto.
Qed.

Lemma in_distinct c ts : In c (distinct ts) <-> In c ts.
Proof.
  induction ts as [|t ts IH]; simpl; [tauto|].
  rewrite filter_In, IH. split.
  - intros [H|[H _]]; auto.
  - intros [H|H]; auto.
    destruct (ContentType_eqb c t) eqn:E.
    + apply ContentType_eqb_eq in E. auto.
    + right. auto.
Qed.

Lemma distinct_NoDup ts : NoDup (distinct ts).
Proof.
  induction ts as [|t ts IH]; simpl; constructor.
  - rewrite filter_In. intros [_ H]. now rewrite ContentType_eqb_refl in H.
  - now apply NoDup_filter.
Qed.

Lemma distinct_snoc_new ts t :
  ~ In t ts -> distinct (ts ++ [t]) = distinct ts ++ [t].
Proof.
  induction ts as [|a ts IH]; simpl; intros H; [reflexivity|].
  rewrite IH by tauto. rewrite filter_app. simpl.
  assert (ContentType_eqb t a = false) as ->
    by (apply ContentType_eqb_neq; intros ->; tauto).
  reflexivity.
Qed.

Lemma distinct_snoc_old ts t :
  In t ts -> distinct (ts ++ [t]) = distinct ts.
Proof.
  induction ts as [|a ts IH]; simpl; intros H; [tauto|].
  destruct (in_dec ContentType_eq_dec t ts) as [Hin|Hnin].
  - now rewrite IH.
  - destruct H as [->|H]; [|tauto].
    rewrite distinct_snoc_new by assumption.
    rewrite filter_app. simpl. rewrite ContentType_eqb_refl. simpl.
    now rewrite app_nil_r.
Qed.

(** [bump] on the table of the distinct keys of [ts] with their counts. *)
Definition table (g : ContentType -> nat) (ks : list ContentType)
    : list (ContentType * nat) :=
  map (fun k => (k, g k)) ks.

Lemma bump_table_new g t ks :
  ~ In t ks -> bump t (table g ks) = table g ks ++ [(t, 1)].
Proof.
  induction ks as [|k ks IH]; simpl; intros H; [reflexivity|].
  assert (ContentType_eqb k t = false) as ->
    by (apply ContentType_eqb_neq; intros ->; tauto).
  rewrite IH by tauto. reflexivity.
Qed.

Lemma bump_table_old g g' t ks :
  NoDup ks -> In t ks ->
  g' t = g t + 1 -> (forall k, k <> t -> g' k = g k) ->
  bump t (table g ks) = table g' ks.
Proof.
  intros Hnd Hin Ht Hk. induction Hnd as [|k ks Hnin Hnd IH]; simpl; [destruct Hin|].
  destruct (ContentType_eqb k t) eqn:E.
  - apply ContentType_eqb_eq in E as ->. rewrite Ht. f_equal.
    unfold table. apply map_ext_in. intros k Hk'. f_equal. symmetry. apply Hk.
    intros ->. tauto.
  - apply ContentType_eqb_neq in E. rewrite Hk by assumption. f_equal.
    apply IH. destruct Hin; [congruence|assumption].
Qed.

Lemma countContentTypes_table results :
  countContentTypes results
  = table (fun k => tally k (map ChunkResult.contentType results))
          (distinct (map ChunkResult.contentType results)).
Proof.
  unfold countContentTypes.
  rewrite <- (rev_involutive results).
  induction (rev results) as [|r rs IH]; simpl; [reflexivity|].
  rewrite fold_left_app. simpl. rewrite IH. clear IH.
  rewrite map_app. simpl.
  set (ts := map ChunkResult.contentType (rev rs)).
  set (t := ChunkResult.contentType r).
  destruct (in_dec ContentType_eq_dec t ts) as [Hin|Hnin].
  - rewrite distinct_snoc_old by assumption.
    apply bump_table_old.
    + apply distinct_NoDup.
    + now apply in_distinct.
    + rewrite tally_snoc, ContentType_eqb_refl. reflexivity.
    + intros k Hk. rewrite tally_snoc.
      assert (ContentType_eqb t k = false) as -> by (apply ContentType_eqb_neq; congruence).
      lia.
  - rewrite distinct_snoc_new by assumption.
    rewrite bump_table_new by (now rewrite in_distinct).
    unfold table. rewrite map_app. simpl. f_equal.
    + apply map_ext_in. intros k Hk. f_equal. rewrite tally_snoc.
      assert (ContentType_eqb t k = false) as ->.
      { apply ContentType_eqb_neq. intros E. rewrite <- E in Hk.
        apply (proj1 (in_distinct _ _)) in Hk. exact (Hnin Hk). }
      lia.
    + rewrite tally_snoc, ContentType_eqb_refl, (tally_zero t ts Hnin). reflexivity.
Qed.

Lemma filter_eq_app_cons {A} (p : A -> bool) l : forall l1 x l2,
  filter p l = l1 ++ x :: l2 ->
  exists m1 m2, l = m1 ++ x :: m2 /\ filter p m1 = l1.
Proof.
  induction l as [|a l IH]; simpl; intros l1 x l2 H.
  - destruct l1; discriminate.
  - destruct (p a) eqn:E.
    + destruct l1 as [|b l1]; simpl in H; injection H as <- H.
      * exists [], l. split; reflexivity.
      * destruct (IH _ _ _ H) as (m1 & m2 & -> & <-).
        exists (a :: m1), m2. simpl. now rewrite E.
    + destruct (IH _ _ _ H) as (m1 & m2 & -> & <-).
      exists (a :: m1), m2. simpl. now rewrite E.
Qed.

(** A key of [distinct ts] is first met in [ts] after keys that stand
    before it in [distinct ts] only. *)
Lemma distinct_first ts : forall n1 k n2,
  distinct ts = n1 ++ k :: n2 ->
  exists pre post, ts = pre ++ k :: post /\ forall c, In c pre -> In c n1.
Proof.
  induction ts as [|a ts IH]; simpl; intros n1 k n2 H.
  - destruct n1; discriminate.
  - destruct n1 as [|b n1]; simpl in H; injection H as <- H.
    + exists [], ts. split; [reflexivity|]. intros c [].
    + apply filter_eq_app_cons in H as (m1 & m2 & Hd & Hf).
      destruct (IH _ _ _ Hd) as (pre & post & -> & Hpre).
      exists (a :: pre), post. split; [reflexivity|].
      intros c [<-|Hc]; [now left|].
      destruct (ContentType_eq_dec c a) as [->|Hne]; [now left|].
      right. rewrite <- Hf. apply filter_In. split; [auto|].
      apply negb_true_iff. now apply ContentType_eqb_neq.
Qed.

Lemma votes_tally c results :
  votes c results = tally c (map ChunkResult.contentType results).
Proof.
  unfold votes, tally. induction results as [|r rs IH]; simpl; [reflexivity|].
  destruct (ContentType_eqb (ChunkResult.contentType r) c); simpl; congruence.
Qed.

Lemma map_eq_app_cons {A B} (f : A -> B) l : forall l1 y l2,
  map f l = l1 ++ y :: l2 ->
  exists m1 x m2, l = m1 ++ x :: m2 /\ map f m1 = l1 /\ f x = y /\ map f m2 = l2.
Proof.
  induction l as [|a l IH]; simpl; intros l1 y l2 H.
  - destruct l1; discriminate.
  - destruct l1 as [|b l1]; simpl in H; injection H as <- H.
    + exists [], a, l. auto.
    + destruct (IH _ _ _ H) as (m1 & x & m2 & -> & <- & <- & <-).
      exists (a :: m1), x, m2. auto.
Qed.

Lemma majorityContentType_first results :
  results <> [] ->
  let ts := map ChunkResult.contentType results in
  let k := majorityContentType (countContentTypes results) in
  exists n1 n2, distinct ts = n1 ++ k :: n2
    /\ (forall c, In c n1 -> tally c ts < tally k ts)
    /\ (forall c, In c n2 -> tally c ts <= tally k ts).
Proof.
  intros Hne ts k. subst k. unfold majorityContentType.
  rewrite countContentTypes_table. fold ts.
  set (g := fun k => tally k ts).
  set (key := fun e : ContentType * nat => (- Z.of_nat (snd e))%Z).
  destruct (sortByKey key (table g (distinct ts))) as [|[k n] s] eqn:E.
  - exfalso.
    assert (Hp := sortByKey_perm key (table g (distinct ts))).
    rewrite E in Hp. apply Permutation_nil in Hp.
    apply map_eq_nil in Hp.
    destruct results as [|r rs]; [congruence|]. discriminate.
  - apply sortByKey_head in E as (l1 & l2 & Ht & H1 & H2).
    apply map_eq_app_cons in Ht as (n1 & k' & n2 & Hd & <- & Hk & <-).
    injection Hk as -> <-.
    exists n1, n2. split; [exact Hd|]. split.
    + intros c Hc. specialize (H1 (c, g c)). unfold key in H1. simpl in H1.
      assert (In (c, g c) (table g n1)) as Hin
        by (unfold table; apply (in_map (fun k => (k, g k))); exact Hc).
      specialize (H1 Hin). unfold g in H1. lia.
    + intros c Hc. specialize (H2 (c, g c)). unfold key in H2. simpl in H2.
      assert (In (c, g c) (table g n2)) as Hin
        by (unfold table; apply (in_map (fun k => (k, g k))); exact Hc).
      specialize (H2 Hin). unfold g in H2. lia.
Qed.

(** C4. [mergeChunkResults] returns the TOC entries of all chunks sorted
    ascending by [position] and the image points of all chunks sorted
    ascending by [position.lineNumber]; the content type it returns has
    the most votes among the chunk classifications, and the classifications
    met before its first occurrence, in chunk order, all have strictly
    fewer votes: a tie goes to the value met first.  Without any chunk the
    content type is ['non-fiction']. *)
Theorem mergeChunkResults_sorted_and_plurality
    (results : list ChunkResult.t) (totalWordCount : nat) :
  let merged := mergeChunkResults results totalWordCount in
  let ct := ContentAnalysis.contentType merged in
  Permutation (ContentAnalysis.tableOfContents merged)
              (flat_map ChunkResult.tableOfContents results)
  /\ StronglySorted (fun a b => (TOCEntry.position a <= TOCEntry.position b)%Z)
                    (ContentAnalysis.tableOfContents merged)
  /\ Permutation (ContentAnalysis.imagePoints merged)
                 (flat_map ChunkResult.imagePoints results)
  /\ StronglySorted
       (fun a b =>
          (ImageInsertionPoint.lineNumber (ImageInsertionPoint.position a)
           <= ImageInsertionPoint.lineNumber (ImageInsertionPoint.position b))%Z)
       (ContentAnalysis.imagePoints merged)
  /\ (forall c, votes c results <= votes ct results)
  /\ match results with
     | [] => ct = nonFiction
     | _ :: _ =>
         exists pre r post,
           results = pre ++ r :: post
           /\ ChunkResult.contentType r = ct
           /\ forall r', In r' pre ->
                votes (ChunkResult.contentType r') results < votes ct results
     end.
Proof.
  intros merged ct. subst merged ct. cbn [mergeChunkResults
    ContentAnalysis.tableOfContents ContentAnalysis.imagePoints
    ContentAnalysis.contentType].
  split; [apply sortByKey_perm|].
  split; [apply (sortByKey_sorted TOCEntry.position)|].
  split; [apply sortByKey_perm|].
  split; [apply (sortByKey_sorted
                   (fun p => ImageInsertionPoint.lineNumber (ImageInsertionPoint.position p)))|].
  destruct results as [|r0 rs] eqn:Eres.
  - split; [intros c; reflexivity|reflexivity].
  - rewrite <- Eres.
    assert (Hne : results <> []) by (rewrite Eres; discriminate).
    destruct (majorityContentType_first results Hne) as (n1 & n2 & Hd & H1 & H2).
    set (k := majorityContentType (countContentTypes results)) in *.
    set (ts := map ChunkResult.contentType results) in *.
    split.
    + intros c. rewrite !votes_tally. fold ts.
      destruct (in_dec ContentType_eq_dec c ts) as [Hin|Hnin].
      * apply in_distinct in Hin. rewrite Hd in Hin.
        apply in_app_or in Hin as [Hin|[<-|Hin]]; auto.
        specialize (H1 c Hin). lia.
      * rewrite (tally_zero c ts Hnin). lia.
    + apply distinct_first in Hd as (pre & post & Hts & Hpre).
      apply map_eq_app_cons in Hts as (m1 & r & m2 & -> & <- & Hr & _).
      exists m1, r, m2. split; [reflexivity|]. split; [exact Hr|].
      intros r' Hr'. rewrite !votes_tally. fold ts. apply H1, Hpre.
      now apply in_map.
Qed.
(* ================================================================== *)
(** * Properties of the export chapters *)

Lemma join_split sep s : join [sep] (split sep s) = s.
Proof.
  induction s as [|c s IH]; simpl; [reflexivity|].
  destruct (c =? sep)%N eqn:E.
  - apply N.eqb_eq in E as ->.
    destruct (split sep s) as [|l ls] eqn:Es; [now apply split_not_nil in Es|].
    simpl. f_equal. exact IH.
  - destruct (split sep s) as [|l ls] eqn:Es; [now apply split_not_nil in Es|].
    destruct ls; simpl in *; now rewrite IH.
Qed.

(** C6, as stated, fails: a document that is one heading has one chapter
    with empty content, which the final filter drops. *)
Lemma splitIntoChapters_can_be_empty :
  splitIntoChapters (lit "# Title") = []
  /\ splitIntoChapters [] = []
  /\ splitIntoChapters (lit "   ") = [].
Proof. vm_compute. repeat split. Qed.

Lemma chapterLoop_no_heading ls : forall chapters c,
  Forall (fun l => chapterHeadingMatch l = None) ls ->
  fold_left chapterStep ls (chapters, Some c)
  = (chapters, Some (mkOpen (openTitle c) (openLines c ++ ls) (openLevel c))).
Proof.
  induction ls as [|l ls IH]; intros chapters c H; simpl.
  - rewrite app_nil_r. now destruct c.
  - inversion H as [|? ? Hl Hls]; subst. rewrite Hl.
    rewrite IH by assumption. simpl. now rewrite <- app_assoc.
Qed.

Lemma splitIntoChapters_no_heading markdown :
  Forall (fun l => chapterHeadingMatch l = None) (split LF markdown) ->
  splitIntoChapters markdown
  = if isEmpty (trim markdown) then []
    else [Chapter.mk (lit "Introduction") (trim markdown) 1].
Proof.
  intros H. unfold splitIntoChapters.
  pose proof (join_split LF markdown) as Hj.
  destruct (split LF markdown) as [|l ls] eqn:Es; [now apply split_not_nil in Es|].
  apply Forall_cons_iff in H as [Hl Hls].
  cbn [fold_left]. unfold chapterStep at 2. rewrite Hl.
  rewrite chapterLoop_no_heading by assumption.
  cbn [openTitle openLines openLevel app]. unfold closeChapter.
  cbn [openTitle openLines openLevel app filter Chapter.content].
  rewrite Hj. destruct (trim markdown); reflexivity.
Qed.

(** C6 (amended). [splitIntoChapters] keeps only chapters whose content is
    not empty, so it can return the empty list; it is [generateEPUB] that
    never works on zero chapters: it replaces an empty list by exactly one
    chapter that spans the entire document.  When no line is a markdown
    heading of level at most 2, [splitIntoChapters] returns exactly one
    chapter, [Introduction], holding the trimmed document, or nothing when
    the document is blank. *)
Theorem generateEPUB_chapters_never_empty (markdown metadataTitle : jsstring) :
  1 <= length (generateEPUB_chapters markdown metadataTitle)
  /\ Forall (fun ch => Chapter.content ch <> []) (splitIntoChapters markdown)
  /\ (splitIntoChapters markdown = [] ->
      generateEPUB_chapters markdown metadataTitle
      = [Chapter.mk (if isEmpty metadataTitle then lit "Content" else metadataTitle)
           markdown 1])
  /\ (Forall (fun l => chapterHeadingMatch l = None) (split LF markdown) ->
      splitIntoChapters markdown
      = if isEmpty (trim markdown) then []
        else [Chapter.mk (lit "Introduction") (trim markdown) 1]).
Proof.
  repeat split.
  - unfold generateEPUB_chapters.
    destruct (splitIntoChapters markdown); simpl; lia.
  - unfold splitIntoChapters.
    destruct (fold_left chapterStep (split LF markdown) ([], None)) as [chs cur].
    apply Forall_forall. intros ch Hin. apply filter_In in Hin as [_ Hlen].
    apply Nat.ltb_lt in Hlen. intros E. rewrite E in Hlen. simpl in Hlen. lia.
  - unfold generateEPUB_chapters. now intros ->.
  - apply splitIntoChapters_no_heading.
Qed.

(** C6 (amended) at the document [Hello], which has no heading, with the
    metadata title [Book]. *)
Lemma generateEPUB_chapters_never_empty_witness :
  1 <= length (generateEPUB_chapters (lit "Hello") (lit "Book"))
  /\ splitIntoChapters (lit "Hello")
     = [Chapter.mk (lit "Introduction") (lit "Hello") 1].
Proof.
  destruct (generateEPUB_chapters_never_empty (lit "Hello") (lit "Book"))
    as (H1 & _ & _ & H4).
  split; [exact H1|].
  rewrite H4; [reflexivity|]. vm_compute. repeat constructor.
Defined.

Example chapterHeadingMatch_examples :
  map (fun l => match chapterHeadingMatch l with Some _ => true | None => false end)
      [lit "# One"; lit "## Two"; lit "### Three"; lit "CHAPTER ONE"; lit "Chapter 1"]
  = [true; true; false; false; false].
Proof. vm_compute. reflexivity. Qed.
(* ================================================================== *)
(** * Properties of the heading classifier *)

(** The classifier on lines of each rule (with the Basic Latin host). *)
Example isChapterHeading_examples :
  map (isChapterHeading (host := latinHost))
      [lit "## Two"; lit "Chapter 3: The Road"; lit "part 2"; lit "Section 4. Notes";
       lit "Prologue"; lit "12. Twelve"; lit "iv. Four"; lit "Hello world.";
       lit "x"; lit "   "]
  = [HeadingMatch.mk true (lit "Two") 2;
     HeadingMatch.mk true (lit "Chapter 3 The Road") 2;
     HeadingMatch.mk true (lit "part 2") 1;
     HeadingMatch.mk true (lit "Section 4 Notes") 3;
     HeadingMatch.mk true (lit "Prologue") 1;
     HeadingMatch.mk true (lit "12 Twelve") 1;
     HeadingMatch.mk true (lit "iv Four") 1;
     notHeading; notHeading; notHeading].
Proof. vm_compute. reflexivity. Qed.

(** ** Tests by a one-class regular expression *)






Section HeadingProofs.
Context {host : Host}.



End HeadingProofs.

(* ================================================================== *)
(** * Properties of the readability scorer *)

(** The exact tests agree with the binary64 ones on small counts. *)
Example exceedsThreeTenths_agrees :
  forallb (fun n =>
    forallb (fun count =>
      Bool.eqb (exceedsThreeTenths_binary64 count n) (exceedsThreeTenths count n))
      (seq 0 (S n)))
    (seq 0 101) = true.
Proof. vm_compute. reflexivity. Qed.

Example averageExceeds_agrees :
  forallb (fun n =>
    forallb (fun d =>
      Bool.eqb (averageExceeds_binary64 (150 * n + d - 3) n 150)
               (exceeds (divide (150 * n + d - 3) n) 150))
      (seq 0 7))
    (seq 0 101) = true.
Proof. vm_compute. reflexivity. Qed.

(** ** Lines of a document with lines appended *)

Lemma split_app_sep sep a b :
  split sep (a ++ sep :: b) = split sep a ++ split sep b.
Proof.
  induction a as [|c a IH]; simpl.
  - now rewrite N.eqb_refl.
  - destruct (c =? sep)%N; rewrite IH; [reflexivity|].
    destruct (split sep a) as [|l ls] eqn:E; [now apply split_not_nil in E|].
    reflexivity.
Qed.

Lemma split_no_sep sep l :
  existsb (N.eqb sep) l = false -> split sep l = [l].
Proof.
  induction l as [|c l IH]; simpl; intros H; [reflexivity|].
  apply orb_false_elim in H as [Hc Hl]. rewrite N.eqb_sym, Hc.
  now rewrite IH.
Qed.

Lemma split_join sep ls :
  ls <> [] -> Forall (fun l => existsb (N.eqb sep) l = false) ls ->
  split sep (join [sep] ls) = ls.
Proof.
  induction ls as [|l ls IH]; intros Hne H; [congruence|].
  apply Forall_cons_iff in H as [Hl Hls].
  destruct ls as [|l' ls].
  - simpl. now apply split_no_sep.
  - change (join [sep] (l :: l' :: ls)) with (l ++ sep :: join [sep] (l' :: ls)).
    rewrite split_app_sep, split_no_sep by assumption.
    rewrite IH by (auto; discriminate). reflexivity.
Qed.

(** ** The matches of [/  +/g] *)

Lemma rep_unbounded p lo s : forall taken pos c,
  rep p lo None taken s pos c (fun _ pos' c' => Some (pos', c'))
  = if lo <=? taken + runLength p s
    then Some (pos + runLength p s, c) else None.
Proof.
  induction s as [|x s IH]; intros taken pos c; simpl.
  - now rewrite !Nat.add_0_r.
  - destruct (p x); simpl.
    + rewrite IH.
      replace (S taken + runLength p s) with (taken + S (runLength p s)) by lia.
      replace (S pos + runLength p s) with (pos + S (runLength p s)) by lia.
      destruct (lo <=? taken + S (runLength p s)) eqn:E; [reflexivity|].
      apply Nat.leb_gt in E.
      destruct (lo <=? taken) eqn:E'; [apply Nat.leb_le in E'; lia|reflexivity].
    + now rewrite !Nat.add_0_r.
Qed.

Lemma matchAt_twoSpaces s pos :
  matchAt re_twoSpaces s pos
  = if 2 <=? runLength (N.eqb SP) s
    then Some (pos + runLength (N.eqb SP) s, []) else None.
Proof.
  unfold matchAt, re_twoSpaces, chr, plus. cbn [run].
  destruct s as [|x s]; [reflexivity|]. cbn [runLength].
  destruct (SP =? x)%N; [|reflexivity].
  rewrite rep_unbounded. cbn [Nat.add].
  destruct (runLength (N.eqb SP) s) as [|n]; [reflexivity|].
  cbn [Nat.leb]. do 2 f_equal. lia.
Qed.

Lemma runLength_le p s : runLength p s <= length s.
Proof.
  induction s as [|x s IH]; simpl; [lia|]. destruct (p x); simpl; lia.
Qed.

Lemma runLength_app_stop p a y b :
  p y = false -> runLength p (a ++ y :: b) = runLength p a.
Proof.
  intros Hy. induction a as [|x a IH]; simpl.
  - now rewrite Hy.
  - destruct (p x); congruence.
Qed.

(** The matched substrings, from a suffix at [pos] with [skip] units of
    the previous match left. *)
Definition spaceRuns (s : jsstring) (pos skip : nat) : list jsstring :=
  scan re_twoSpaces (fun m _ rest => m :: rest) (fun _ rest => rest) [] s pos skip.

Lemma spaceRuns_app a b : forall pos skip,
  skip <= length a ->
  spaceRuns (a ++ LF :: b) pos skip
  = spaceRuns a pos skip ++ spaceRuns (LF :: b) (pos + length a) 0.
Proof.
  induction a as [|x a IH]; intros pos skip Hs.
  - simpl in Hs. replace skip with 0 by lia. simpl app at 1.
    unfold spaceRuns at 2. cbn [scan]. rewrite matchAt_twoSpaces. simpl.
    now rewrite Nat.add_0_r.
  - unfold spaceRuns in *. cbn [app scan length].
    replace (pos + S (length a)) with (S pos + length a) by lia.
    destruct skip as [|skip]; [|apply IH; simpl in Hs; lia].
    rewrite !matchAt_twoSpaces.
    change (x :: a ++ LF :: b) with ((x :: a) ++ LF :: b).
    rewrite runLength_app_stop by reflexivity.
    pose proof (runLength_le (N.eqb SP) (x :: a)) as Hle.
    destruct (2 <=? runLength (N.eqb SP) (x :: a)) eqn:E.
    + apply Nat.leb_le in E.
      replace (pos + runLength (N.eqb SP) (x :: a) - pos)
        with (runLength (N.eqb SP) (x :: a)) by lia.
      destruct (runLength (N.eqb SP) (x :: a)) as [|n] eqn:En; [lia|].
      rewrite firstn_app.
      replace (S n - length (x :: a)) with 0 by lia.
      cbn [firstn]. rewrite app_nil_r. cbn [app]. f_equal.
      apply IH. simpl in Hle. lia.
    + apply IH. lia.
Qed.

Lemma manySpaces_eq s :
  match matchAll re_twoSpaces s with
  | Some ms => 20 <? length ms
  | None => false
  end = (20 <? length (spaceRuns s 0 0)).
Proof.
  unfold matchAll. fold (spaceRuns s 0 0). now destruct (spaceRuns s 0 0).
Qed.

(** ** Sums and counts over appended lines *)

Lemma sumLengths_from (ls : list jsstring) : forall a,
  fold_left (fun a b => a + length b) ls a
  = a + fold_left (fun a b => a + length b) ls 0.
Proof.
  induction ls as [|l ls IH]; intros a; simpl; [lia|].
  rewrite IH, (IH (length l)). lia.
Qed.

Lemma sumLengths_app (l1 l2 : list jsstring) :
  fold_left (fun a b => a + length b) (l1 ++ l2) 0
  = fold_left (fun a b => a + length b) l1 0
    + fold_left (fun a b => a + length b) l2 0.
Proof.
  rewrite fold_left_app. apply sumLengths_from.
Qed.

Lemma sumLengths_long (ls : list jsstring) :
  Forall (fun l => 200 < length l) ls ->
  201 * length ls <= fold_left (fun a b => a + length b) ls 0.
Proof.
  induction 1 as [|l ls Hl _ IH]; simpl; [lia|].
  rewrite sumLengths_from. lia.
Qed.

Lemma longLinesOf_app (l1 l2 : list jsstring) :
  longLinesOf (l1 ++ l2) = longLinesOf l1 ++ longLinesOf l2.
Proof. apply filter_app. Qed.

Lemma longLinesOf_all (ls : list jsstring) :
  Forall (fun l => 200 < length l) ls -> longLinesOf ls = ls.
Proof.
  induction 1 as [|l ls Hl _ IH]; simpl; [reflexivity|].
  apply Nat.ltb_lt in Hl. now rewrite Hl, IH.
Qed.

Section ReadabilityProofs.
Context {host : Host}.

(** C10. On the empty string [analyzeReadability] returns score 100 and
    no issue or suggestion: there is no non-empty line, the average line
    length is 0 / 0 = NaN (in binary64 too), which does not exceed 150,
    and no penalty applies. *)
Theorem analyzeReadability_empty :
  analyzeReadability [] = ReadabilityReport.mk [] 100 []
  /\ nonEmptyLinesOf (split LF []) = []
  /\ avgLineLengthOf (nonEmptyLinesOf (split LF [])) = NaN
  /\ exceeds NaN 150 = false
  /\ JsNumber.div (JsNumber.ofNat 0) (JsNumber.ofNat 0) = Floats.SpecFloat.S754_nan
  /\ averageExceeds_binary64 0 0 150 = false.
Proof. repeat split. Qed.

Definition penalty (cond : bool) (points : Z) : Z := if cond then points else 0%Z.

Lemma analyzeReadability_score content :
  ReadabilityReport.score (analyzeReadability content)
  = let lines := split LF content in
    let nonEmptyLines := nonEmptyLinesOf lines in
    let p1 := exceedsThreeTenths (length (longLinesOf nonEmptyLines))
                (length nonEmptyLines) in
    let p2 := (length (filter isDetectedHeading lines) =? 0)
              && (3000 <? length content) in
    let p3 := exceeds (avgLineLengthOf nonEmptyLines) 150 in
    let p4 := 20 <? length (spaceRuns content 0 0) in
    Z.max 0 (100 - penalty p1 20 - penalty p2 15 - penalty p3 15 - penalty p4 10)%Z.
Proof.
  unfold analyzeReadability. rewrite manySpaces_eq. cbv zeta.
  unfold penalize, penalty.
  repeat match goal with |- context [if ?b then _ else _] => destruct b end;
    reflexivity.
Qed.

(** Appending lines that are each longer than 200 units keeps every
    penalty that the document had, when a heading is detected in it. *)
Lemma analyzeReadability_append_long (D : jsstring) (extra : list jsstring) :
  extra <> [] ->
  Forall (fun l => hasLineFeed l = false) extra ->
  Forall (fun l => 200 < length l) extra ->
  Exists (fun l => isDetectedHeading l = true) (split LF D) ->
  (ReadabilityReport.score (analyzeReadability (D ++ [LF] ++ join [LF] extra))
   <= ReadabilityReport.score (analyzeReadability D))%Z.
Proof.
  intros Hne Hlf Hlong Hhead.
  rewrite !analyzeReadability_score. cbv zeta.
  cbn [app]. rewrite split_app_sep, split_join by assumption.
  set (lines := split LF D).
  unfold nonEmptyLinesOf at 1 2 3 4. rewrite filter_app.
  fold (nonEmptyLinesOf lines). fold (nonEmptyLinesOf extra).
  set (ne := nonEmptyLinesOf lines). set (ne' := nonEmptyLinesOf extra).
  assert (Hlong' : Forall (fun l => 200 < length l) ne').
  { apply Forall_forall. intros l Hl. apply filter_In in Hl as [Hl _].
    revert l Hl. now apply Forall_forall. }
  (* long lines *)
  rewrite longLinesOf_app, (longLinesOf_all ne' Hlong'), !length_app.
  (* headings *)
  rewrite filter_app, length_app.
  assert (Hh : (length (filter isDetectedHeading lines) =? 0) = false).
  { apply Nat.eqb_neq. apply Exists_exists in Hhead as (l & Hin & Hl).
    assert (In l (filter isDetectedHeading lines)) as Hf by (apply filter_In; auto).
    destruct (filter isDetectedHeading lines); [destruct Hf|discriminate]. }
  assert (Hh' : (length (filter isDetectedHeading lines)
                 + length (filter isDetectedHeading extra) =? 0) = false).
  { apply Nat.eqb_neq. apply Nat.eqb_neq in Hh. lia. }
  rewrite Hh, Hh'. cbn [andb penalty].
  (* average *)
  unfold avgLineLengthOf. rewrite sumLengths_app, length_app.
  pose proof (sumLengths_long ne' Hlong') as Hsum.
  set (total := fold_left (fun a b => a + length b) ne 0) in *.
  set (total' := fold_left (fun a b => a + length b) ne' 0) in *.
  (* spaces *)
  rewrite (spaceRuns_app D (join [LF] extra) 0 0) by lia. rewrite length_app.
  set (runs := length (spaceRuns D 0 0)).
  set (runs' := length (spaceRuns (LF :: join [LF] extra) (0 + length D) 0)).
  set (n := length ne) in *. set (k := length ne') in *.
  set (long := length (longLinesOf ne)).
  assert (H1 : exceedsThreeTenths long n = true ->
               exceedsThreeTenths (long + k) (n + k) = true).
  { unfold exceedsThreeTenths. rewrite !Nat.ltb_lt. lia. }
  assert (H3 : exceeds (divide total n) 150 = true ->
               exceeds (divide (total + total') (n + k)) 150 = true).
  { unfold divide. destruct n as [|n]; simpl.
    - destruct total; simpl; [discriminate|].
      intros _. destruct k; simpl; [reflexivity|].
      apply Nat.ltb_lt. lia.
    - intros H. apply Nat.ltb_lt in H. apply Nat.ltb_lt. lia. }
  assert (H4 : (20 <? runs) = true -> (20 <? runs + runs') = true).
  { rewrite !Nat.ltb_lt. lia. }
  unfold penalty.
  destruct (exceedsThreeTenths long n); [rewrite H1 by reflexivity|];
  destruct (exceeds (divide total n) 150); try rewrite H3 by reflexivity;
  destruct (20 <? runs); try rewrite H4 by reflexivity;
  repeat match goal with |- context [if ?b then _ else _] => destruct b end; lia.
Qed.

(** C8. For every document in which a heading line is detected, appending
    25 lines of more than 200 units each (as the lines that follow the
    document's own) never gives a score greater than the document's. *)
Theorem analyzeReadability_monotone (D : jsstring) (extra : list jsstring) :
  Exists (fun l => isDetectedHeading l = true) (split LF D) ->
  length extra = 25 ->
  Forall (fun l => hasLineFeed l = false) extra ->
  Forall (fun l => 200 < length l) extra ->
  (ReadabilityReport.score (analyzeReadability (D ++ [LF] ++ join [LF] extra))
   <= ReadabilityReport.score (analyzeReadability D))%Z.
Proof.
  intros Hhead Hlen Hlf Hlong.
  apply analyzeReadability_append_long; auto.
  intros ->. discriminate.
Qed.

End ReadabilityProofs.

(** C8 at [shortHeadedDocument] and 25 lines of 201 units: the score goes
    from 100 to 65. *)
Lemma analyzeReadability_monotone_witness :
  ReadabilityReport.score (analyzeReadability (host := latinHost) shortHeadedDocument) = 100%Z
  /\ ReadabilityReport.score
       (analyzeReadability (host := latinHost)
          (shortHeadedDocument ++ [LF] ++ join [LF] longLines25)) = 65%Z
  /\ (ReadabilityReport.score
        (analyzeReadability (host := latinHost)
           (shortHeadedDocument ++ [LF] ++ join [LF] longLines25))
      <= ReadabilityReport.score
           (analyzeReadability (host := latinHost) shortHeadedDocument))%Z.
Proof.
  split; [vm_compute; reflexivity|]. split; [vm_compute; reflexivity|].
  apply (analyzeReadability_monotone (host := latinHost) shortHeadedDocument longLines25).
  - apply Exists_cons_hd. vm_compute. reflexivity.
  - reflexivity.
  - apply Forall_forall. intros l Hl. apply repeat_spec in Hl. subst l.
    vm_compute. reflexivity.
  - apply Forall_forall. intros l Hl. apply repeat_spec in Hl. subst l.
    rewrite repeat_length. lia.
Defined.
(* ================================================================== *)
(** * Properties of the preprocessor *)

Example preprocessContent_examples :
  map (fun s => preprocessContent (host := latinHost) s allOptions)
      [lit "a   b  " ++ [CR; LF; LF; LF; LF; LF] ++ lit "Chapter 1: Start" ++ [LF]
         ++ lit "It ends.Next one ,here .";
       lit "x # A  "]
  = [lit "a b" ++ [LF; LF] ++ lit "## Chapter 1 Start" ++ [LF; LF]
       ++ lit "It ends. Next one,here.";
     lit "x " ++ [LF; LF] ++ lit "# A " ++ [LF; LF]].
Proof. vm_compute. reflexivity. Qed.


(** Even with every option off the clean-up of the heading spacing is not
    idempotent: seven [#] and a second line. *)
Example preprocessContent_not_idempotent_without_options :
  let x := repeat HASH 7 ++ [LF] ++ lit "a" in
  preprocessContent (host := latinHost) x noOptions
  = lit "#" ++ [LF; LF] ++ lit "######" ++ [LF] ++ lit "a" ++ [LF; LF]
  /\ preprocessContent (host := latinHost)
       (preprocessContent (host := latinHost) x noOptions) noOptions
     = lit "#" ++ [LF; LF] ++ lit "######" ++ [LF; LF] ++ lit "a" ++ [LF; LF].
Proof. vm_compute. split; reflexivity. Qed.

(** With [detectChapters] and [fixPunctuation] on, a text without [#]
    is enough: the first application makes the heading [## . A], the
    second takes the space before its full stop away. *)
Example preprocessContent_not_idempotent_without_hash :
  let options := mkOptions false true false true in
  preprocessContent (host := latinHost) stopThenCapital options
  = lit "## . A" ++ [LF; LF]
  /\ preprocessContent (host := latinHost)
       (preprocessContent (host := latinHost) stopThenCapital options) options
     = lit "##. A" ++ [LF; LF].
Proof. vm_compute. split; reflexivity. Qed.

(** ** Replacements that find no match, and replacements by literal text *)

Lemma replaceAll_plainScan r tmpl s : replaceAll r tmpl s = plainScan r tmpl s 0 0.
Proof. reflexivity. Qed.

Lemma plainScan_no_match r tmpl s : forall pos,
  (forall n pos', matchAt r (skipn n s) pos' = None) ->
  plainScan r tmpl s pos 0 = s.
Proof.
  unfold plainScan. induction s as [|x s IH]; intros pos H; cbn [scan].
  - pose proof (H 0 pos) as H0. cbn [skipn] in H0. now rewrite H0.
  - pose proof (H 0 pos) as H0. cbn [skipn] in H0. rewrite H0.
    f_equal. apply IH. intros n pos'. apply (H (S n) pos').
Qed.

Lemma subst_literal lits c : subst (map TLit lits) c = lits.
Proof.
  unfold subst. induction lits as [|x lits IH]; simpl; [reflexivity|]. now rewrite IH.
Qed.



Lemma rep_needs_one {R} p hi s pos c (k : @kont R) :
  match s with x :: _ => p x = false | [] => True end ->
  rep p 1 hi 0 s pos c k = None.
Proof.
  destruct s as [|x s]; cbn [rep]; [reflexivity|]. now intros ->.
Qed.

Lemma skipn_Forall {A} (Q : A -> Prop) n (l : list A) :
  Forall Q l -> Forall Q (skipn n l).
Proof.
  revert l. induction n as [|n IH]; intros l H; [exact H|].
  destruct l as [|x l]; [constructor|]. apply Forall_cons_iff in H as [_ H]. now apply IH.
Qed.


(** ** The three clean-up passes *)






Lemma matchAt_threeNewlines s pos :
  matchAt re_threeNewlines s pos
  = if 3 <=? runLength isLF s then Some (pos + runLength isLF s, []) else None.
Proof.
  unfold matchAt, re_threeNewlines. cbn [run]. now rewrite rep_unbounded.
Qed.





Lemma replaceAll_threeNewlines_fixed s :
  (forall n, runLength isLF (skipn n s) <= 2) ->
  replaceAll re_threeNewlines [TLit LF; TLit LF] s = s.
Proof.
  intros H. rewrite replaceAll_plainScan. apply plainScan_no_match.
  intros n pos. rewrite matchAt_threeNewlines.
  specialize (H n). destruct (3 <=? runLength isLF (skipn n s)) eqn:E; [|reflexivity].
  apply Nat.leb_le in E. lia.
Qed.

Lemma search_Bol_later r s : forall pos,
  1 <= pos -> search (Seq Bol r) s pos = None.
Proof.
  induction s as [|x s IH]; intros pos Hp; cbn [search];
    unfold matchAt; cbn [run];
    (destruct pos; [lia|]); cbn [Nat.eqb]; [reflexivity|].
  apply IH. lia.
Qed.

Lemma replaceFirst_leadingNewlines s :
  replaceFirst re_leadingNewlines [] s = skipn (runLength isLF s) s.
Proof.
  unfold replaceFirst, re_leadingNewlines, plus.
  assert (Hm : matchAt (Seq Bol (Rep isLF 1 None)) s 0
               = if 1 <=? runLength isLF s then Some (runLength isLF s, []) else None).
  { unfold matchAt. cbn [run Nat.eqb]. now rewrite rep_unbounded. }
  destruct s as [|x s].
  - cbn [search]. rewrite Hm. reflexivity.
  - cbn [search]. rewrite Hm.
    destruct (runLength isLF (x :: s)) as [|n] eqn:En.
    + cbn [Nat.leb]. now rewrite search_Bol_later by lia.
    + cbn [Nat.leb firstn subst flat_map app]. reflexivity.
Qed.

Section PreprocessProofs.
Context {host : Host}.


End PreprocessProofs.
(* ================================================================== *)
(** * The passes of the preprocessor, unit by unit

    Each replacement of steps 2 and 3 and of the clean-up is a function
    that keeps, drops or follows each unit after a look at the units next
    to it. *)

Lemma afterRun_cons p x s :
  afterRun p (x :: s) = if p x then afterRun p s else x :: s.
Proof. unfold afterRun. simpl. now destruct (p x). Qed.


(** A greedy quantifier followed by something that cannot start with a
    unit of its class either takes the whole run or fails. *)
Lemma rep_greedy_disjoint {R} p lo s : forall taken pos c (k : @kont R),
  (forall x s' pos' c', p x = true -> k (x :: s') pos' c' = None) ->
  rep p lo None taken s pos c k
  = if lo <=? taken + runLength p s
    then k (afterRun p s) (pos + runLength p s) c else None.
Proof.
  induction s as [|x s IH]; intros taken pos c k Hk; cbn [rep runLength].
  - unfold afterRun. simpl. now rewrite !Nat.add_0_r.
  - rewrite afterRun_cons. destruct (p x) eqn:E; cbn [andb below].
    + rewrite IH by assumption.
      replace (S taken + runLength p s) with (taken + S (runLength p s)) by lia.
      replace (S pos + runLength p s) with (pos + S (runLength p s)) by lia.
      destruct (lo <=? taken + S (runLength p s)) eqn:E1.
      * destruct (k (afterRun p s) (pos + S (runLength p s)) c) eqn:E2; [reflexivity|].
        rewrite (Hk x s pos c E). now destruct (lo <=? taken).
      * apply Nat.leb_gt in E1.
        destruct (lo <=? taken) eqn:E3; [apply Nat.leb_le in E3; lia|reflexivity].
    + now rewrite !Nat.add_0_r.
Qed.

(** The scan of a pass against a function [f] on suffixes: where a match
    starts, [f] gives the replacement and then what it gives on the rest;
    elsewhere it keeps the unit. *)
Lemma plainScan_spec r tmpl (f : jsstring -> jsstring) :
  f [] = [] ->
  (forall pos, matchAt r [] pos = None) ->
  (forall x s pos, matchAt r (x :: s) pos = None -> f (x :: s) = x :: f s) ->
  (forall x s pos e c, matchAt r (x :: s) pos = Some (e, c) ->
     exists n, e - pos = S n /\ f (x :: s) = subst tmpl c ++ f (skipn n s)) ->
  forall s pos skip, plainScan r tmpl s pos skip = f (skipn skip s).
Proof.
  intros Hnil Hend Hskip Hmatch. unfold plainScan.
  induction s as [|x s IH]; intros pos skip; cbn [scan].
  - rewrite Hend. destruct skip; simpl; now rewrite Hnil.
  - destruct skip as [|skip]; [|apply IH]. cbn [skipn].
    destruct (matchAt r (x :: s) pos) as [[e c]|] eqn:E.
    + destruct (Hmatch _ _ _ _ _ E) as (n & -> & ->). now rewrite IH.
    + rewrite (Hskip _ _ _ E). f_equal. apply (IH (S pos) 0).
Qed.

(** ** Blank-line collapse: [/\n{k+1,}/g] to [k] line feeds *)




(** ** A run and the unit after it: [/ +\n/g] and [/\s+([,.])/g] *)



Lemma matchAt_trailingSpace s pos :
  matchAt re_trailingSpace s pos
  = if (1 <=? runLength isSP s) && headIs isLF (afterRun isSP s)
    then Some (S (pos + runLength isSP s), []) else None.
Proof.
  unfold matchAt, re_trailingSpace, plus, chr. cbn [run].
  rewrite rep_greedy_disjoint.
  - cbn [Nat.add]. destruct (1 <=? runLength isSP s); [|reflexivity].
    destruct (afterRun isSP s) as [|y t]; [reflexivity|].
    cbn [andb headIs]. unfold isLF. now rewrite (N.eqb_sym LF y).
  - intros x s' pos' c' Hx. apply N.eqb_eq in Hx. subst x. reflexivity.
Qed.


Lemma matchAt_spaceBeforePunct s pos :
  matchAt re_spaceBeforePunct s pos
  = if (1 <=? runLength isSpace s) && headIs isCommaStop (afterRun isSpace s)
    then Some (S (pos + runLength isSpace s),
               [(1, firstn 1 (afterRun isSpace s))])
    else None.
Proof.
  unfold matchAt, re_spaceBeforePunct, plus. cbn [run].
  rewrite rep_greedy_disjoint.
  - cbn [Nat.add]. destruct (1 <=? runLength isSpace s); [|reflexivity].
    destruct (afterRun isSpace s) as [|y t]; [reflexivity|].
    cbn [andb headIs]. fold isCommaStop. destruct (isCommaStop y); [|reflexivity].
    now replace (S (pos + runLength isSpace s) - (pos + runLength isSpace s)) with 1 by lia.
  - intros x s' pos' c' Hx. fold isCommaStop.
    destruct (isCommaStop x) eqn:E; [|reflexivity].
    exfalso. revert Hx E. unfold isCommaStop, anyOf. cbn [lit existsb].
    intros Hx E. apply orb_prop in E as [E|E]; [|apply orb_prop in E as [E|E]];
      try discriminate; apply N.eqb_eq in E; subst x; discriminate.
Qed.



(** ** A space after the full stop: [/([.!?])([A-Z가-힣])/g] *)


Lemma matchAt_punctCapital s pos :
  matchAt re_punctCapital s pos
  = match s with
    | x :: y :: _ =>
        if isSentenceStop x && isCapitalOrHangul y
        then Some (S (S pos), [(2, [y]); (1, [x])]) else None
    | _ => None
    end.
Proof.
  unfold matchAt, re_punctCapital. cbn [run]. fold isSentenceStop.
  destruct s as [|x [|y t]]; [reflexivity|now destruct (isSentenceStop x)|].
  destruct (isSentenceStop x); [|reflexivity]. cbn [andb].
  destruct (isCapitalOrHangul y); [|reflexivity].
  replace (S pos - pos) with 1 by lia.
  now replace (S (S pos) - S pos) with 1 by lia.
Qed.


(** ** Runs of spaces: [/([^\n]) {2,}/g] *)

Lemma matchAt_multiSpace s pos :
  matchAt re_multiSpace s pos
  = match s with
    | x :: t =>
        if notLF x && (2 <=? runLength isSP t)
        then Some (S pos + runLength isSP t, [(1, [x])]) else None
    | [] => None
    end.
Proof.
  unfold matchAt, re_multiSpace. cbn [run].
  destruct s as [|x t]; [reflexivity|].
  destruct (notLF x); [|reflexivity]. cbn [andb].
  rewrite rep_unbounded. cbn [Nat.add].
  destruct (2 <=? runLength isSP t); [|reflexivity].
  now replace (S pos - pos) with 1 by lia.
Qed.


(** ** [/([가-힣])\.([가-힣])/g] *)


(** ** Classes of units that do not meet *)

Ltac classes :=
  intros;
  repeat match goal with
  | |- _ = false => apply not_true_is_false; intro
  end;
  unfold isSentenceStop, isCommaStop, anyOf, isSP, isLF, isHash, notLF, isCapitalOrHangul,
    isUpperLatin, isHangul, isSpace, between, SP, LF, CR, HASH in *;
  change (lit ".!?") with [46; 33; 63]%N in *;
  change (lit ",.") with [44; 46]%N in *;
  cbn [existsb] in *;
  rewrite ?orb_true_iff, ?andb_true_iff, ?negb_true_iff, ?orb_false_iff,
    ?andb_false_iff, ?N.eqb_eq, ?N.eqb_neq, ?N.leb_le, ?N.leb_gt in *;
  lia.

Lemma isSP_notLF x : isSP x = true -> notLF x = true.
Proof. classes. Qed.

(** ** Pairs and triples of units that a text does not hold *)







(** *** The blank-line collapse *)






(** *** A run and the unit after it *)

Section DropRunBefore.
Variables p q : codeunit -> bool.
Hypothesis apart : forall x, q x = true -> p x = false.








End DropRunBefore.

(** *** The space after a full stop *)








(** *** Runs of spaces *)




(** ** Idempotence where no heading is made *)














Section Idempotence.
Context {host : Host}.





End Idempotence.

(* ================================================================== *)
(** * More on strings: [trim], prefixes and suffixes *)

Lemma trimStart_spaces ws s :
  forallb isSpace ws = true -> trimStart (ws ++ s) = trimStart s.
Proof.
  induction ws as [|c ws IH]; intros H; [reflexivity|].
  simpl in H. apply andb_prop in H as [Hc Hws]. simpl. rewrite Hc. now apply IH.
Qed.

Lemma trimStart_blank s : forallb isSpace s = true -> trimStart s = [].
Proof.
  intros H. rewrite <- (app_nil_r s). now rewrite trimStart_spaces.
Qed.

Lemma trimStart_app u v :
  forallb isSpace u = false -> trimStart (u ++ v) = trimStart u ++ v.
Proof.
  induction u as [|c u IH]; intros H; [discriminate|].
  simpl in *. destruct (isSpace c); [now apply IH|reflexivity].
Qed.

Lemma trimStart_forallb s : forallb isSpace (trimStart s) = forallb isSpace s.
Proof.
  induction s as [|c s IH]; [reflexivity|]. simpl.
  destruct (isSpace c) eqn:E; [exact IH|]. simpl. now rewrite E.
Qed.

Lemma trimStart_nil s : trimStart s = [] <-> forallb isSpace s = true.
Proof.
  induction s as [|c s IH]; simpl; [tauto|].
  destruct (isSpace c); [exact IH|]. split; discriminate.
Qed.

Lemma trimStart_head s :
  match trimStart s with c :: _ => isSpace c = false | [] => True end.
Proof.
  induction s as [|c s IH]; simpl; [exact I|].
  destruct (isSpace c) eqn:E; [exact IH|exact E].
Qed.

Lemma trimStart_fixed c s : isSpace c = false -> trimStart (c :: s) = c :: s.
Proof. intros H. simpl. now rewrite H. Qed.

Lemma forallb_rev {A} (p : A -> bool) l : forallb p (rev l) = forallb p l.
Proof.
  induction l as [|x l IH]; [reflexivity|]. simpl.
  rewrite forallb_app, IH. simpl. rewrite andb_true_r. apply andb_comm.
Qed.

Lemma trimEnd_spaces s ws :
  forallb isSpace ws = true -> trimEnd (s ++ ws) = trimEnd s.
Proof.
  intros H. unfold trimEnd. rewrite rev_app_distr, trimStart_spaces; [reflexivity|].
  now rewrite forallb_rev.
Qed.

Lemma trimEnd_app u v :
  forallb isSpace v = false -> trimEnd (u ++ v) = u ++ trimEnd v.
Proof.
  intros H. unfold trimEnd. rewrite rev_app_distr, trimStart_app.
  - now rewrite rev_app_distr, rev_involutive.
  - now rewrite forallb_rev.
Qed.

Lemma trimEnd_nil s : trimEnd s = [] <-> forallb isSpace s = true.
Proof.
  unfold trimEnd. rewrite <- (forallb_rev isSpace s), <- trimStart_nil.
  split; intros H.
  - apply (f_equal (@rev _)) in H. now rewrite rev_involutive in H.
  - now rewrite H.
Qed.

Lemma trimEnd_snoc s c : isSpace c = false -> trimEnd (s ++ [c]) = s ++ [c].
Proof.
  intros H. unfold trimEnd. rewrite rev_app_distr. simpl. rewrite H.
  simpl. now rewrite rev_involutive.
Qed.

Lemma trimEnd_forallb s : forallb isSpace (trimEnd s) = forallb isSpace s.
Proof.
  unfold trimEnd. now rewrite forallb_rev, trimStart_forallb, forallb_rev.
Qed.

Lemma trim_nil s : trim s = [] <-> forallb isSpace s = true.
Proof.
  unfold trim. rewrite trimEnd_nil, trimStart_forallb. tauto.
Qed.

Lemma isEmpty_trim s : isEmpty (trim s) = forallb isSpace s.
Proof.
  destruct (forallb isSpace s) eqn:E.
  - apply trim_nil in E. now rewrite E.
  - destruct (trim s) eqn:Et; [|reflexivity].
    apply trim_nil in Et. congruence.
Qed.

(** [trim] strips any white space around a text. *)
Lemma trim_spaces pre s post :
  forallb isSpace pre = true -> forallb isSpace post = true ->
  trim (pre ++ s ++ post) = trim s.
Proof.
  intros H1 H2. unfold trim. rewrite trimStart_spaces by assumption.
  destruct (forallb isSpace s) eqn:E.
  - now rewrite (trimStart_spaces s post E), (trimStart_blank post H2),
      (trimStart_blank s E).
  - rewrite trimStart_app by assumption. now rewrite trimEnd_spaces.
Qed.

(** A text that starts and ends with units that are not white space is
    its own [trim]. *)
Lemma trim_fixed c s d :
  isSpace c = false -> isSpace d = false ->
  trim (c :: s ++ [d]) = c :: s ++ [d].
Proof.
  intros Hc Hd. unfold trim. rewrite trimStart_fixed by assumption.
  now rewrite app_comm_cons, trimEnd_snoc.
Qed.

Lemma trimEnd_head c s :
  isSpace c = false -> exists t, trimEnd (c :: s) = c :: t.
Proof.
  intros Hc. induction s as [|d s IH] using rev_ind.
  - exists []. apply (trimEnd_snoc [] c Hc).
  - destruct (isSpace d) eqn:Ed.
    + rewrite app_comm_cons, trimEnd_spaces by (simpl; now rewrite Ed). exact IH.
    + exists (s ++ [d]). rewrite app_comm_cons. now apply trimEnd_snoc.
Qed.

Lemma trimEnd_trimEnd s : trimEnd (trimEnd s) = trimEnd s.
Proof.
  induction s as [|d s IH] using rev_ind; [reflexivity|].
  destruct (isSpace d) eqn:Ed.
  - now rewrite trimEnd_spaces by (simpl; now rewrite Ed).
  - rewrite trimEnd_snoc by assumption. now apply trimEnd_snoc.
Qed.

Lemma trim_trim s : trim (trim s) = trim s.
Proof.
  unfold trim. pose proof (trimStart_head s) as H.
  destruct (trimStart s) as [|c t]; [reflexivity|].
  destruct (trimEnd_head c t H) as [u Hu]. rewrite Hu.
  rewrite trimStart_fixed by assumption. rewrite <- Hu. apply trimEnd_trimEnd.
Qed.

(** [trim] takes white space only. *)
Lemma filter_trimStart s :
  filter (fun c => negb (isSpace c)) (trimStart s)
  = filter (fun c => negb (isSpace c)) s.
Proof.
  induction s as [|c s IH]; [reflexivity|]. simpl.
  destruct (isSpace c) eqn:E; simpl; [exact IH|]. now rewrite E.
Qed.

Lemma filter_rev {A} (p : A -> bool) l : filter p (rev l) = rev (filter p l).
Proof.
  induction l as [|x l IH]; [reflexivity|]. simpl.
  rewrite filter_app, IH. simpl. destruct (p x); simpl; [reflexivity|].
  now rewrite app_nil_r.
Qed.

Lemma filter_trim s :
  filter (fun c => negb (isSpace c)) (trim s)
  = filter (fun c => negb (isSpace c)) s.
Proof.
  unfold trim, trimEnd.
  now rewrite filter_rev, filter_trimStart, filter_rev, rev_involutive, filter_trimStart.
Qed.

(** A text between a prefix that starts with a unit that is not white
    space and a suffix that ends with one is its own [trim]. *)
Lemma trim_between c a s b :
  isSpace c = false -> forallb isSpace b = false -> trimEnd b = b ->
  trim ((c :: a) ++ s ++ b) = (c :: a) ++ s ++ b.
Proof.
  intros Hc Hb Hb'. unfold trim. cbn [app]. rewrite trimStart_fixed by assumption.
  change (c :: a ++ s ++ b) with ((c :: a) ++ s ++ b).
  now rewrite app_assoc, trimEnd_app, Hb'.
Qed.
(* ================================================================== *)
(** * More on the matcher: what a successful quantifier consumed *)

(** A quantifier that succeeds handed some prefix of the run to its
    continuation. *)
Lemma rep_inv {R} p lo hi s : forall taken pos c (k : @kont R) r,
  rep p lo hi taken s pos c k = Some r ->
  exists n, n <= runLength p s /\ lo <= taken + n
            /\ match hi with Some h => n = 0 \/ taken + n <= h | None => True end
            /\ k (skipn n s) (pos + n) c = Some r.
Proof.
  induction s as [|x s IH]; intros taken pos c k r H; cbn [rep] in H.
  - destruct (lo <=? taken) eqn:E; [|discriminate]. apply Nat.leb_le in E.
    exists 0. rewrite !Nat.add_0_r. repeat split; auto; try lia.
    destruct hi; auto.
  - assert (Hstop : (if lo <=? taken then k (x :: s) pos c else None) = Some r ->
                    exists n, n <= runLength p (x :: s) /\ lo <= taken + n
                      /\ match hi with Some h => n = 0 \/ taken + n <= h | None => True end
                      /\ k (skipn n (x :: s)) (pos + n) c = Some r).
    { intros H'. destruct (lo <=? taken) eqn:E; [|discriminate]. apply Nat.leb_le in E.
      exists 0. rewrite !Nat.add_0_r. repeat split; auto; try lia.
      destruct hi; auto. }
    destruct (p x && below taken hi) eqn:Ep; [|now apply Hstop].
    destruct (rep p lo hi (S taken) s (S pos) c k) as [r'|] eqn:Er; [|now apply Hstop].
    injection H as ->. apply andb_prop in Ep as [Ex Eb].
    destruct (IH _ _ _ _ _ Er) as (n & Hn & Hlo & Hhi & Hk).
    exists (S n). cbn [runLength skipn]. rewrite Ex.
    replace (pos + S n) with (S pos + n) by lia.
    repeat split; auto; try lia.
    destruct hi as [h|]; [|exact I]. right. unfold below in Eb.
    apply Nat.ltb_lt in Eb. destruct Hhi as [->|Hhi]; lia.
Qed.

(** A prefix of a run that ends before a unit of another class is the
    whole run. *)
Lemma run_prefix_whole p q s n :
  (forall x, q x = true -> p x = false) ->
  n <= runLength p s -> headIs q (skipn n s) = true -> n = runLength p s.
Proof.
  intros Hd. revert n. induction s as [|x s IH]; intros n Hn Hq.
  - simpl in *. lia.
  - cbn [runLength] in *. destruct n as [|n].
    + cbn [skipn headIs] in Hq. apply Hd in Hq. now rewrite Hq.
    + destruct (p x); [|lia]. f_equal. apply IH; [lia|exact Hq].
Qed.

Lemma skipn_runLength_all p s n :
  n <= runLength p s -> forallb p (firstn n s) = true.
Proof.
  revert n. induction s as [|x s IH]; intros n Hn.
  - now destruct n.
  - destruct n as [|n]; [reflexivity|]. cbn [runLength] in Hn. cbn [firstn forallb].
    destruct (p x); [|lia]. apply IH. lia.
Qed.

(** A bounded greedy quantifier followed by something that cannot start
    with a unit of its class takes the whole run, when the run fits. *)
Lemma rep_bounded_disjoint {R} p lo h s : forall taken pos c (k : @kont R),
  (forall x s' pos' c', p x = true -> k (x :: s') pos' c' = None) ->
  taken <= h ->
  rep p lo (Some h) taken s pos c k
  = if (lo <=? taken + runLength p s) && (taken + runLength p s <=? h)
    then k (afterRun p s) (pos + runLength p s) c else None.
Proof.
  induction s as [|x s IH]; intros taken pos c k Hk Ht; cbn [rep runLength].
  - unfold afterRun. simpl. rewrite !Nat.add_0_r.
    assert ((taken <=? h) = true) as -> by now apply Nat.leb_le.
    now rewrite andb_true_r.
  - rewrite afterRun_cons. destruct (p x) eqn:Ex; cbn [andb below].
    + destruct (taken <? h) eqn:Eb.
      * apply Nat.ltb_lt in Eb. rewrite IH by (assumption || lia).
        replace (S taken + runLength p s) with (taken + S (runLength p s)) by lia.
        replace (S pos + runLength p s) with (pos + S (runLength p s)) by lia.
        destruct ((lo <=? taken + S (runLength p s))
                  && (taken + S (runLength p s) <=? h)) eqn:E1.
        -- destruct (k (afterRun p s) (pos + S (runLength p s)) c) eqn:E2; [reflexivity|].
           rewrite (Hk x s pos c Ex). now destruct (lo <=? taken).
        -- rewrite (Hk x s pos c Ex). now destruct (lo <=? taken).
      * apply Nat.ltb_ge in Eb. rewrite (Hk x s pos c Ex).
        assert ((taken + S (runLength p s) <=? h) = false) as ->
          by (apply Nat.leb_gt; lia).
        rewrite andb_false_r. now destruct (lo <=? taken).
    + rewrite !Nat.add_0_r.
      assert ((taken <=? h) = true) as -> by now apply Nat.leb_le.
      now rewrite andb_true_r.
Qed.

Lemma isSpace_not_isHash x : isSpace x = true -> isHash x = false.
Proof.
  intros H. destruct (isHash x) eqn:E; [|reflexivity].
  apply N.eqb_eq in E. subst x. discriminate.
Qed.

Lemma isHash_not_isSpace x : isHash x = true -> isSpace x = false.
Proof. intros E. apply N.eqb_eq in E. now subst x. Qed.

Lemma matchAt_hashesSpace s pos :
  matchAt re_hashesSpace s pos
  = if startsHeading s then Some (S (pos + runLength isHash s), []) else None.
Proof.
  unfold matchAt, re_hashesSpace, startsHeading. cbn [run].
  rewrite rep_bounded_disjoint; [|
    intros x s' pos' c' Hx; now rewrite (isHash_not_isSpace x Hx) | lia ].
  cbn [Nat.add].
  destruct ((1 <=? runLength isHash s) && (runLength isHash s <=? 6)); [|reflexivity].
  cbn [andb]. destruct (afterRun isHash s) as [|y t]; [reflexivity|].
  cbn [headIs]. now destruct (isSpace y).
Qed.

Lemma test_mdHeadingStart s : test re_mdHeadingStart s = startsHeading s.
Proof.
  unfold test, re_mdHeadingStart.
  assert (Hm : matchAt (Seq Bol (Seq (Rep isHash 1 (Some 6)) (Cls isSpace))) s 0
               = matchAt re_hashesSpace s 0) by reflexivity.
  destruct s as [|x s]; cbn [search]; rewrite Hm, matchAt_hashesSpace.
  - reflexivity.
  - destruct (startsHeading (x :: s)); [reflexivity|].
    now rewrite search_Bol_later by lia.
Qed.

(** What a match of [/^(#{1,6})\s+(.+)$/] says about the line: it starts
    with one to six [#], all in group 1, and a white-space unit follows
    them. *)
Lemma exec_mdHeading_inv line m :
  exec re_mdHeading line = Some m ->
  startsHeading line = true
  /\ groupText 1 m = firstn (runLength isHash line) line
  /\ exists g, group 2 m = Some g /\ g <> []
               /\ exists n, g = skipn n (afterRun isHash line)
                            /\ 1 <= n <= runLength isSpace (afterRun isHash line).
Proof.
  unfold exec. intros H.
  assert (Hm : exists e, matchAt re_mdHeading line 0 = Some (e, m)).
  { destruct line as [|x s]; cbn [search] in H.
    - destruct (matchAt re_mdHeading [] 0) as [[e c]|]; [|discriminate].
      injection H as ->. now exists e.
    - destruct (matchAt re_mdHeading (x :: s) 0) as [[e c]|] eqn:E.
      + injection H as ->. now exists e.
      + unfold re_mdHeading in H. cbn [seqs] in H.
        now rewrite search_Bol_later in H by lia. }
  clear H. destruct Hm as [e Hm].
  unfold matchAt, re_mdHeading, plus in Hm. cbn [seqs run Nat.eqb] in Hm.
  apply rep_inv in Hm as (n & Hn & Hlo & Hhi & Hk).
  apply rep_inv in Hk as (n2 & Hn2 & Hlo2 & _ & Hk).
  apply rep_inv in Hk as (n3 & Hn3 & Hlo3 & _ & Hk).
  destruct (skipn n3 (skipn n2 (skipn n line))) eqn:Eend; [|discriminate].
  injection Hk as <- <-.
  assert (Hsp : headIs isSpace (skipn n line) = true).
  { destruct (skipn n line) as [|y t]; [simpl in Hn2; lia|].
    cbn [runLength] in Hn2. cbn [headIs]. destruct (isSpace y); [reflexivity|lia]. }
  pose proof (run_prefix_whole isHash isSpace line n isSpace_not_isHash Hn Hsp) as En.
  subst n. fold (afterRun isHash line) in *.
  repeat split.
  - unfold startsHeading. rewrite Hsp.
    assert ((1 <=? runLength isHash line) = true) as -> by (apply Nat.leb_le; lia).
    assert ((runLength isHash line <=? 6) = true) as -> by (apply Nat.leb_le; lia).
    reflexivity.
  - unfold groupText. cbn [group Nat.eqb]. f_equal. lia.
  - exists (firstn (0 + runLength isHash line + n2 + n3 - (0 + runLength isHash line + n2))
              (skipn n2 (afterRun isHash line))).
    split; [reflexivity|].
    replace (0 + runLength isHash line + n2 + n3 - (0 + runLength isHash line + n2))
      with n3 by lia.
    assert (Hall : firstn n3 (skipn n2 (afterRun isHash line))
                   = skipn n2 (afterRun isHash line)).
    { rewrite <- (firstn_skipn n3 (skipn n2 (afterRun isHash line))) at 2.
      rewrite Eend. now rewrite app_nil_r. }
    rewrite Hall. split.
    + intros E. rewrite E in Hn3. simpl in Hn3. lia.
    + exists n2. split; [reflexivity|lia].
Qed.
(* ================================================================== *)
(** * Properties of [cleanJsonResponse] *)

Lemma eqb_refl s : JsString.eqb s s = true.
Proof. now apply eqb_eq. Qed.

Lemma eqb_neq a b : a <> b -> JsString.eqb a b = false.
Proof.
  intros H. destruct (JsString.eqb a b) eqn:E; [|reflexivity].
  apply eqb_eq in E. contradiction.
Qed.

Lemma startsWith_app t s : startsWith (t ++ s) t = true.
Proof.
  unfold startsWith. apply eqb_eq.
  rewrite firstn_app, Nat.sub_diag, firstn_all. simpl. apply app_nil_r.
Qed.

Lemma startsWith_head c s d t : c <> d -> startsWith (c :: s) (d :: t) = false.
Proof.
  intros H. unfold startsWith. apply eqb_neq. simpl. congruence.
Qed.

Lemma startsWith_prefix s t u :
  startsWith s t = false -> startsWith s (t ++ u) = false.
Proof.
  unfold startsWith. intros H. apply eqb_neq. intros E.
  assert (E' : firstn (length t) s = t).
  { apply (f_equal (firstn (length t))) in E.
    rewrite firstn_firstn, length_app in E.
    replace (Nat.min (length t) (length t + length u)) with (length t) in E by lia.
    rewrite E, firstn_app, Nat.sub_diag, firstn_all. simpl. apply app_nil_r. }
  apply eqb_eq in E'. congruence.
Qed.

Lemma endsWith_app s t : endsWith (s ++ t) t = true.
Proof.
  unfold endsWith. rewrite length_app.
  assert ((length t <=? length s + length t) = true) as -> by (apply Nat.leb_le; lia).
  replace (length s + length t - length t) with (length s) by lia.
  rewrite skipn_app, skipn_all, Nat.sub_diag. simpl. apply eqb_refl.
Qed.

(** X1. [cleanJsonResponse] takes the code fence off a reply: around a
    text that is its own [trim], the fence [```json] or [```] on a line
    before it, the fence [```] on a line after it, and any white space
    around the whole are removed; a text with no fence at either end
    loses the white space around it only. *)
Theorem cleanJsonResponse_unwraps (pre body post : jsstring) :
  forallb isSpace pre = true -> forallb isSpace post = true ->
  trim body = body ->
  cleanJsonResponse (pre ++ (lit "```json" ++ [LF] ++ body ++ [LF] ++ lit "```") ++ post)
  = body
  /\ cleanJsonResponse (pre ++ (lit "```" ++ [LF] ++ body ++ [LF] ++ lit "```") ++ post)
     = body
  /\ (startsWith body (lit "```") = false -> endsWith body (lit "```") = false ->
      cleanJsonResponse (pre ++ body ++ post) = body).
Proof.
  intros Hpre Hpost Hbody.
  assert (Hin : trim ([LF] ++ body ++ [LF]) = body).
  { now rewrite trim_spaces. }
  assert (Hend : forall s, endsWith (s ++ lit "```") (lit "```") = true)
    by (intros s; apply endsWith_app).
  assert (Hcut : forall s, sliceTo (length (s ++ lit "```") - 3) (s ++ lit "```") = s).
  { intros s. unfold sliceTo. rewrite length_app. cbn [lit length map list_ascii_of_string].
    replace (length s + 3 - 3) with (length s) by lia.
    rewrite firstn_app, Nat.sub_diag, firstn_all. simpl. apply app_nil_r. }
  assert (Htrim : forall a, trim (lit "```" ++ a ++ lit "```") = lit "```" ++ a ++ lit "```").
  { intros a. apply (trim_between 96%N [96; 96]%N a (lit "```")); reflexivity. }
  split; [|split].
  - unfold cleanJsonResponse. rewrite trim_spaces by assumption.
    assert (E : lit "```json" ++ [LF] ++ body ++ [LF] ++ lit "```"
                = lit "```" ++ (lit "json" ++ [LF] ++ body ++ [LF]) ++ lit "```")
      by (cbn; rewrite <- app_assoc; reflexivity).
    rewrite E, Htrim.
    assert (E' : lit "```" ++ (lit "json" ++ [LF] ++ body ++ [LF]) ++ lit "```"
                 = lit "```json" ++ ([LF] ++ body ++ [LF]) ++ lit "```")
      by reflexivity.
    rewrite E', startsWith_app. unfold sliceFrom.
    change (skipn 7 (lit "```json" ++ ([LF] ++ body ++ [LF]) ++ lit "```"))
      with (([LF] ++ body ++ [LF]) ++ lit "```").
    assert (Es : startsWith (([LF] ++ body ++ [LF]) ++ lit "```") (lit "```") = false)
      by (apply (startsWith_head LF _ 96%N); discriminate).
    now rewrite Es, Hend, Hcut.
  - unfold cleanJsonResponse. rewrite trim_spaces by assumption.
    assert (E : lit "```" ++ [LF] ++ body ++ [LF] ++ lit "```"
                = lit "```" ++ ([LF] ++ body ++ [LF]) ++ lit "```")
      by (cbn; rewrite <- app_assoc; reflexivity).
    rewrite E, Htrim.
    assert (E7 : startsWith (lit "```" ++ ([LF] ++ body ++ [LF]) ++ lit "```")
                   (lit "```json") = false).
    { unfold startsWith. apply eqb_neq. cbn. discriminate. }
    rewrite E7, startsWith_app. unfold sliceFrom.
    change (skipn 3 (lit "```" ++ ([LF] ++ body ++ [LF]) ++ lit "```"))
      with (([LF] ++ body ++ [LF]) ++ lit "```").
    now rewrite Hend, Hcut.
  - intros Hs He. unfold cleanJsonResponse.
    rewrite trim_spaces by assumption. rewrite Hbody.
    change (lit "```json") with (lit "```" ++ lit "json").
    now rewrite (startsWith_prefix _ _ _ Hs), Hs, He.
Qed.

(** X1 at the reply [\n```json\n{}\n``` ] and at the bare reply [ {} ]. *)
Lemma cleanJsonResponse_unwraps_witness :
  cleanJsonResponse ([LF] ++ (lit "```json" ++ [LF] ++ lit "{}" ++ [LF] ++ lit "```") ++ [SP])
  = lit "{}"
  /\ cleanJsonResponse ([LF] ++ lit "{}" ++ [SP]) = lit "{}".
Proof.
  destruct (cleanJsonResponse_unwraps [LF] (lit "{}") [SP]) as (H1 & _ & H3);
    [reflexivity|reflexivity|reflexivity|].
  split; [exact H1|]. apply H3; reflexivity.
Defined.
(* ================================================================== *)
(** * Properties of [validateEpubContent] *)

Lemma testAtLineStart_spec s : forall pos b,
  testAtLineStart re_hashesSpace s pos b = true
  <-> (b = true /\ startsHeading s = true)
      \/ exists n, n < length s /\ isLineTerminator (nth n s 0%N) = true
                   /\ startsHeading (skipn (S n) s) = true.
Proof.
  induction s as [|c s IH]; intros pos b; cbn [testAtLineStart];
    rewrite matchAt_hashesSpace.
  - rewrite orb_false_r. split.
    + intros H. apply andb_prop in H as [-> H]. left.
      now destruct (startsHeading []).
    + intros [[-> H]|(n & Hn & _)]; [now rewrite H|simpl in Hn; lia].
  - rewrite orb_true_iff, IH. split.
    + intros [H|[[Hc H]|(n & Hn & Ht & Hs)]].
      * apply andb_prop in H as [-> H]. left.
        now destruct (startsHeading (c :: s)).
      * right. exists 0. cbn [nth skipn length]. repeat split; auto. lia.
      * right. exists (S n). cbn [nth skipn length]. repeat split; auto. lia.
    + intros [[-> H]|(n & Hn & Ht & Hs)].
      * left. now rewrite H.
      * right. destruct n as [|n].
        -- left. cbn [nth skipn] in *. now split.
        -- right. exists n. cbn [nth skipn length] in *. repeat split; auto. lia.
Qed.

Lemma startsHeading_head s : startsHeading s = true -> headIs isHash s = true.
Proof.
  unfold startsHeading. intros H. apply andb_prop in H as [H _].
  apply andb_prop in H as [H _]. apply Nat.leb_le in H.
  destruct s as [|x s]; [simpl in H; lia|]. cbn [runLength headIs] in *.
  destruct (isHash x); [reflexivity|lia].
Qed.

Lemma forallb_skipn {A} (p : A -> bool) n l :
  forallb p l = true -> forallb p (skipn n l) = true.
Proof.
  revert l. induction n as [|n IH]; intros l H; [exact H|].
  destruct l as [|x l]; [reflexivity|]. simpl in H.
  apply andb_prop in H as [_ H]. now apply IH.
Qed.

Lemma startsHeading_not_blank s n :
  startsHeading (skipn n s) = true -> forallb isSpace s = false.
Proof.
  intros H. destruct (forallb isSpace s) eqn:E; [|reflexivity].
  apply (forallb_skipn _ n) in E. apply startsHeading_head in H.
  destruct (skipn n s) as [|x t]; [discriminate|]. cbn [headIs forallb] in *.
  apply andb_prop in E as [E _]. apply isHash_not_isSpace in H. congruence.
Qed.

(** X2. [validateEpubContent] accepts a text exactly when it has at least
    100 units and one to six [#] followed by a white-space unit stand at
    its start or right after a line terminator; the test for an empty text
    never decides, since a text that is empty or blank has no heading
    either. *)
Theorem validateEpubContent_valid (markdown : jsstring) :
  let v := validateEpubContent markdown in
  (Validation.valid v = true <-> Validation.errors v = [])
  /\ (Validation.valid v = true
      <-> 100 <= length markdown
          /\ (startsHeading markdown = true
              \/ exists n, n < length markdown
                           /\ isLineTerminator (nth n markdown 0%N) = true
                           /\ startsHeading (skipn (S n) markdown) = true))
  /\ (In ContentIsEmpty (Validation.errors v)
      -> In NoHeadingsFound (Validation.errors v)).
Proof.
  cbv zeta. unfold validateEpubContent. cbn [Validation.valid Validation.errors].
  set (P := startsHeading markdown = true
            \/ exists n, n < length markdown
                         /\ isLineTerminator (nth n markdown 0%N) = true
                         /\ startsHeading (skipn (S n) markdown) = true).
  assert (Hh : testAtLineStart re_hashesSpace markdown 0 true = true <-> P).
  { rewrite testAtLineStart_spec. subst P. intuition. }
  assert (Hblank : isEmpty markdown || (length (trim markdown) =? 0) = true ->
                   testAtLineStart re_hashesSpace markdown 0 true = false).
  { intros Hb. apply not_true_is_false. intros Et.
    assert (Hs : forallb isSpace markdown = true).
    { apply orb_prop in Hb as [Hb|Hb].
      - now destruct markdown.
      - apply Nat.eqb_eq in Hb. apply trim_nil. now destruct (trim markdown). }
    apply (proj1 Hh) in Et. destruct Et as [H|(n & _ & _ & H)].
    - apply (startsHeading_not_blank markdown 0) in H. congruence.
    - apply startsHeading_not_blank in H. congruence. }
  clearbody P.
  destruct (testAtLineStart re_hashesSpace markdown 0 true);
    destruct (isEmpty markdown || (length (trim markdown) =? 0));
    try (specialize (Hblank eq_refl); discriminate);
    destruct (length markdown <? 100) eqn:E2;
    (apply Nat.ltb_lt in E2 || apply Nat.ltb_ge in E2);
    cbn [negb app length Nat.eqb In];
    intuition (try discriminate; try lia).
Qed.
(* ================================================================== *)
(** * The entries of the table of contents *)

Lemma trim_skip_spaces n s :
  n <= runLength isSpace s -> trim (skipn n s) = trim s.
Proof.
  intros H. rewrite <- (firstn_skipn n s) at 2.
  rewrite <- (app_nil_r (skipn n s)) at 2.
  rewrite trim_spaces; [reflexivity| |reflexivity].
  now apply skipn_runLength_all.
Qed.

Lemma startsHeading_level s :
  startsHeading s = true -> 1 <= runLength isHash s <= 6.
Proof.
  unfold startsHeading. intros H. apply andb_prop in H as [H _].
  apply andb_prop in H as [H1 H2]. apply Nat.leb_le in H1, H2. lia.
Qed.

Lemma length_firstn_run p s : length (firstn (runLength p s) s) = runLength p s.
Proof.
  induction s as [|x s IH]; [reflexivity|]. cbn [runLength].
  destruct (p x); [|reflexivity]. cbn [firstn length]. now rewrite IH.
Qed.

Lemma exec_mdHeading_tocLine line m :
  exec re_mdHeading line = Some m ->
  isTocLine line (length (groupText 1 m)) (trim (groupText 2 m)).
Proof.
  intros H. apply exec_mdHeading_inv in H as (Hs & H1 & g & H2 & _ & n & Hg & Hn).
  repeat split; [exact Hs|now rewrite H1, length_firstn_run|].
  unfold groupText. rewrite H2, Hg. apply trim_skip_spaces. lia.
Qed.

Section TableOfContentsEntries.
Context {host : Host}.

Lemma tocLoop_entries lines : forall index headingIndex,
  Forall (fun e => exists i line,
            nth_error lines i = Some line
            /\ TOCEntry.position e = (Z.of_nat (index + i) + 1)%Z
            /\ isTocLine line (TOCEntry.level e) (TOCEntry.title e))
         (tocLoop lines index headingIndex)
  /\ StronglySorted (fun a b => (TOCEntry.position a < TOCEntry.position b)%Z)
                    (tocLoop lines index headingIndex)
  /\ length (tocLoop lines index headingIndex)
     = length (filter (fun l => match exec re_mdHeading l with
                                | Some _ => true
                                | None => false
                                end) lines).
Proof.
  induction lines as [|line rest IH]; intros index headingIndex; cbn [tocLoop filter].
  - repeat split; constructor.
  - assert (Hshift : forall h,
      Forall (fun e => exists i l,
                nth_error (line :: rest) i = Some l
                /\ TOCEntry.position e = (Z.of_nat (index + i) + 1)%Z
                /\ isTocLine l (TOCEntry.level e) (TOCEntry.title e))
             (tocLoop rest (S index) h)).
    { intros h. destruct (IH (S index) h) as (H & _ & _).
      eapply Forall_impl; [|exact H]. intros e (i & l & Hi & Hp & Ht).
      exists (S i), l. split; [exact Hi|]. split; [rewrite Hp; f_equal; lia|exact Ht]. }
    destruct (exec re_mdHeading line) as [m|] eqn:E.
    + destruct (IH (S index) (S headingIndex)) as (H1 & H2 & H3).
      repeat split.
      * constructor; [|apply Hshift].
        exists 0, line. cbn [nth_error TOCEntry.position TOCEntry.level TOCEntry.title].
        split; [reflexivity|]. split; [f_equal; lia|now apply exec_mdHeading_tocLine].
      * constructor; [exact H2|].
        eapply Forall_impl; [|exact H1]. intros e (i & l & _ & Hp & _).
        cbn [TOCEntry.position]. lia.
      * cbn [length]. now rewrite H3.
    + destruct (IH (S index) headingIndex) as (H1 & H2 & H3).
      repeat split; [apply Hshift|exact H2|exact H3].
Qed.

(** X3. The table of contents lists heading lines only, in the order of
    the document: the positions grow strictly and are line numbers from 1;
    the line of an entry starts with one to six [#] and a white-space
    unit, the level is the number of [#] and the title is the rest of the
    line, trimmed; and there is one entry for every line that
    [/^(#{1,6})\s+(.+)$/] matches. *)
Theorem extractTableOfContents_entries (markdown : jsstring) :
  let lines := split LF markdown in
  let toc := extractTableOfContents markdown in
  StronglySorted (fun a b => (TOCEntry.position a < TOCEntry.position b)%Z) toc
  /\ Forall (fun e => exists i line,
               nth_error lines i = Some line
               /\ TOCEntry.position e = (Z.of_nat i + 1)%Z
               /\ 1 <= TOCEntry.level e <= 6
               /\ isTocLine line (TOCEntry.level e) (TOCEntry.title e)) toc
  /\ length toc
     = length (filter (fun l => match exec re_mdHeading l with
                                | Some _ => true
                                | None => false
                                end) lines).
Proof.
  intros lines toc. destruct (tocLoop_entries lines 0 0) as (H1 & H2 & H3).
  repeat split; [exact H2| |exact H3].
  eapply Forall_impl; [|exact H1]. intros e (i & l & Hi & Hp & Ht).
  exists i, l. split; [exact Hi|]. split; [exact Hp|]. split; [|exact Ht].
  destruct Ht as (Hs & -> & _). now apply startsHeading_level.
Qed.

End TableOfContentsEntries.

(** ** The table of contents and the validation agree on headings *)

Lemma afterRun_app p l r :
  afterRun p l <> [] ->
  runLength p (l ++ r) = runLength p l /\ afterRun p (l ++ r) = afterRun p l ++ r.
Proof.
  induction l as [|x l IH]; intros H; [now contradiction H|].
  rewrite afterRun_cons in H. cbn [app runLength]. rewrite !afterRun_cons.
  destruct (p x).
  - destruct (IH H) as [H1 H2]. now rewrite H1, H2.
  - split; reflexivity.
Qed.

Lemma startsHeading_app l r : startsHeading l = true -> startsHeading (l ++ r) = true.
Proof.
  unfold startsHeading. intros H.
  assert (Hne : afterRun isHash l <> []).
  { apply andb_prop in H as [_ H]. intros E. rewrite E in H. discriminate. }
  destruct (afterRun_app isHash l r Hne) as [H1 H2]. rewrite H1, H2.
  apply andb_prop in H as [H Hs]. rewrite H. cbn [andb].
  destruct (afterRun isHash l); [discriminate|exact Hs].
Qed.

Lemma split_first s :
  exists l ls rest, split LF s = l :: ls /\ s = l ++ rest.
Proof.
  induction s as [|c s (l & ls & rest & Hs & Hr)]; cbn [split].
  - now exists [], [], [].
  - destruct (c =? LF)%N.
    + exists [], (split LF s), (c :: s). now split.
    + rewrite Hs. exists (c :: l), ls, rest. split; [reflexivity|].
      cbn [app]. now f_equal.
Qed.

Lemma testAtLineStart_line s : forall pos b i line,
  nth_error (split LF s) i = Some line -> startsHeading line = true ->
  (i = 0 -> b = true) ->
  testAtLineStart re_hashesSpace s pos b = true.
Proof.
  induction s as [|c s IH]; intros pos b i line Hi Hl Hb.
  - cbn [split] in Hi. destruct i as [|[|i]]; try discriminate.
    injection Hi as <-. discriminate.
  - cbn [testAtLineStart]. rewrite matchAt_hashesSpace. apply orb_true_iff.
    destruct i as [|i].
    + left. rewrite (Hb eq_refl). cbn [andb].
      destruct (split_first (c :: s)) as (l & ls & rest & Hs & Hr).
      rewrite Hs in Hi. injection Hi as ->. rewrite Hr.
      now rewrite startsHeading_app.
    + right. cbn [split] in Hi. destruct (c =? LF)%N eqn:Ec.
      * apply N.eqb_eq in Ec. subst c. cbn [nth_error] in Hi.
        apply (IH _ _ i line Hi Hl). reflexivity.
      * destruct (split LF s) as [|l ls] eqn:Es; [now apply split_not_nil in Es|].
        cbn [nth_error] in Hi.
        apply (IH _ _ (S i) line); [exact Hi|exact Hl|discriminate].
Qed.

Section TableAndValidation.
Context {host : Host}.

(** X4. When the validation of a text reports that no heading was found,
    the table of contents of that text is empty: a text with an entry in
    its table never gets that message. *)
Theorem validateEpubContent_no_heading_no_entry (markdown : jsstring) :
  In NoHeadingsFound (Validation.errors (validateEpubContent markdown)) ->
  extractTableOfContents markdown = [].
Proof.
  intros Herr.
  destruct (tocLoop_entries (split LF markdown) 0 0) as (H & _ & _).
  fold (extractTableOfContents markdown) in H.
  destruct (extractTableOfContents markdown) as [|e toc]; [reflexivity|].
  exfalso. apply Forall_inv in H. destruct H as (i & line & Hi & _ & Hs & _).
  assert (Ht : testAtLineStart re_hashesSpace markdown 0 true = true)
    by (apply (testAtLineStart_line markdown 0 true i line Hi Hs); reflexivity).
  revert Herr. unfold validateEpubContent. cbn [Validation.errors]. rewrite Ht.
  cbn [negb].
  destruct (isEmpty markdown || (length (trim markdown) =? 0));
    destruct (length markdown <? 100); cbn [app In]; intuition discriminate.
Qed.

End TableAndValidation.

(** X4 at the text [plain words], which has no heading. *)
Lemma validateEpubContent_no_heading_no_entry_witness :
  In NoHeadingsFound (Validation.errors (validateEpubContent (lit "plain words")))
  /\ extractTableOfContents (host := latinHost) (lit "plain words") = [].
Proof.
  assert (H : In NoHeadingsFound
                (Validation.errors (validateEpubContent (lit "plain words"))))
    by (vm_compute; auto).
  split; [exact H|].
  exact (validateEpubContent_no_heading_no_entry (host := latinHost) _ H).
Defined.
(* ================================================================== *)
(** * More on the heading classifier *)

(** A greedy quantifier succeeds with the whole run when its continuation
    does. *)
Lemma rep_greedy_first {R} p lo s : forall taken pos c (k : @kont R) r,
  lo <= taken + runLength p s ->
  k (afterRun p s) (pos + runLength p s) c = Some r ->
  rep p lo None taken s pos c k = Some r.
Proof.
  induction s as [|x s IH]; intros taken pos c k r Hlo Hk; cbn [rep].
  - unfold afterRun in Hk. cbn [runLength skipn] in *. rewrite Nat.add_0_r in *.
    assert ((lo <=? taken) = true) as -> by now apply Nat.leb_le.
    exact Hk.
  - rewrite afterRun_cons in Hk. cbn [runLength] in *.
    destruct (p x); cbn [andb below].
    + rewrite (IH (S taken) (S pos) c k r); [reflexivity|lia|].
      now replace (S pos + runLength p s) with (pos + S (runLength p s)) by lia.
    + rewrite Nat.add_0_r in *.
      assert ((lo <=? taken) = true) as -> by now apply Nat.leb_le.
      exact Hk.
Qed.

Lemma runLength_repeat_app p x k s :
  p x = true -> headIs p s = false ->
  runLength p (repeat x k ++ s) = k /\ afterRun p (repeat x k ++ s) = s.
Proof.
  intros Hx Hs. induction k as [|k [IH1 IH2]]; cbn [repeat app].
  - destruct s as [|y s]; [now split|]. cbn [headIs] in Hs.
    unfold afterRun. cbn [runLength]. rewrite Hs. now split.
  - rewrite afterRun_cons. cbn [runLength]. rewrite Hx, IH1, IH2. now split.
Qed.

Lemma runLength_all_app p a s :
  forallb p a = true -> headIs p s = false ->
  runLength p (a ++ s) = length a /\ afterRun p (a ++ s) = s.
Proof.
  intros Ha Hs. induction a as [|x a IH]; cbn [app].
  - destruct s as [|y s]; [now split|]. cbn [headIs] in Hs.
    unfold afterRun. cbn [runLength]. rewrite Hs. now split.
  - cbn [forallb] in Ha. apply andb_prop in Ha as [Hx Ha].
    destruct (IH Ha) as [IH1 IH2].
    rewrite afterRun_cons. cbn [runLength length]. rewrite Hx, IH1, IH2. now split.
Qed.

(** The match of [/^(#{1,6})\s+(.+)$/] on a line made of [k] hashes,
    white space and a text. *)
Lemma exec_mdHeading_line k ws text :
  1 <= k <= 6 ->
  ws <> [] -> forallb isSpace ws = true ->
  text <> [] -> headIs isSpace text = false -> forallb dot text = true ->
  exec re_mdHeading (repeat HASH k ++ ws ++ text)
  = Some [(2, text); (1, repeat HASH k)].
Proof.
  intros Hk Hws Hsp Ht Hh Hd.
  set (s := repeat HASH k ++ ws ++ text).
  assert (Hm : matchAt re_mdHeading s 0
               = Some (k + length ws + length text, [(2, text); (1, repeat HASH k)])).
  { unfold matchAt, re_mdHeading, plus. cbn [seqs run Nat.eqb].
    rewrite rep_bounded_disjoint; [| |lia].
    2:{ intros x s' pos' c' Hx. apply rep_needs_one. cbn.
        now apply isHash_not_isSpace. }
    assert (Hhash : headIs isHash (ws ++ text) = false).
    { destruct ws as [|w ws']; [congruence|]. cbn [app headIs forallb] in *.
      apply andb_prop in Hsp as [Hw _]. now apply isSpace_not_isHash. }
    destruct (runLength_repeat_app isHash HASH k (ws ++ text) eq_refl Hhash) as [E1 E2].
    fold s in E1, E2. rewrite E1, E2. cbn [Nat.add].
    assert ((1 <=? k) && (k <=? 6) = true) as ->.
    { apply andb_true_intro. split; apply Nat.leb_le; lia. }
    destruct (runLength_all_app isSpace ws text Hsp Hh) as [E3 E4].
    apply rep_greedy_first.
    - rewrite E3. destruct ws; [congruence|]. cbn [length]. lia.
    - rewrite E3, E4.
      assert (Hnil : headIs dot [] = false) by reflexivity.
      destruct (runLength_all_app dot text [] Hd Hnil) as [E5 E6].
      rewrite app_nil_r in E5, E6.
      apply rep_greedy_first.
      + rewrite E5. destruct text; [congruence|]. cbn [length]. lia.
      + rewrite E5, E6. f_equal. f_equal. f_equal.
        * f_equal. replace (k + length ws + length text - (k + length ws))
            with (length text) by lia.
          apply firstn_all.
        * f_equal. f_equal. rewrite Nat.sub_0_r. unfold s.
          rewrite firstn_app, repeat_length, Nat.sub_diag, firstn_all2
            by (rewrite repeat_length; lia).
          cbn [firstn]. apply app_nil_r. }
  unfold exec. destruct s as [|x s']; cbn [search]; now rewrite Hm.
Qed.

Section HeadingClassifierMore.
Context {host : Host}.

(** X5. A markdown heading is classified by its hashes: a line whose
    trimmed form is [k] hashes (1 to 6), white space, and a text that
    starts with a unit that is not white space and holds no line
    terminator, is a heading of level [k] whose title is that text. *)
Theorem isChapterHeading_markdown (line : jsstring) (k : nat) (ws text : jsstring) :
  trim line = repeat HASH k ++ ws ++ text ->
  1 <= k <= 6 ->
  ws <> [] -> forallb isSpace ws = true ->
  text <> [] -> headIs isSpace text = false -> forallb dot text = true ->
  isChapterHeading line = HeadingMatch.mk true text k.
Proof.
  intros Hl Hk Hws Hsp Ht Hh Hd. unfold isChapterHeading. cbv zeta. rewrite Hl.
  destruct (repeat HASH k ++ ws ++ text) as [|c t] eqn:E.
  - destruct k; [lia|discriminate].
  - cbn [isEmpty]. rewrite <- E.
    rewrite (exec_mdHeading_line k ws text) by assumption.
    unfold groupText. cbn [group Nat.eqb]. now rewrite repeat_length.
Qed.

Lemma isChapterHeading_trim line : isChapterHeading (trim line) = isChapterHeading line.
Proof. unfold isChapterHeading. cbv zeta. now rewrite trim_trim. Qed.

Lemma level_by_keyword m1 :
  1 <= (if test re_partClass m1 then 1
        else if test re_chapterClass m1 then 2
        else if test re_sectionClass m1 then 3 else 1) <= 6.
Proof.
  destruct (test re_partClass m1), (test re_chapterClass m1),
    (test re_sectionClass m1); lia.
Qed.

Lemma isChapterHeading_not_heading line :
  HeadingMatch.isHeading (isChapterHeading line) = false ->
  isChapterHeading line = notHeading.
Proof.
  unfold isChapterHeading. cbv zeta.
  destruct (isEmpty (trim line)); [reflexivity|].
  destruct (exec re_mdHeading (trim line)); [discriminate|].
  destruct (firstMatch CHAPTER_PATTERNS (trim line)); [discriminate|].
  destruct ((length (trim line) <=? 50) && (2 <=? length (trim line)));
    [|reflexivity].
  now destruct (JsString.eqb (trim line) (toUpperCase (trim line))
                && test re_capitalOrHangul (trim line)
                && negb (test re_endPunct (trim line))
                && test re_letter (trim line)).
Qed.

Lemma isChapterHeading_level line :
  HeadingMatch.isHeading (isChapterHeading line) = true ->
  1 <= HeadingMatch.level (isChapterHeading line) <= 6.
Proof.
  unfold isChapterHeading. cbv zeta.
  destruct (isEmpty (trim line)); [discriminate|].
  destruct (exec re_mdHeading (trim line)) as [m|] eqn:Em.
  - intros _. cbn [HeadingMatch.level].
    apply exec_mdHeading_inv in Em as (Hs & H1 & _).
    rewrite H1, length_firstn_run. now apply startsHeading_level.
  - destruct (firstMatch CHAPTER_PATTERNS (trim line)).
    + intros _. cbn [HeadingMatch.level]. apply level_by_keyword.
    + destruct ((length (trim line) <=? 50) && (2 <=? length (trim line)));
        [|discriminate].
      destruct (JsString.eqb (trim line) (toUpperCase (trim line))
                && test re_capitalOrHangul (trim line)
                && negb (test re_endPunct (trim line))
                && test re_letter (trim line)); [|discriminate].
      intros _. cbn [HeadingMatch.level]. lia.
Qed.

(** X6. The classification of a line does not depend on the white space
    around it; a line that is not a heading gets the empty title and
    level 0, and a heading gets a level from 1 to 6. *)
Theorem isChapterHeading_shape (pre line post : jsstring) :
  (forallb isSpace pre = true -> forallb isSpace post = true ->
   isChapterHeading (pre ++ line ++ post) = isChapterHeading line)
  /\ (HeadingMatch.isHeading (isChapterHeading line) = false ->
      isChapterHeading line = notHeading)
  /\ (HeadingMatch.isHeading (isChapterHeading line) = true ->
      1 <= HeadingMatch.level (isChapterHeading line) <= 6).
Proof.
  split; [|split].
  - intros H1 H2. unfold isChapterHeading. cbv zeta. now rewrite trim_spaces.
  - apply isChapterHeading_not_heading.
  - apply isChapterHeading_level.
Qed.

End HeadingClassifierMore.

(** X5 at the line [  ## Title here ]. *)
Lemma isChapterHeading_markdown_witness :
  isChapterHeading (host := latinHost) (lit "  ## Title here ")
  = HeadingMatch.mk true (lit "Title here") 2.
Proof.
  apply (isChapterHeading_markdown (host := latinHost) _ 2 [SP] (lit "Title here"));
    try reflexivity; try discriminate. lia.
Defined.

(** X6 at the line [Chapter 1: Start] with a tab before and a space
    after. *)
Lemma isChapterHeading_shape_witness :
  isChapterHeading (host := latinHost) ([9%N] ++ lit "Chapter 1: Start" ++ [SP])
  = isChapterHeading (host := latinHost) (lit "Chapter 1: Start")
  /\ 1 <= HeadingMatch.level (isChapterHeading (host := latinHost) (lit "Chapter 1: Start"))
       <= 6.
Proof.
  destruct (isChapterHeading_shape (host := latinHost) [9%N] (lit "Chapter 1: Start") [SP])
    as (H1 & _ & H3).
  split; [apply H1; reflexivity|apply H3; reflexivity].
Defined.
(* ================================================================== *)
(** * Properties of [findImageInsertionPoints] *)

Lemma skipn_cons_nth {A} (l : list A) i x rest d :
  skipn i l = x :: rest ->
  nth i l d = x /\ skipn (S i) l = rest /\ i < length l
  /\ firstn (S i) l = firstn i l ++ [x].
Proof.
  revert l. induction i as [|i IH]; intros l H.
  - cbn [skipn] in H. subst l. repeat split. cbn. lia.
  - destruct l as [|y l]; [discriminate|]. cbn [skipn] in H.
    destruct (IH l H) as (H1 & H2 & H3 & H4).
    repeat split; auto.
    + cbn [length]. lia.
    + cbn [firstn app] in *. now rewrite H4.
Qed.

Lemma StronglySorted_snoc {A} (R : A -> A -> Prop) l x :
  StronglySorted R l -> Forall (fun y => R y x) l -> StronglySorted R (l ++ [x]).
Proof.
  induction 1 as [|y l Hl IH Hy]; intros H; cbn [app].
  - repeat constructor.
  - apply Forall_cons_iff in H as [Hyx H]. constructor; [now apply IH|].
    apply Forall_app. split; [exact Hy|]. now constructor.
Qed.

(** What the loop keeps, after the lines before [i]. *)
Definition pointsInv (lines : list jsstring) (i : nat) (st : pointsState) : Prop :=
  Forall (fun p => 1 <= p < i /\ p < length lines
                   /\ isBlankLine (nth p lines []) = true
                   /\ isBlankLine (nth (p - 1) lines []) = false
                   /\ test re_mdHeadingStart (nth p lines []) = false)
         (points st)
  /\ StronglySorted lt (points st)
  /\ 3 * length (points st) + paragraphCount st mod 3
     <= length (filter isBlankLine (firstn i lines)).

Lemma pointsStep_inv lines i st line rest :
  skipn i lines = line :: rest ->
  pointsInv lines i st -> pointsInv lines (S i) (pointsStep lines st i line).
Proof.
  intros Hs (H1 & H2 & H3).
  destruct (skipn_cons_nth lines i line rest [] Hs) as (Hn & _ & Hi & Hf).
  assert (Hold : Forall (fun p => 1 <= p < S i /\ p < length lines
                   /\ isBlankLine (nth p lines []) = true
                   /\ isBlankLine (nth (p - 1) lines []) = false
                   /\ test re_mdHeadingStart (nth p lines []) = false) (points st)).
  { eapply Forall_impl; [|exact H1]. intros p (Hp & Hrest). split; [lia|exact Hrest]. }
  assert (Hcount : length (filter isBlankLine (firstn i lines))
                   <= length (filter isBlankLine (firstn (S i) lines))).
  { rewrite Hf, filter_app, length_app. lia. }
  unfold pointsStep.
  destruct (test re_mdHeadingStart line) eqn:Eh.
  - repeat split; cbn [points paragraphCount]; auto.
    change (0 mod 3) with 0. lia.
  - destruct (isEmpty (trim line) && (0 <? i)
              && negb (isEmpty (trim (nth (i - 1) lines [])))) eqn:Ep.
    + apply andb_prop in Ep as [Ep Eprev]. apply andb_prop in Ep as [Eb Ei].
      apply Nat.ltb_lt in Ei. apply negb_true_iff in Eprev.
      assert (Hblank : length (filter isBlankLine (firstn (S i) lines))
                       = S (length (filter isBlankLine (firstn i lines)))).
      { rewrite Hf, filter_app, length_app. cbn [filter]. unfold isBlankLine at 2.
        rewrite Eb. cbn [length]. lia. }
      pose proof (Nat.mod_upper_bound (paragraphCount st) 3 ltac:(lia)) as Hm.
      pose proof (Nat.div_mod_eq (paragraphCount st) 3) as Hd.
      pose proof (Nat.mod_upper_bound (S (paragraphCount st)) 3 ltac:(lia)) as Hm'.
      pose proof (Nat.div_mod_eq (S (paragraphCount st)) 3) as Hd'.
      destruct ((3 <=? S (paragraphCount st)) && (S (paragraphCount st) mod 3 =? 0))
        eqn:E3.
      * apply andb_prop in E3 as [_ E3]. apply Nat.eqb_eq in E3.
        repeat split; cbn [points paragraphCount].
        -- apply Forall_app. split; [exact Hold|]. constructor; [|constructor].
           unfold isBlankLine. rewrite Hn. repeat split; auto; lia.
        -- apply StronglySorted_snoc; [exact H2|].
           eapply Forall_impl; [|exact H1]. intros p (Hp & _). lia.
        -- rewrite length_app, Hblank, E3. cbn [length]. lia.
      * repeat split; cbn [points paragraphCount]; auto.
        rewrite Hblank.
        assert (S (paragraphCount st) mod 3 <> 0 -> 
                S (paragraphCount st) mod 3 = S (paragraphCount st mod 3)) by lia.
        apply andb_false_iff in E3 as [E3|E3].
        -- apply Nat.leb_gt in E3.
           assert (paragraphCount st mod 3 = paragraphCount st)
             by (apply Nat.mod_small; lia).
           assert (S (paragraphCount st) mod 3 = S (paragraphCount st))
             by (apply Nat.mod_small; lia).
           lia.
        -- apply Nat.eqb_neq in E3. lia.
    + repeat split; auto. lia.
Qed.

Lemma pointsLoop_inv lines : forall rest i st,
  skipn i lines = rest -> pointsInv lines i st ->
  pointsInv lines (length lines) (pointsLoop lines rest i st).
Proof.
  induction rest as [|line rest IH]; intros i st Hs Hinv; cbn [pointsLoop].
  - assert (length lines <= i).
    { destruct (le_lt_dec (length lines) i) as [H|H]; [exact H|].
      apply (f_equal (@length _)) in Hs. rewrite length_skipn in Hs. simpl in Hs. lia. }
    destruct Hinv as (H1 & H2 & H3). repeat split; auto.
    + eapply Forall_impl; [|exact H1]. intros p ((Hp1 & Hp2) & Hlt & Hrest).
      split; [lia|]. split; [exact Hlt|exact Hrest].
    + now rewrite firstn_all2 in * by lia.
  - destruct (skipn_cons_nth lines i line rest [] Hs) as (_ & Hs' & _ & _).
    apply (IH (S i)); [exact Hs'|]. now apply (pointsStep_inv lines i st line rest).
Qed.

(** X7. The places that [findImageInsertionPoints] proposes are line
    indices in increasing order; each is a blank line that follows a line
    that is not blank, and no heading line; and there is at most one
    place for every three blank lines of the text. *)
Theorem findImageInsertionPoints_places (markdown : jsstring) :
  let lines := split LF markdown in
  let places := findImageInsertionPoints markdown in
  StronglySorted lt places
  /\ Forall (fun p => 1 <= p < length lines
                      /\ isBlankLine (nth p lines []) = true
                      /\ isBlankLine (nth (p - 1) lines []) = false
                      /\ test re_mdHeadingStart (nth p lines []) = false) places
  /\ 3 * length places <= length (filter isBlankLine lines).
Proof.
  cbv zeta. unfold findImageInsertionPoints. cbv zeta.
  set (lines := split LF markdown).
  assert (H0 : pointsInv lines 0 (mkPoints [] 0 0)).
  { repeat split; cbn; constructor. }
  destruct (pointsLoop_inv lines lines 0 _ eq_refl H0) as (H1 & H2 & H3).
  split; [exact H2|]. split.
  - eapply Forall_impl; [|exact H1]. intros p (Hp & _ & Hrest). now split.
  - rewrite firstn_all in H3. lia.
Qed.

(* ================================================================== *)
(** * Properties of [insertImagesIntoMarkdown] *)

Section StableSort.
Context {A : Type} (key : A -> Z).

(** The sort is stable: among the elements of one key the order stays. *)
Lemma insertByKey_filter k x l :
  filter (fun y => (key y =? k)%Z) (insertByKey key x l)
  = filter (fun y => (key y =? k)%Z) (x :: l).
Proof.
  induction l as [|y l IH]; [reflexivity|]. cbn [insertByKey].
  destruct (key x <=? key y)%Z eqn:E; [reflexivity|].
  apply Z.leb_gt in E. cbn [filter] in *. rewrite IH.
  destruct (key x =? k)%Z eqn:Ex; [|reflexivity].
  apply Z.eqb_eq in Ex.
  assert ((key y =? k)%Z = false) as -> by (apply Z.eqb_neq; lia).
  reflexivity.
Qed.

Lemma sortByKey_filter k l :
  filter (fun y => (key y =? k)%Z) (sortByKey key l)
  = filter (fun y => (key y =? k)%Z) l.
Proof.
  induction l as [|x l IH]; [reflexivity|]. cbn [sortByKey].
  rewrite insertByKey_filter. cbn [filter]. now rewrite IH.
Qed.

End StableSort.

Lemma imagesAt_none i images :
  Forall (fun image => ImageToInsert.lineNumber image <> Z.of_nat i) images -> imagesAt i images = [].
Proof.
  unfold imagesAt. induction 1 as [|x l Hx _ IH]; [reflexivity|].
  cbn [filter]. apply Z.eqb_neq in Hx. rewrite Hx. exact IH.
Qed.

Lemma imagesAt_cons i image images :
  imagesAt i (image :: images)
  = imagesAt i images
    ++ (if (ImageToInsert.lineNumber image =? Z.of_nat i)%Z then [imageMarkdown image] else []).
Proof.
  unfold imagesAt. cbn [filter]. destruct (ImageToInsert.lineNumber image =? Z.of_nat i)%Z.
  - cbn [rev]. now rewrite map_app.
  - now rewrite app_nil_r.
Qed.

(** No image at or after index [i]: the lines stay. *)
Lemma weave_none lines : forall i images,
  Forall (fun image => (ImageToInsert.lineNumber image < Z.of_nat i)%Z) images ->
  weave i lines images = lines.
Proof.
  induction lines as [|l lines IH]; intros i images H; cbn [weave].
  - apply imagesAt_none. eapply Forall_impl; [|exact H]. cbv beta; intros; lia.
  - rewrite imagesAt_none by (eapply Forall_impl; [|exact H]; cbv beta; intros; lia).
    cbn [app]. f_equal. apply IH. eapply Forall_impl; [|exact H]. cbv beta; intros; lia.
Qed.

(** One more image, of the greatest [lineNumber] so far, spliced in
    first. *)
Lemma weave_splice lines : forall i d image images,
  ImageToInsert.lineNumber image = Z.of_nat (i + d) -> d <= length lines ->
  Forall (fun im => (ImageToInsert.lineNumber im <= ImageToInsert.lineNumber image)%Z) images ->
  weave i (firstn d lines ++ imageMarkdown image :: skipn d lines) images
  = weave i lines (image :: images).
Proof.
  induction lines as [|l lines IH]; intros i d image images Hn Hd Hall.
  - assert (d = 0) as -> by (simpl in Hd; lia). cbn [firstn skipn app weave].
    rewrite Nat.add_0_r in Hn. rewrite imagesAt_cons, Hn, Z.eqb_refl.
    f_equal. f_equal. apply imagesAt_none.
    eapply Forall_impl; [|exact Hall]. cbv beta; intros; lia.
  - destruct d as [|d].
    + cbn [firstn skipn app weave]. rewrite Nat.add_0_r in Hn.
      rewrite imagesAt_cons, Hn, Z.eqb_refl, <- app_assoc. cbn [app].
      f_equal. f_equal.
      assert (Hlater : Forall (fun im => (ImageToInsert.lineNumber im < Z.of_nat (S i))%Z) images)
        by (eapply Forall_impl; [|exact Hall]; cbv beta; intros; lia).
      rewrite imagesAt_none by (eapply Forall_impl; [|exact Hlater]; cbv beta; intros; lia).
      cbn [app]. f_equal.
      rewrite weave_none by (eapply Forall_impl; [|exact Hlater]; cbv beta; intros; lia).
      symmetry. apply weave_none. constructor; [lia|].
      eapply Forall_impl; [|exact Hlater]. cbv beta; intros; lia.
    + cbn [firstn skipn app weave]. rewrite imagesAt_cons.
      assert ((ImageToInsert.lineNumber image =? Z.of_nat i)%Z = false) as -> by (apply Z.eqb_neq; lia).
      rewrite app_nil_r. f_equal. f_equal.
      apply IH; [rewrite Hn; f_equal; lia|cbn [length] in Hd; lia|exact Hall].
Qed.

Lemma weave_length lines : forall i images,
  length lines <= length (weave i lines images).
Proof.
  induction lines as [|l lines IH]; intros i images; cbn [weave length]; [lia|].
  rewrite length_app. cbn [length]. specialize (IH (S i) images). lia.
Qed.

Lemma insert_sorted images : forall lines,
  StronglySorted (fun a b => (ImageToInsert.lineNumber b <= ImageToInsert.lineNumber a)%Z) images ->
  Forall (fun im => (0 <= ImageToInsert.lineNumber im <= Z.of_nat (length lines))%Z) images ->
  fold_left (fun ls im => spliceIn (ImageToInsert.lineNumber im) (imageMarkdown im) ls) images lines
  = weave 0 lines images.
Proof.
  induction images as [|image images IH]; intros lines Hs Hr; cbn [fold_left].
  - symmetry. apply weave_none. constructor.
  - apply StronglySorted_inv in Hs as [Hs Hall].
    apply Forall_cons_iff in Hr as [Hi Hr].
    assert (Hsplice : spliceIn (ImageToInsert.lineNumber image) (imageMarkdown image) lines
                      = firstn (Z.to_nat (ImageToInsert.lineNumber image)) lines
                        ++ imageMarkdown image :: skipn (Z.to_nat (ImageToInsert.lineNumber image)) lines).
    { unfold spliceIn. cbv zeta.
      assert ((ImageToInsert.lineNumber image <? 0)%Z = false) as -> by (apply Z.ltb_ge; lia).
      now rewrite Z.min_l by lia. }
    rewrite Hsplice, IH; [|exact Hs|].
    + apply weave_splice; [cbn [Nat.add]; lia|lia|exact Hall].
    + eapply Forall_impl; [|exact Hr]. intros im Him. cbv beta in Him |- *.
      rewrite length_app. cbn [length]. rewrite length_firstn, length_skipn. lia.
Qed.

Lemma imagesAt_sorted i images :
  imagesAt i (sortByKey (fun image => (- ImageToInsert.lineNumber image)%Z) images)
  = imagesAt i images.
Proof.
  unfold imagesAt. f_equal. f_equal.
  assert (Hext : forall l,
            filter (fun image => (ImageToInsert.lineNumber image =? Z.of_nat i)%Z) l
            = filter (fun image => (- ImageToInsert.lineNumber image =? - Z.of_nat i)%Z) l).
  { intros l. apply filter_ext. intros y.
    destruct (Z.eqb_spec (ImageToInsert.lineNumber y) (Z.of_nat i));
      destruct (Z.eqb_spec (- ImageToInsert.lineNumber y) (- Z.of_nat i)); auto; lia. }
  rewrite !Hext.
  apply (sortByKey_filter (fun image => (- ImageToInsert.lineNumber image)%Z)).
Qed.

Lemma weave_sorted lines : forall i images,
  weave i lines (sortByKey (fun image => (- ImageToInsert.lineNumber image)%Z) images)
  = weave i lines images.
Proof.
  induction lines as [|l lines IH]; intros i images; cbn [weave].
  - apply imagesAt_sorted.
  - now rewrite imagesAt_sorted, IH.
Qed.

(** X8. With every [lineNumber] between 0 and the number of lines,
    [insertImagesIntoMarkdown] puts each image right before the line
    whose index is its [lineNumber] (after the last line when it is the
    number of lines), keeps every line of the text in place and order,
    and puts images of one [lineNumber] in the reverse of their order in
    the array. *)
Theorem insertImagesIntoMarkdown_weaves
    (markdown : jsstring) (images : list ImageToInsert.t) :
  Forall (fun image =>
            (0 <= ImageToInsert.lineNumber image
               <= Z.of_nat (length (split LF markdown)))%Z) images ->
  insertImagesIntoMarkdown markdown images
  = join [LF] (weave 0 (split LF markdown) images).
Proof.
  intros Hr. unfold insertImagesIntoMarkdown. cbv zeta. f_equal.
  set (sorted := sortByKey (fun image => (- ImageToInsert.lineNumber image)%Z) images).
  assert (Hperm : Permutation sorted images) by apply sortByKey_perm.
  rewrite insert_sorted.
  - apply weave_sorted.
  - pose proof (sortByKey_sorted (fun image => (- ImageToInsert.lineNumber image)%Z)
                  images) as Hs.
    fold sorted in Hs. clear -Hs. induction Hs as [|a l Hl IH Ha]; constructor; auto.
    eapply Forall_impl; [|exact Ha]. unfold keyLe. cbv beta; intros; lia.
  - apply Forall_forall. intros im Him. rewrite Forall_forall in Hr. apply Hr.
    now apply (Permutation_in _ Hperm).
Qed.

(** X8 at a text of three lines and two images with [lineNumber] 1 and
    one with [lineNumber] 3. *)
Lemma insertImagesIntoMarkdown_weaves_witness :
  let markdown := lit "a" ++ [LF] ++ lit "b" ++ [LF] ++ lit "c" in
  let images := [ImageToInsert.mk 1 (lit "u1") (lit "x");
                 ImageToInsert.mk 3 (lit "u2") (lit "y");
                 ImageToInsert.mk 1 (lit "u3") (lit "z")] in
  insertImagesIntoMarkdown markdown images
  = join [LF] [lit "a";
               [LF] ++ lit "![z](u3)" ++ [LF]; [LF] ++ lit "![x](u1)" ++ [LF];
               lit "b"; lit "c"; [LF] ++ lit "![y](u2)" ++ [LF]].
Proof.
  intros markdown images.
  rewrite (insertImagesIntoMarkdown_weaves markdown images).
  - reflexivity.
  - repeat constructor; cbn; lia.
Defined.
(* ================================================================== *)
(** * Properties of the slugs *)

Lemma replaceAll_class_filter q s :
  replaceAll (Cls (fun c => negb (q c))) [] s = filter q s.
Proof.
  rewrite replaceAll_plainScan. apply (plainScan_spec _ _ (filter q)).
  - reflexivity.
  - reflexivity.
  - intros x t pos H. unfold matchAt in H. cbn [run] in H. cbn [filter].
    destruct (q x); [reflexivity|discriminate].
  - intros x t pos e c H. unfold matchAt in H. cbn [run] in H.
    destruct (q x) eqn:E; cbn [negb] in H; [discriminate|].
    injection H as <- <-. exists 0. split; [lia|]. cbn [filter skipn subst flat_map app].
    now rewrite E.
Qed.

Lemma squash_run p c x s :
  p x = true -> squash p c (x :: s) = c :: squash p c (afterRun p s).
Proof.
  revert x. induction s as [|y s IH]; intros x Hx.
  - cbn [squash]. now rewrite Hx.
  - rewrite afterRun_cons. destruct (p y) eqn:Ey.
    + rewrite <- (IH y Ey). cbn [squash headIs]. now rewrite Hx, Ey.
    + cbn [squash headIs]. now rewrite Hx, Ey.
Qed.

Lemma replaceAll_plus_squash p c s :
  replaceAll (plus p) [TLit c] s = squash p c s.
Proof.
  assert (Hm : forall t pos, matchAt (plus p) t pos
               = if 1 <=? runLength p t then Some (pos + runLength p t, []) else None).
  { intros t pos. unfold matchAt, plus. cbn [run]. now rewrite rep_unbounded. }
  rewrite replaceAll_plainScan. apply (plainScan_spec _ _ (squash p c)).
  - reflexivity.
  - intros pos. now rewrite Hm.
  - intros x t pos H. rewrite Hm in H. cbn [runLength squash] in *.
    destruct (p x); [discriminate|reflexivity].
  - intros x t pos e caps H. rewrite Hm in H. cbn [runLength] in H.
    destruct (p x) eqn:Ex; [|discriminate]. cbn [Nat.leb] in H.
    injection H as <- <-. exists (runLength p t). split; [lia|].
    now rewrite (squash_run p c x t Ex).
Qed.

Lemma squash_Forall (Q : codeunit -> Prop) p c s :
  Q c -> Forall (fun x => p x = false -> Q x) s -> Forall Q (squash p c s).
Proof.
  intros Hc. induction 1 as [|x s Hx _ IH]; [constructor|]. cbn [squash].
  destruct (p x) eqn:Ex.
  - destruct (headIs p s); [exact IH|now constructor].
  - constructor; [now apply Hx|exact IH].
Qed.

Lemma squash_head p c s : p c = true -> headIs p (squash p c s) = headIs p s.
Proof.
  intros Hc. induction s as [|x s IH]; [reflexivity|]. cbn [squash headIs].
  destruct (p x) eqn:Ex.
  - destruct (headIs p s) eqn:Es; [now rewrite IH|]. cbn [headIs]. exact Hc.
  - cbn [headIs]. exact Ex.
Qed.

Lemma squash_no_pair p c s : p c = true -> avoids2 p p (squash p c s).
Proof.
  intros Hc. induction s as [|x s IH]; [exact I|]. cbn [squash].
  destruct (p x) eqn:Ex.
  - destruct (headIs p s) eqn:Es; [exact IH|].
    split; [|exact IH]. rewrite squash_head by assumption. rewrite Es.
    apply andb_false_r.
  - split; [|exact IH]. now rewrite Ex.
Qed.

Lemma trim_no_space s : Forall (fun c => isSpace c = false) s -> trim s = s.
Proof.
  intros H. destruct s as [|c s]; [reflexivity|].
  destruct (exists_last (l := c :: s)) as (t & d & E); [discriminate|].
  assert (Hd : isSpace d = false).
  { rewrite E in H. apply Forall_app in H as [_ H]. now apply Forall_inv in H. }
  assert (Hc : isSpace c = false) by now apply Forall_inv in H.
  unfold trim. rewrite trimStart_fixed by assumption. rewrite E.
  now apply trimEnd_snoc.
Qed.

Lemma avoids2_skipn_firstn p q s : forall n, avoids2 p q s -> avoids2 p q (firstn n s).
Proof.
  induction s as [|x s IH]; intros n H; [now destruct n|].
  destruct n as [|n]; [exact I|]. destruct H as [H1 H2]. cbn [firstn].
  split; [|now apply IH].
  destruct (p x); [|reflexivity]. cbn [andb] in *.
  destruct s as [|y s]; [now destruct n|]. destruct n; [reflexivity|exact H1].
Qed.

Lemma digits_of_uint_anchor d : Forall (fun c => isAnchorUnit c = true) (digits_of_uint d).
Proof. induction d; cbn [digits_of_uint]; constructor; auto. Qed.

Section SlugProofs.
Context {host : Host}.

Lemma slug_chain text :
  let s := replaceAll re_hyphens [TLit HYPHEN]
             (replaceAll re_spaces [TLit HYPHEN]
                (replaceAll re_nonSlug [] (toLowerCase text))) in
  Forall (fun c => isAnchorUnit c = true) s
  /\ avoids2 (N.eqb HYPHEN) (N.eqb HYPHEN) s.
Proof.
  cbv zeta. unfold re_hyphens, re_spaces, re_nonSlug.
  rewrite replaceAll_class_filter, !replaceAll_plus_squash. split.
  - apply squash_Forall; [reflexivity|].
    apply Forall_forall. intros x Hx _. revert x Hx. apply Forall_forall.
    apply squash_Forall; [reflexivity|].
    apply Forall_forall. intros x Hx Hsp. apply filter_In in Hx as [_ Hx].
    unfold isSlugUnit in Hx. unfold isAnchorUnit. rewrite Hsp in Hx.
    now rewrite orb_false_r in Hx.
  - now apply squash_no_pair.
Qed.

Lemma anchor_not_space c : isAnchorUnit c = true -> isSpace c = false.
Proof.
  unfold isAnchorUnit, isSpace, isLowerLatin, isDigit, isHangul, between, HYPHEN.
  intros H. apply not_true_is_false. intros H'. revert H H'.
  rewrite ?orb_true_iff, ?andb_true_iff, ?N.eqb_eq, ?N.leb_le. lia.
Qed.

(** X9. A slug holds units of [a-z0-9가-힣-] only and no two hyphens in a
    row; the [trim] that ends the chain never removes anything;
    [generateSlug] and the slug of [generateHeadingId] are the same
    function; and an id of [generateHeadingId] holds units of
    [a-z0-9가-힣-] only. *)
Theorem generateSlug_alphabet (title : jsstring) (index : nat) :
  Forall (fun c => isAnchorUnit c = true) (generateSlug title)
  /\ avoids2 (N.eqb HYPHEN) (N.eqb HYPHEN) (generateSlug title)
  /\ generateSlug title
     = replaceAll re_hyphens [TLit HYPHEN]
         (replaceAll re_spaces [TLit HYPHEN]
            (replaceAll re_nonSlug [] (toLowerCase title)))
  /\ generateSlug title = slugOf title
  /\ Forall (fun c => isAnchorUnit c = true) (generateHeadingId title index).
Proof.
  destruct (slug_chain title) as [H1 H2]. cbv zeta in H1, H2.
  assert (Ht : generateSlug title
               = replaceAll re_hyphens [TLit HYPHEN]
                   (replaceAll re_spaces [TLit HYPHEN]
                      (replaceAll re_nonSlug [] (toLowerCase title)))).
  { unfold generateSlug. apply trim_no_space.
    eapply Forall_impl; [|exact H1]. apply anchor_not_space. }
  rewrite Ht. split; [exact H1|]. split; [exact H2|]. split; [reflexivity|].
  split.
  - symmetry. exact Ht.
  - unfold generateHeadingId. cbv zeta. apply Forall_app. split.
    + repeat constructor.
    + change (slugOf title) with (generateSlug title).
      rewrite Ht. destruct (isEmpty _); [apply digits_of_uint_anchor|exact H1].
Qed.

End SlugProofs.
(* ================================================================== *)
(** * Properties of [splitByChapters] *)

Lemma inked_trim s : inked (trim s) = inked s.
Proof. apply filter_trim. Qed.

Lemma inked_app a b : inked (a ++ b) = inked a ++ inked b.
Proof. apply filter_app. Qed.

Lemma inked_join ls : inked (join [LF] ls) = flat_map inked ls.
Proof.
  induction ls as [|l ls IH]; [reflexivity|].
  destruct ls as [|l' ls].
  - cbn. now rewrite app_nil_r.
  - change (join [LF] (l :: l' :: ls)) with (l ++ [LF] ++ join [LF] (l' :: ls)).
    rewrite !inked_app, IH. reflexivity.
Qed.

Lemma inked_blank s : forallb isSpace s = true -> inked s = [].
Proof.
  induction s as [|c s IH]; [reflexivity|]. cbn [forallb inked filter].
  intros H. apply andb_prop in H as [Hc Hs]. rewrite Hc. now apply IH.
Qed.

Lemma hasContent_false ls : hasContent ls = false -> flat_map inked ls = [].
Proof.
  unfold hasContent. induction ls as [|l ls IH]; [reflexivity|]. cbn [existsb flat_map].
  intros H. apply orb_false_elim in H as [Hl Hls]. rewrite (IH Hls), app_nil_r.
  apply inked_blank. apply trim_nil. apply Nat.ltb_ge in Hl.
  destruct (trim l); [reflexivity|simpl in Hl; lia].
Qed.

Lemma hasContent_blank ls :
  hasContent ls = negb (forallb isSpace (join [LF] ls)).
Proof.
  unfold hasContent. induction ls as [|l ls IH]; [reflexivity|].
  cbn [existsb]. rewrite IH.
  assert (Hl : (0 <? length (trim l)) = negb (forallb isSpace l)).
  { rewrite <- isEmpty_trim. now destruct (trim l). }
  rewrite Hl. destruct ls as [|l' ls].
  - cbn. now rewrite orb_false_r.
  - change (join [LF] (l :: l' :: ls)) with (l ++ [LF] ++ join [LF] (l' :: ls)).
    rewrite !forallb_app. cbn [forallb]. change (isSpace LF) with true.
    cbn [andb]. now rewrite negb_andb.
Qed.

Section ByChaptersProofs.
Context {host : Host}.

Lemma chapterStarts_snoc pre line : forall i,
  chapterStarts (pre ++ [line]) i
  = chapterStarts pre i ++ (if startsChapter line then [i + length pre] else []).
Proof.
  induction pre as [|l pre IH]; intros i; cbn [app chapterStarts length].
  - rewrite Nat.add_0_r. now destruct (startsChapter line).
  - rewrite IH. replace (S i + length pre) with (i + S (length pre)) by lia.
    now destruct (startsChapter l).
Qed.

Lemma chapterStarts_bound pre : forall i,
  Forall (fun k => i <= k < i + length pre) (chapterStarts pre i).
Proof.
  induction pre as [|l pre IH]; intros i; cbn [chapterStarts length]; [constructor|].
  assert (H : Forall (fun k => i <= k < i + S (length pre)) (chapterStarts pre (S i))).
  { eapply Forall_impl; [|apply IH]. cbv beta. intros; lia. }
  destruct (startsChapter l); [constructor; [lia|exact H]|exact H].
Qed.

Lemma chapterStarts_none pre : forall i,
  chapterStarts pre i = [] -> filter (fun l => negb (startsChapter l)) pre = pre.
Proof.
  induction pre as [|l pre IH]; intros i H; [reflexivity|].
  cbn [chapterStarts filter] in *. destruct (startsChapter l); [discriminate|].
  cbn [negb]. f_equal. now apply (IH (S i)).
Qed.

Definition introOpen (title : jsstring) (pre : list jsstring) : list openSection :=
  if hasContent pre then [mkSection title pre 1 0] else [].

Definition textOf (secs : list openSection) : jsstring :=
  flat_map (fun c => flat_map inked (sectionLines c)) secs.

Lemma textOf_app a b : textOf (a ++ b) = textOf a ++ textOf b.
Proof. apply flat_map_app. Qed.

Lemma textOf_introOpen title pre : textOf (introOpen title pre) = flat_map inked pre.
Proof.
  unfold introOpen. destruct (hasContent pre) eqn:E.
  - cbn. apply app_nil_r.
  - symmetry. now apply hasContent_false.
Qed.

Lemma pushIntro_open title st :
  sections st = [] -> pushIntro title st = introOpen title (introContent st).
Proof.
  intros H. unfold pushIntro, introOpen. rewrite H.
  destruct (introContent st) as [|l ls]; [reflexivity|]. cbn [length Nat.ltb Nat.leb].
  reflexivity.
Qed.

Definition sectionInv (pre : list jsstring) (st : sectionState) : Prop :=
  match currentSection st with
  | None =>
      sections st = [] /\ introContent st = pre /\ chapterStarts pre 0 = []
  | Some c =>
      exists first tl rest,
        chapterStarts pre 0 = first :: tl
        /\ sections st ++ [c] = introOpen PREFACE (firstn first pre) ++ rest
        /\ map sectionStart rest = first :: tl
        /\ Forall (fun c => headed pre (sectionStart c) (sectionLevel c) (sectionTitle c))
                  rest
        /\ textOf (sections st ++ [c])
           = flat_map inked (filter (fun l => negb (startsChapter l)) pre)
  end.

Lemma headed_app pre line start level title :
  headed pre start level title -> headed (pre ++ [line]) start level title.
Proof.
  intros (l & Hn & H). exists l. split; [|exact H].
  rewrite nth_error_app1; [exact Hn|]. apply nth_error_Some. congruence.
Qed.

Lemma headed_new pre line :
  startsChapter line = true ->
  headed (pre ++ [line]) (length pre)
    (HeadingMatch.level (isChapterHeading line))
    (replaceFirst re_leadingHashes [] (HeadingMatch.title (isChapterHeading line))).
Proof.
  intros H. exists line. unfold startsChapter in H. cbv zeta in H.
  apply andb_prop in H as [Hh Hl]. apply Nat.leb_le in Hl.
  pose proof (isChapterHeading_level line Hh) as Hb.
  repeat split; try lia.
  rewrite nth_error_app2, Nat.sub_diag by lia. reflexivity.
Qed.

Lemma sectionStep_inv pre st line :
  sectionInv pre st ->
  sectionInv (pre ++ [line]) (sectionStep st (length pre) line).
Proof.
  unfold sectionInv, sectionStep. cbv zeta. rewrite isChapterHeading_trim.
  fold (startsChapter line). rewrite (chapterStarts_snoc pre line 0). cbn [Nat.add].
  rewrite filter_app. cbn [filter].
  destruct (currentSection st) as [c|] eqn:Ec.
  - intros (first & tl & rest & Hs & Hsec & Hmap & Hhead & Htext).
    assert (Hfirst : first < length pre).
    { pose proof (chapterStarts_bound pre 0) as Hb. rewrite Hs in Hb.
      apply Forall_inv in Hb. lia. }
    assert (Hfn : firstn first (pre ++ [line]) = firstn first pre).
    { rewrite firstn_app. replace (first - length pre) with 0 by lia.
      cbn [firstn]. apply app_nil_r. }
    destruct (startsChapter line) eqn:Es; cbn [currentSection sections negb].
    + exists first, (tl ++ [length pre]),
        (rest ++ [mkSection
                    (replaceFirst re_leadingHashes []
                       (HeadingMatch.title (isChapterHeading line)))
                    [] (HeadingMatch.level (isChapterHeading line)) (length pre)]).
      rewrite Hs, Hfn. repeat split.
      * now rewrite Hsec, app_assoc.
      * rewrite map_app, Hmap. reflexivity.
      * apply Forall_app. split.
        -- eapply Forall_impl; [|exact Hhead]. intros a. apply headed_app.
        -- constructor; [|constructor]. cbn [sectionStart sectionLevel sectionTitle].
           now apply headed_new.
      * rewrite textOf_app, Htext. cbn. now rewrite !app_nil_r.
    + assert (Hrest : exists rest0, rest = rest0 ++ [c]
                       /\ sections st = introOpen PREFACE (firstn first pre) ++ rest0).
      { destruct (exists_last (l := rest)) as (rest0 & c0 & E);
          [intros E; rewrite E in Hmap; discriminate|].
        rewrite E, app_assoc in Hsec. apply app_inj_tail in Hsec as [H1 H2].
        exists rest0. subst c0. now split. }
      destruct Hrest as (rest0 & -> & Hsecs).
      exists first, tl,
        (rest0 ++ [mkSection (sectionTitle c) (sectionLines c ++ [line])
                     (sectionLevel c) (sectionStart c)]).
      rewrite Hs, Hfn, app_nil_r. repeat split.
      * now rewrite Hsecs, app_assoc.
      * rewrite map_app in *. exact Hmap.
      * apply Forall_app in Hhead as [H1 H2]. apply Forall_inv in H2.
        apply Forall_app. split.
        -- eapply Forall_impl; [|exact H1]. intros a. apply headed_app.
        -- constructor; [|constructor]. cbn [sectionStart sectionLevel sectionTitle].
           now apply headed_app.
      * rewrite textOf_app in *. cbn [textOf flat_map sectionLines] in *.
        rewrite !app_nil_r in *. rewrite flat_map_app, flat_map_app. cbn [flat_map].
        rewrite !app_nil_r. rewrite <- Htext. now rewrite app_assoc.
  - intros (Hsec & Hintro & Hs).
    destruct (startsChapter line) eqn:Es; cbn [currentSection sections negb].
    + exists (length pre), [],
        [mkSection
           (replaceFirst re_leadingHashes []
              (HeadingMatch.title (isChapterHeading line)))
           [] (HeadingMatch.level (isChapterHeading line)) (length pre)].
      rewrite Hs, (pushIntro_open PREFACE st Hsec), Hintro.
      rewrite firstn_app, Nat.sub_diag, firstn_all. cbn [firstn]. rewrite !app_nil_r.
      repeat split.
      * constructor; [|constructor]. cbn [sectionStart sectionLevel sectionTitle].
        now apply headed_new.
      * rewrite textOf_app, textOf_introOpen. cbn. rewrite !app_nil_r.
        now rewrite (chapterStarts_none pre 0 Hs).
    + cbn [introContent]. rewrite Hs, Hintro. now repeat split.
Qed.

Lemma sectionLoop_inv lines : forall pre st,
  sectionInv pre st ->
  sectionInv (pre ++ lines) (sectionLoop lines (length pre) st).
Proof.
  induction lines as [|line lines IH]; intros pre st H; cbn [sectionLoop].
  - now rewrite app_nil_r.
  - replace (pre ++ line :: lines) with ((pre ++ [line]) ++ lines)
      by now rewrite <- app_assoc.
    replace (S (length pre)) with (length (pre ++ [line]))
      by (rewrite length_app; simpl; lia).
    apply IH. now apply sectionStep_inv.
Qed.

Lemma map_closeSection_introOpen title pre :
  map closeSection (introOpen title pre) = introChapter title pre.
Proof. unfold introOpen, introChapter. now destruct (hasContent pre). Qed.

Lemma inked_closeSection secs :
  flat_map (fun ch => inked (SectionChapter.content ch)) (map closeSection secs)
  = textOf secs.
Proof.
  induction secs as [|c secs IH]; [reflexivity|].
  cbn [map flat_map textOf closeSection SectionChapter.content].
  rewrite inked_trim, inked_join. f_equal. exact IH.
Qed.

Lemma splitByChapters_inv content :
  sectionInv (split LF content)
    (sectionLoop (split LF content) 0 (mkSectionState [] None [])).
Proof.
  apply (sectionLoop_inv (split LF content) [] (mkSectionState [] None [])).
  cbn. auto.
Qed.

(** X10. [splitByChapters] makes one chapter for every line that is a
    heading of level 1 or 2, in the order of the text: the chapter
    records the index of that line, its level and its title without
    leading hashes.  Before them comes a chapter [서문] from line 0 when a
    line before the first heading is not blank.  A text with no such
    heading gives one chapter [본문] with the whole text, trimmed, or no
    chapter when the text is blank. *)
Theorem splitByChapters_structure (content : jsstring) :
  let lines := split LF content in
  let chapters := splitByChapters content in
  (chapterStarts lines 0 = [] ->
   chapters = if forallb isSpace content then []
              else [SectionChapter.mk MAIN_TEXT (trim content) 1 0])
  /\ (forall first tl,
        chapterStarts lines 0 = first :: tl ->
        exists rest,
          chapters = introChapter PREFACE (firstn first lines) ++ rest
          /\ map SectionChapter.startLine rest = first :: tl
          /\ Forall (fun ch => headed lines (SectionChapter.startLine ch)
                                 (SectionChapter.level ch) (SectionChapter.title ch))
                    rest).
Proof.
  cbv zeta. pose proof (splitByChapters_inv content) as Hinv.
  unfold splitByChapters. cbv zeta. unfold sectionInv in Hinv.
  destruct (currentSection (sectionLoop (split LF content) 0
                              (mkSectionState [] None []))) as [c|] eqn:Ec.
  - destruct Hinv as (first & tl & rest & Hs & Hsec & Hmap & Hhead & _).
    split; [intros E; congruence|].
    intros first' tl' E. rewrite Hs in E. injection E as <- <-.
    exists (map closeSection rest). rewrite Hsec, map_app, map_closeSection_introOpen.
    repeat split.
    + rewrite map_map. exact Hmap.
    + apply Forall_map. exact Hhead.
  - destruct Hinv as (Hsec & Hintro & Hs). split; [|intros first tl E; congruence].
    intros _. rewrite (pushIntro_open MAIN_TEXT _ Hsec), Hintro.
    rewrite map_closeSection_introOpen. unfold introChapter.
    rewrite hasContent_blank, join_split.
    now destruct (forallb isSpace content).
Qed.

(** X11. The chapters of [splitByChapters] hold, in order, the units that
    are not white space of the lines that are not headings of level 1 or
    2: apart from white space, nothing of those lines is lost, added or
    moved. *)
Theorem splitByChapters_text (content : jsstring) :
  flat_map (fun ch => inked (SectionChapter.content ch)) (splitByChapters content)
  = flat_map inked
      (filter (fun l => negb (startsChapter l)) (split LF content)).
Proof.
  pose proof (splitByChapters_inv content) as Hinv.
  unfold splitByChapters. cbv zeta. unfold sectionInv in Hinv.
  rewrite inked_closeSection.
  destruct (currentSection (sectionLoop (split LF content) 0
                              (mkSectionState [] None []))) as [c|] eqn:Ec.
  - destruct Hinv as (first & tl & rest & _ & _ & _ & _ & Htext). exact Htext.
  - destruct Hinv as (Hsec & Hintro & Hs).
    rewrite (pushIntro_open MAIN_TEXT _ Hsec), Hintro, textOf_introOpen.
    now rewrite (chapterStarts_none _ 0 Hs).
Qed.

End ByChaptersProofs.

(** X10 at a text with a line before its first heading. *)
Lemma splitByChapters_structure_witness :
  let content := lit "Hi" ++ [LF] ++ lit "# One" ++ [LF] ++ lit "text" in
  exists rest,
    splitByChapters (host := latinHost) content
    = introChapter PREFACE [lit "Hi"] ++ rest
    /\ map SectionChapter.startLine rest = [1].
Proof.
  intros content.
  destruct (splitByChapters_structure (host := latinHost) content) as [_ H].
  destruct (H 1 []) as (rest & H1 & H2 & _); [vm_compute; reflexivity|].
  exists rest. split; [exact H1|exact H2].
Defined.
(* ================================================================== *)
(** * More on the chunker *)

(** The sizes that the loop adds: a line counts for its length and one. *)
Definition lineSizes (ls : list jsstring) : nat :=
  list_sum (map (fun l => length l + 1) ls).

Lemma lineSizes_split D : lineSizes (split LF D) = length D + 1.
Proof.
  unfold lineSizes.
  match goal with |- context [map ?g _] => remember g as f eqn:Ef end.
  induction D as [|c D IH]; [now subst f|]. cbn [split].
  destruct (c =? LF)%N.
  - change (list_sum (map f ([] :: split LF D)))
      with (f [] + list_sum (map f (split LF D))).
    rewrite IH. subst f. cbn [length]. lia.
  - destruct (split LF D) as [|l ls] eqn:E; [now apply split_not_nil in E|].
    change (list_sum (map f ((c :: l) :: ls)))
      with (f (c :: l) + list_sum (map f ls)).
    change (list_sum (map f (l :: ls))) with (f l + list_sum (map f ls)) in IH.
    subst f. cbn [length] in *. lia.
Qed.

(** While the sizes stay within [CHUNK_SIZE] the loop only appends. *)
Lemma chunkLoop_no_split ls : forall i pre len,
  len + lineSizes ls <= CHUNK_SIZE ->
  chunkLoop ls i (mkState [] pre len 0 0) = mkState [] (pre ++ ls) (len + lineSizes ls) 0 0.
Proof.
  induction ls as [|line ls IH]; intros i pre len H; cbn [chunkLoop].
  - unfold lineSizes. cbn. now rewrite app_nil_r, Nat.add_0_r.
  - assert (Hs : lineSizes (line :: ls) = (length line + 1) + lineSizes ls)
      by reflexivity.
    rewrite Hs in *. unfold chunkStep at 1. cbv zeta. cbn [currentLength currentChunk chunks
      chunkStartLine chunkIndex].
    assert ((CHUNK_SIZE <? len + (length line + 1)) = false) as ->
      by (apply Nat.ltb_ge; lia).
    cbn [andb]. rewrite IH by lia. f_equal.
    + now rewrite <- app_assoc.
    + lia.
Qed.

(** X12. A text of fewer than [CHUNK_SIZE] units is one chunk: its
    content is the text, it starts at line 0 and ends at the last line,
    and it is both the first and the last chunk. *)
Theorem splitIntoChunks_short (D : jsstring) :
  length D < CHUNK_SIZE ->
  splitIntoChunks D
  = [mkChunk 0 D 0 (Z.of_nat (length (split LF D)) - 1) true true].
Proof.
  intros H. unfold splitIntoChunks. cbv zeta. unfold initState.
  rewrite (chunkLoop_no_split (split LF D) 0 [] 0)
    by (rewrite lineSizes_split; lia).
  cbn [currentChunk chunks chunkIndex chunkStartLine app].
  destruct (split LF D) as [|l ls] eqn:E; [now apply split_not_nil in E|].
  rewrite <- E. assert ((0 <? length (split LF D)) = true) as ->
    by (rewrite E; reflexivity).
  cbn [length Nat.eqb markLast index content startLine endLine isFirst].
  now rewrite join_split.
Qed.

(** X12 at [twoChapters]. *)
Lemma splitIntoChunks_short_witness :
  splitIntoChunks twoChapters = [mkChunk 0 twoChapters 0 6 true true].
Proof.
  rewrite (splitIntoChunks_short twoChapters).
  - reflexivity.
  - rewrite CHUNK_SIZE_value. vm_compute. lia.
Defined.

(** At [CHUNK_SIZE] units the bound is tight: two lines of 4000 and 3999
    units make 8000 units, which [needsChunking] leaves alone, and
    [splitIntoChunks] cuts them in two chunks. *)
Example splitIntoChunks_at_chunk_size :
  let D := repeat 97%N 4000 ++ [LF] ++ repeat 98%N 3999 in
  length D = CHUNK_SIZE
  /\ needsChunking D = false
  /\ map (fun c => (index c, startLine c, endLine c, isFirst c, isLast c))
       (splitIntoChunks D)
     = [(0, 0%Z, 0%Z, true, false); (1, 1%Z, 1%Z, false, true)].
Proof. vm_compute. repeat split. Qed.

(** ** The numbering of the chunks *)

Definition numbered (cs : list ContentChunk) : Prop :=
  map index cs = seq 0 (length cs)
  /\ map isFirst cs = firstn (length cs) (true :: repeat false (length cs - 1))
  /\ Forall (fun c => isLast c = false) cs.

Lemma numbered_snoc cs c :
  numbered cs -> index c = length cs -> isFirst c = (length cs =? 0) ->
  isLast c = false -> numbered (cs ++ [c]).
Proof.
  intros (H1 & H2 & H3) Hi Hf Hl. unfold numbered.
  rewrite !map_app, length_app, H1, H2. cbn [map length]. repeat split.
  - rewrite seq_app. cbn [seq Nat.add]. now rewrite Hi.
  - rewrite Hf. destruct cs as [|c0 cs]; [reflexivity|].
    cbn [length Nat.eqb firstn Nat.sub Nat.add]. f_equal.
    rewrite Nat.sub_0_r.
    replace (length cs + 1) with (S (length cs)) by lia.
    replace (S (length cs) - 0) with (S (length cs)) by lia.
    rewrite firstn_all2 by (rewrite repeat_length; lia).
    rewrite firstn_all2 by (rewrite repeat_length; lia).
    change (repeat false (S (length cs))) with (false :: repeat false (length cs)).
    now rewrite repeat_cons.
  - apply Forall_app. split; [exact H3|]. now constructor.
Qed.

Lemma chunkStep_numbered st i line :
  numbered (chunks st) -> chunkIndex st = length (chunks st) ->
  numbered (chunks (chunkStep st i line))
  /\ chunkIndex (chunkStep st i line) = length (chunks (chunkStep st i line))
  /\ currentChunk (chunkStep st i line) <> [].
Proof.
  intros Hn Hi. unfold chunkStep. cbv zeta.
  destruct ((CHUNK_SIZE <? currentLength st + (length line + 1))
            && (0 <? length (currentChunk st))).
  - cbn [chunks chunkIndex currentChunk]. split; [|split].
    + apply numbered_snoc; auto.
    + rewrite length_app. cbn [length]. lia.
    + intros E. apply app_eq_nil in E as [_ E]. discriminate.
  - cbn [chunks chunkIndex currentChunk]. split; [exact Hn|]. split; [exact Hi|].
    intros E. apply app_eq_nil in E as [_ E]. discriminate.
Qed.

Lemma chunkLoop_numbered ls : forall i st,
  numbered (chunks st) -> chunkIndex st = length (chunks st) ->
  (ls = [] -> currentChunk st <> []) ->
  numbered (chunks (chunkLoop ls i st))
  /\ chunkIndex (chunkLoop ls i st) = length (chunks (chunkLoop ls i st))
  /\ currentChunk (chunkLoop ls i st) <> [].
Proof.
  induction ls as [|line ls IH]; intros i st Hn Hi Hc; cbn [chunkLoop].
  - split; [exact Hn|]. split; [exact Hi|]. now apply Hc.
  - destruct (chunkStep_numbered st i line Hn Hi) as (H1 & H2 & H3).
    apply IH; auto.
Qed.

Lemma markLast_snoc cs c :
  markLast (cs ++ [c])
  = cs ++ [mkChunk (index c) (content c) (startLine c) (endLine c) (isFirst c) true].
Proof.
  induction cs as [|c0 cs IH]; [reflexivity|].
  cbn [app]. destruct (cs ++ [c]) as [|c1 cs'] eqn:E.
  - apply app_eq_nil in E as [_ E]. discriminate.
  - change (markLast (c0 :: c1 :: cs')) with (c0 :: markLast (c1 :: cs')).
    now rewrite IH.
Qed.

(** X13. The chunks of a text are numbered from 0 in order; there is at
    least one; the first alone is marked [isFirst] and the last alone
    [isLast]. *)
Theorem splitIntoChunks_numbering (D : jsstring) :
  let cs := splitIntoChunks D in
  1 <= length cs
  /\ map index cs = seq 0 (length cs)
  /\ map isFirst cs = true :: repeat false (length cs - 1)
  /\ map isLast cs = repeat false (length cs - 1) ++ [true].
Proof.
  cbv zeta. unfold splitIntoChunks. cbv zeta.
  assert (H0 : numbered (chunks initState))
    by (split; [reflexivity|split; [reflexivity|constructor]]).
  destruct (chunkLoop_numbered (split LF D) 0 initState H0 eq_refl)
    as ((H1 & H2 & H3) & Hi & Hc); [intros E; now apply split_not_nil in E|].
  set (st := chunkLoop (split LF D) 0 initState) in *.
  destruct (currentChunk st) as [|l cur] eqn:Ecur; [congruence|].
  cbn [length Nat.ltb Nat.leb]. rewrite markLast_snoc.
  cbn [index content startLine endLine isFirst].
  rewrite !map_app, length_app. cbn [map length index isFirst isLast].
  replace (length (chunks st) + 1 - 1) with (length (chunks st)) by lia.
  repeat split.
  - lia.
  - rewrite seq_app, H1, Hi. reflexivity.
  - rewrite H2. destruct (chunks st) as [|c0 cs0]; [reflexivity|].
    cbn [length Nat.eqb firstn Nat.sub]. rewrite Nat.sub_0_r.
    cbn [app]. f_equal.
    rewrite firstn_all2 by (rewrite repeat_length; lia).
    change (repeat false (S (length cs0))) with (false :: repeat false (length cs0)).
    now rewrite repeat_cons.
  - f_equal. clear -H3. induction H3 as [|c cs Hc _ IH]; [reflexivity|].
    cbn [map length repeat]. now rewrite Hc, IH.
Qed.
(* ================================================================== *)
(** * The shape of the readability report *)

Section ReadabilityReportProofs.
Context {host : Host}.

(** X14. In every report of [analyzeReadability] each issue comes with
    one suggestion; there are at most four; the score is between 40 and
    100, so that the floor at 0 never applies; and the score is 100
    exactly when there is no issue. *)
Theorem analyzeReadability_report (content : jsstring) :
  let r := analyzeReadability content in
  length (ReadabilityReport.issues r) = length (ReadabilityReport.suggestions r)
  /\ length (ReadabilityReport.issues r) <= 4
  /\ (40 <= ReadabilityReport.score r <= 100)%Z
  /\ (ReadabilityReport.score r = 100%Z <-> ReadabilityReport.issues r = []).
Proof.
  cbv zeta. unfold analyzeReadability. cbv zeta. unfold penalize.
  repeat match goal with
         | |- context [if ?b then _ else _] => destruct b
         end;
    cbn [ReadabilityReport.issues ReadabilityReport.score
         ReadabilityReport.suggestions app length];
    (split; [reflexivity|]); (split; [lia|]); (split; [lia|]);
    split; intros H; try discriminate; try reflexivity; exfalso; lia.
Qed.

End ReadabilityReportProofs.
(* ================================================================== *)
(** * What the preprocessor leaves of a text

    Without chapter detection every step of [preprocessContent] changes
    white space only. *)

Lemma firstn_add {A} n m (l : list A) :
  firstn (n + m) l = firstn n l ++ firstn m (skipn n l).
Proof.
  revert l. induction n as [|n IH]; intros l; [reflexivity|].
  destruct l as [|x l]; [cbn [skipn]; now rewrite !firstn_nil|].
  cbn [Nat.add firstn skipn app]. now rewrite IH.
Qed.

Lemma inked_run p n s :
  (forall c, p c = true -> isSpace c = true) ->
  n <= runLength p s -> inked (firstn n s) = [].
Proof.
  intros Hp Hn. apply inked_blank. apply skipn_runLength_all in Hn.
  revert Hn. generalize (firstn n s). intros l. induction l as [|c l IH]; [reflexivity|].
  cbn [forallb]. intros H. apply andb_prop in H as [Hc Hl].
  now rewrite (Hp c Hc), IH.
Qed.

Lemma inked_cons x l : inked (x :: l) = inked [x] ++ inked l.
Proof. cbn. now destruct (isSpace x). Qed.

Lemma isLF_isSpace c : isLF c = true -> isSpace c = true.
Proof. intros H. apply N.eqb_eq in H. now subst c. Qed.

Lemma isSP_isSpace c : isSP c = true -> isSpace c = true.
Proof. intros H. apply N.eqb_eq in H. now subst c. Qed.

(** A global replacement whose every match is replaced by a text with the
    same units that are not white space leaves those units as they
    are. *)
Lemma plainScan_inked r tmpl :
  (forall s pos e c, matchAt r s pos = Some (e, c) ->
     inked (subst tmpl c) = inked (firstn (e - pos) s)) ->
  forall s pos skip, inked (plainScan r tmpl s pos skip) = inked (skipn skip s).
Proof.
  intros Hm. unfold plainScan. induction s as [|x s IH]; intros pos skip; cbn [scan].
  - destruct skip; cbn [skipn]; [|reflexivity].
    destruct (matchAt r [] pos) as [[e c]|] eqn:E; [|reflexivity].
    rewrite app_nil_r, (Hm _ _ _ _ E). now rewrite firstn_nil.
  - destruct skip as [|skip]; [|apply IH]. cbn [skipn].
    destruct (matchAt r (x :: s) pos) as [[e c]|] eqn:E.
    + rewrite inked_app, (Hm _ _ _ _ E).
      destruct (e - pos) as [|n].
      * change (inked (firstn 0 (x :: s))) with (@nil codeunit). cbn [app].
        rewrite (inked_cons x s). rewrite inked_cons. f_equal. apply (IH (S pos) 0).
      * rewrite IH. rewrite <- inked_app.
        change (skipn n s) with (skipn (S n) (x :: s)). now rewrite firstn_skipn.
    + rewrite (inked_cons x s). rewrite inked_cons. f_equal.
      apply (IH (S pos) 0).
Qed.

Lemma replaceAll_inked r tmpl s :
  (forall s pos e c, matchAt r s pos = Some (e, c) ->
     inked (subst tmpl c) = inked (firstn (e - pos) s)) ->
  inked (replaceAll r tmpl s) = inked s.
Proof. intros H. rewrite replaceAll_plainScan. apply (plainScan_inked r tmpl H s 0 0). Qed.

(** ** The replacements, one by one *)

Lemma inked_crlf s : inked (replaceAll re_crlf [TLit LF] s) = inked s.
Proof.
  apply replaceAll_inked. intros t pos e c H.
  unfold matchAt, re_crlf, chr in H. cbn [run] in H.
  destruct t as [|x [|y t]]; try discriminate.
  - destruct (CR =? x)%N; discriminate.
  - destruct (CR =? x)%N eqn:Ex; [|discriminate].
    destruct (LF =? y)%N eqn:Ey; [|discriminate]. injection H as <- <-.
    apply N.eqb_eq in Ex, Ey. subst x y.
    match goal with |- context [firstn ?k _] => replace k with (2) by lia end. reflexivity.
Qed.

Lemma inked_cr s : inked (replaceAll re_cr [TLit LF] s) = inked s.
Proof.
  apply replaceAll_inked. intros t pos e c H.
  unfold matchAt, re_cr, chr in H. cbn [run] in H.
  destruct t as [|x t]; [discriminate|].
  destruct (CR =? x)%N eqn:Ex; [|discriminate]. injection H as <- <-.
  apply N.eqb_eq in Ex. subst x.
  match goal with |- context [firstn ?k _] => replace k with (1) by lia end. reflexivity.
Qed.

Lemma inked_multiSpace s :
  inked (replaceAll re_multiSpace [TGrp 1; TLit SP] s) = inked s.
Proof.
  apply replaceAll_inked. intros t pos e c H. rewrite matchAt_multiSpace in H.
  destruct t as [|x t]; [discriminate|].
  destruct (notLF x && (2 <=? runLength isSP t)); [|discriminate].
  injection H as <- <-.
  match goal with |- context [firstn ?k _] => replace k with (1 + runLength isSP t) by lia end.
  rewrite firstn_add, inked_app. cbn [skipn].
  rewrite (inked_run isSP _ t isSP_isSpace (le_n _)), app_nil_r.
  cbn. now destruct (isSpace x).
Qed.

Lemma inked_trailingSpace s :
  inked (replaceAll re_trailingSpace [TLit LF] s) = inked s.
Proof.
  apply replaceAll_inked. intros t pos e c H. rewrite matchAt_trailingSpace in H.
  destruct ((1 <=? runLength isSP t) && headIs isLF (afterRun isSP t)) eqn:E;
    [|discriminate].
  injection H as <- <-. apply andb_prop in E as [_ E].
  match goal with |- context [firstn ?k _] => replace k with (runLength isSP t + 1) by lia end.
  rewrite firstn_add, inked_app, (inked_run isSP _ t isSP_isSpace (le_n _)).
  fold (afterRun isSP t). destruct (afterRun isSP t) as [|y u]; [discriminate|].
  cbn [headIs] in E. apply N.eqb_eq in E. subst y. reflexivity.
Qed.

Lemma inked_collapse k s :
  inked (replaceAll (Rep isLF (S k) None) (map TLit (repeat LF k)) s) = inked s.
Proof.
  apply replaceAll_inked. intros t pos e c H.
  unfold matchAt in H. cbn [run] in H. rewrite rep_unbounded in H.
  destruct (S k <=? 0 + runLength isLF t); [|discriminate]. injection H as <- <-.
  match goal with |- context [firstn ?k _] => replace k with (runLength isLF t) by lia end.
  rewrite subst_literal, (inked_run isLF _ t isLF_isSpace (le_n _)).
  apply inked_blank. clear. induction k as [|k IH]; [reflexivity|exact IH].
Qed.

Lemma inked_punctCapital s :
  inked (replaceAll re_punctCapital [TGrp 1; TLit SP; TGrp 2] s) = inked s.
Proof.
  apply replaceAll_inked. intros t pos e c H. rewrite matchAt_punctCapital in H.
  destruct t as [|x [|y t]]; try discriminate.
  destruct (isSentenceStop x && isCapitalOrHangul y); [|discriminate].
  assert (E1 : S pos - pos = 1) by lia.
  assert (E2 : S (S pos) - S pos = 1) by lia.
  assert (E3 : S (S pos) - pos = 2) by lia.
  injection H as <- <-. rewrite E3.
  cbn. destruct (isSpace x), (isSpace y); reflexivity.
Qed.

Lemma inked_spaceBeforePunct s :
  inked (replaceAll re_spaceBeforePunct [TGrp 1] s) = inked s.
Proof.
  apply replaceAll_inked. intros t pos e c H. rewrite matchAt_spaceBeforePunct in H.
  destruct ((1 <=? runLength isSpace t) && headIs isCommaStop (afterRun isSpace t));
    [|discriminate].
  injection H as <- <-.
  match goal with |- context [firstn ?k _] => replace k with (runLength isSpace t + 1) by lia end.
  rewrite firstn_add, inked_app,
    (inked_run isSpace _ t (fun c H => H) (le_n _)).
  fold (afterRun isSpace t). cbn. now rewrite app_nil_r.
Qed.

Lemma inked_hangulStop s :
  inked (replaceAll re_hangulStop [TGrp 1; TLit 46%N; TLit SP; TGrp 2] s) = inked s.
Proof.
  apply replaceAll_inked. intros t pos e c H.
  unfold matchAt, re_hangulStop, chr in H. cbn [seqs run] in H.
  destruct t as [|a [|x [|y t]]]; try discriminate;
    try (destruct (isHangul a); discriminate).
  - destruct (isHangul a); [|discriminate]. destruct (46 =? x)%N; discriminate.
  - destruct (isHangul a); [|discriminate].
    destruct (46 =? x)%N eqn:Ex; [|discriminate].
    destruct (isHangul y); [|discriminate].
    assert (E1 : S pos - pos = 1) by lia.
    assert (E2 : S (S (S pos)) - S (S pos) = 1) by lia.
    assert (E3 : S (S (S pos)) - pos = 3) by lia.
    rewrite E1, E2 in H. injection H as <- <-. rewrite E3.
    apply N.eqb_eq in Ex. subst x.
    cbn. destruct (isSpace a), (isSpace y); reflexivity.
Qed.

Lemma inked_headingSpacing s :
  inked (replaceAll re_headingSpacing
           [TLit LF; TLit LF; TGrp 1; TLit LF; TLit LF] s) = inked s.
Proof.
  apply replaceAll_inked. intros t pos e c H.
  unfold matchAt, re_headingSpacing, star, plus in H. cbn [seqs run] in H.
  apply rep_inv in H as (n1 & Hn1 & _ & _ & H).
  apply rep_inv in H as (a & _ & _ & _ & H).
  apply rep_inv in H as (b & _ & _ & _ & H).
  apply rep_inv in H as (d & _ & _ & _ & H).
  apply rep_inv in H as (n2 & Hn2 & _ & _ & H).
  assert (E1 : pos + n1 + a + b + d - (pos + n1) = a + b + d) by lia.
  rewrite E1 in H. injection H as <- <-.
  assert (E2 : pos + n1 + a + b + d + n2 - pos = n1 + ((a + b + d) + n2)) by lia.
  rewrite E2.
  rewrite !firstn_add, !inked_app, (inked_run isLF n1 t isLF_isSpace Hn1).
  assert (Hs : skipn (a + b + d) (skipn n1 t)
               = skipn d (skipn b (skipn a (skipn n1 t)))).
  { rewrite !skipn_skipn. f_equal. lia. }
  rewrite Hs, (inked_run isLF n2 _ isLF_isSpace Hn2), app_nil_r.
  unfold subst, groupText. cbn [flat_map group Nat.eqb app].
  rewrite (inked_cons LF), (inked_cons LF (_ ++ _)), !inked_app.
  change (inked [LF]) with (@nil codeunit).
  change (inked [LF; LF]) with (@nil codeunit). cbn [app].
  now rewrite ?app_nil_r.
Qed.

Lemma inked_leadingNewlines s :
  inked (replaceFirst re_leadingNewlines [] s) = inked s.
Proof.
  rewrite replaceFirst_leadingNewlines.
  transitivity (inked (firstn (runLength isLF s) s ++ skipn (runLength isLF s) s));
    [|now rewrite firstn_skipn].
  now rewrite inked_app, (inked_run isLF _ s isLF_isSpace (le_n _)).
Qed.

(** ** The line wrap *)

Lemma breakAtSentences_inked trimmed rest : forall j currentLine pushed,
  let (pushed', currentLine') := breakAtSentences trimmed rest j currentLine pushed in
  flat_map inked pushed' ++ inked currentLine'
  = flat_map inked pushed ++ inked currentLine ++ inked rest.
Proof.
  induction rest as [|c rest IH]; intros j currentLine pushed; cbn [breakAtSentences].
  - now rewrite app_nil_r.
  - destruct (detectSentenceEnd trimmed j && (40 <=? length (currentLine ++ [c]))).
    + specialize (IH (S j) [] (pushed ++ [trim (currentLine ++ [c])])).
      destruct (breakAtSentences trimmed rest (S j) []
                  (pushed ++ [trim (currentLine ++ [c])])) as [p' c'].
      rewrite IH, flat_map_app. cbn [flat_map].
      rewrite app_nil_r, inked_trim, inked_app, <- !app_assoc.
      change (c :: rest) with ([c] ++ rest). now rewrite inked_app.
    + specialize (IH (S j) (currentLine ++ [c]) pushed).
      destruct (breakAtSentences trimmed rest (S j) (currentLine ++ [c]) pushed)
        as [p' c'].
      rewrite IH, inked_app, <- !app_assoc.
      change (c :: rest) with ([c] ++ rest). now rewrite inked_app.
Qed.

Section InkProofs.
Context {host : Host}.

Lemma wrapLine_inked line : flat_map inked (wrapLine line) = inked line.
Proof.
  unfold wrapLine. cbv zeta.
  destruct ((length (trim line) <=? 80) || isEmpty (trim line));
    [cbn; apply app_nil_r|].
  destruct (HeadingMatch.isHeading (isChapterHeading (trim line)));
    [cbn; apply app_nil_r|].
  pose proof (breakAtSentences_inked (trim line) (trim line) 0 [] []) as H.
  destruct (breakAtSentences (trim line) (trim line) 0 [] []) as [pushed currentLine].
  cbn [flat_map app] in H. change (inked []) with (@nil codeunit) in H.
  cbn [app] in H. rewrite inked_trim in H. rewrite <- H.
  destruct (isEmpty (trim currentLine)) eqn:E.
  - destruct (trim currentLine) eqn:Et; [|discriminate].
    apply trim_nil in Et. now rewrite (inked_blank _ Et), app_nil_r.
  - rewrite flat_map_app. cbn [flat_map]. now rewrite app_nil_r, inked_trim.
Qed.

Lemma wrap_inked s :
  inked (join [LF] (flat_map wrapLine (split LF s))) = inked s.
Proof.
  rewrite inked_join. rewrite <- (join_split LF s) at 2. rewrite inked_join.
  induction (split LF s) as [|l ls IH]; [reflexivity|].
  cbn [flat_map]. now rewrite flat_map_app, wrapLine_inked, IH.
Qed.

(** X16. Without chapter detection [preprocessContent] changes white
    space only: whatever the three other options, the units of its
    output that are not white space are those of the input, in the same
    order. *)
Theorem preprocessContent_keeps_text
    (content : jsstring) (options : PreprocessOptions) :
  detectChapters options = false ->
  inked (preprocessContent content options) = inked content.
Proof.
  intros Hd. unfold preprocessContent. cbv zeta. rewrite Hd.
  rewrite (inked_collapse 2), inked_leadingNewlines, inked_headingSpacing.
  assert (H1 : inked (replaceAll re_cr [TLit LF] (replaceAll re_crlf [TLit LF] content))
               = inked content) by now rewrite inked_cr, inked_crlf.
  set (z0 := replaceAll re_cr [TLit LF] (replaceAll re_crlf [TLit LF] content)) in *.
  set (z1 := if removeExtraSpaces options then _ else z0).
  assert (H2 : inked z1 = inked content).
  { subst z1. destruct (removeExtraSpaces options); [|exact H1].
    now rewrite (inked_collapse 3), inked_trailingSpace, inked_multiSpace. }
  set (z2 := if fixPunctuation options then _ else z1).
  assert (H3 : inked z2 = inked content).
  { subst z2. destruct (fixPunctuation options); [|exact H2].
    now rewrite inked_hangulStop, inked_spaceBeforePunct, inked_punctCapital. }
  destruct (autoLineBreak options); [|exact H3].
  now rewrite wrap_inked.
Qed.

End InkProofs.

(** X16 at a text with a carriage return, runs of spaces, a full stop
    before a capital, and blank lines. *)
Lemma preprocessContent_keeps_text_witness :
  let content := lit "a   b  " ++ [CR; LF; LF; LF; LF; LF]
                 ++ lit "It ends.Next one ,here ." in
  inked (preprocessContent (host := latinHost) content (mkOptions true false true true))
  = inked content.
Proof.
  intros content.
  apply (preprocessContent_keeps_text (host := latinHost)). reflexivity.
Defined.

(** With chapter detection the colon of [Chapter 1: Start] goes: the
    title is rebuilt from the groups of the pattern. *)
Example preprocessContent_detectChapters_changes_text :
  preprocessContent (host := latinHost) (lit "Chapter 1: Start")
    (mkOptions false true false false)
  = lit "## Chapter 1 Start" ++ [LF; LF].
Proof. vm_compute. reflexivity. Qed.
(* ================================================================== *)
(** * The order of the merged lists among equal keys *)

Lemma filter_flat_map {A B} (p : B -> bool) (f : A -> list B) l :
  filter p (flat_map f l) = flat_map (fun x => filter p (f x)) l.
Proof.
  induction l as [|x l IH]; [reflexivity|].
  cbn [flat_map]. now rewrite filter_app, IH.
Qed.

(** X15. The two sorts of [mergeChunkResults] are stable.  The entries of
    the merged table of contents that have one position are those of the
    chunks, chunk after chunk and in the order each chunk gave them; so
    are the image points of one line number.  None is dropped: what two
    overlapping chunks both report at a position is there twice. *)
Theorem mergeChunkResults_stable
    (results : list ChunkResult.t) (totalWordCount : nat) :
  let merged := mergeChunkResults results totalWordCount in
  let lineOf := fun p =>
    ImageInsertionPoint.lineNumber (ImageInsertionPoint.position p) in
  (forall k : Z,
     filter (fun e => (TOCEntry.position e =? k)%Z)
       (ContentAnalysis.tableOfContents merged)
     = flat_map (fun r => filter (fun e => (TOCEntry.position e =? k)%Z)
                            (ChunkResult.tableOfContents r)) results)
  /\ (forall k : Z,
        filter (fun p => (lineOf p =? k)%Z) (ContentAnalysis.imagePoints merged)
        = flat_map (fun r => filter (fun p => (lineOf p =? k)%Z)
                               (ChunkResult.imagePoints r)) results).
Proof.
  cbv zeta. cbn [mergeChunkResults ContentAnalysis.tableOfContents
                 ContentAnalysis.imagePoints].
  split; intros k.
  - now rewrite (sortByKey_filter TOCEntry.position), filter_flat_map.
  - now rewrite (sortByKey_filter
                   (fun p => ImageInsertionPoint.lineNumber
                               (ImageInsertionPoint.position p))),
                filter_flat_map.
Qed.

(* ================================================================== *)
(** * The chapters for export *)

(** What a match of [/^(#{1,h})\s+(.+)$/] says about the line. *)
Lemma exec_hashHeading_inv h line m :
  exec (seqs [Bol; Grp 1 (Rep isHash 1 (Some h)); plus isSpace; Grp 2 (plus dot); Eol])
    line = Some m ->
  1 <= runLength isHash line <= h
  /\ groupText 1 m = firstn (runLength isHash line) line
  /\ exists n, groupText 2 m = skipn n (afterRun isHash line)
               /\ 1 <= n <= runLength isSpace (afterRun isHash line).
Proof.
  set (re := seqs [Bol; Grp 1 (Rep isHash 1 (Some h)); plus isSpace;
                   Grp 2 (plus dot); Eol]).
  unfold exec. intros H.
  assert (Hm : exists e, matchAt re line 0 = Some (e, m)).
  { destruct line as [|x s]; cbn [search] in H.
    - destruct (matchAt re [] 0) as [[e c]|]; [|discriminate].
      injection H as ->. now exists e.
    - destruct (matchAt re (x :: s) 0) as [[e c]|] eqn:E.
      + injection H as ->. now exists e.
      + unfold re in H. cbn [seqs] in H.
        now rewrite search_Bol_later in H by lia. }
  clear H. destruct Hm as [e Hm].
  unfold matchAt, re, plus in Hm. cbn [seqs run Nat.eqb] in Hm.
  apply rep_inv in Hm as (n & Hn & Hlo & Hhi & Hk).
  apply rep_inv in Hk as (n2 & Hn2 & Hlo2 & _ & Hk).
  apply rep_inv in Hk as (n3 & Hn3 & Hlo3 & _ & Hk).
  destruct (skipn n3 (skipn n2 (skipn n line))) eqn:Eend; [|discriminate].
  injection Hk as <- <-.
  assert (Hsp : headIs isSpace (skipn n line) = true).
  { destruct (skipn n line) as [|y t]; [simpl in Hn2; lia|].
    cbn [runLength] in Hn2. cbn [headIs]. destruct (isSpace y); [reflexivity|lia]. }
  pose proof (run_prefix_whole isHash isSpace line n isSpace_not_isHash Hn Hsp) as En.
  subst n. fold (afterRun isHash line) in *.
  split; [lia|]. split.
  - unfold groupText. cbn [group Nat.eqb]. f_equal. lia.
  - exists n2. split; [|lia].
    unfold groupText. cbn [group Nat.eqb].
    match goal with |- firstn ?k _ = _ => replace k with n3 by lia end.
    transitivity (firstn n3 (skipn n2 (afterRun isHash line))
                  ++ skipn n3 (skipn n2 (afterRun isHash line)));
      [|apply firstn_skipn].
    rewrite Eend. now rewrite app_nil_r.
Qed.

Lemma chapterHeadingMatch_inv line m :
  chapterHeadingMatch line = Some m ->
  isChapterLine line = true
  /\ length (groupText 1 m) = runLength isHash line
  /\ 1 <= runLength isHash line <= 2
  /\ trim (groupText 2 m) = trim (afterRun isHash line).
Proof.
  intros H. unfold isChapterLine. rewrite H. split; [reflexivity|].
  unfold chapterHeadingMatch in H.
  destruct (exec re_chapterHeading line) as [m'|] eqn:E; [|discriminate].
  destruct (length (groupText 1 m') <=? 2); [|discriminate]. injection H as ->.
  apply exec_hashHeading_inv in E as (Hl & H1 & n & H2 & Hn).
  split; [now rewrite H1, length_firstn_run|]. split; [exact Hl|].
  rewrite H2. apply trim_skip_spaces. lia.
Qed.

(** The text and the shape of the chapters, along the loop. *)
Definition chapterText (st : list Chapter.t * option openChapter) : jsstring :=
  flat_map (fun ch => inked (Chapter.content ch)) (fst st)
  ++ match snd st with
     | Some c => flat_map inked (openLines c)
     | None => []
     end.

Definition chapterCount (st : list Chapter.t * option openChapter) : nat :=
  length (fst st) + match snd st with Some _ => 1 | None => 0 end.

Definition chapterShape (lines : list jsstring)
    (st : list Chapter.t * option openChapter) : Prop :=
  Forall (fun ch => chapterFrom lines (Chapter.title ch) (Chapter.level ch)
                    /\ trim (Chapter.content ch) = Chapter.content ch) (fst st)
  /\ match snd st with
     | Some c => chapterFrom lines (openTitle c) (openLevel c)
     | None => fst st = []
     end
  /\ chapterCount st <= 1 + length (filter isChapterLine lines).

Lemma inked_closeChapter c :
  inked (Chapter.content (closeChapter c)) = flat_map inked (openLines c).
Proof. cbn [closeChapter Chapter.content]. now rewrite inked_trim, inked_join. Qed.

Lemma chapterStep_text st line :
  chapterText (chapterStep st line)
  = chapterText st ++ (if isChapterLine line then [] else inked line).
Proof.
  destruct st as [chapters [c|]]; unfold chapterStep, isChapterLine, chapterText;
    destruct (chapterHeadingMatch line) as [m|]; cbn [fst snd openLines flat_map].
  - rewrite flat_map_app. cbn [flat_map].
    now rewrite inked_closeChapter, !app_nil_r.
  - rewrite flat_map_app, <- app_assoc. cbn [flat_map]. now rewrite app_nil_r.
  - now rewrite !app_nil_r.
  - now rewrite !app_nil_r.
Qed.

Lemma chapterLoop_text lines : forall st,
  chapterText (fold_left chapterStep lines st)
  = chapterText st
    ++ flat_map inked (filter (fun l => negb (isChapterLine l)) lines).
Proof.
  induction lines as [|line lines IH]; intros st; cbn [fold_left filter].
  - now rewrite app_nil_r.
  - rewrite IH, chapterStep_text, <- app_assoc.
    destruct (isChapterLine line); reflexivity.
Qed.

Lemma chapterFrom_more lines line title level :
  chapterFrom lines title level -> chapterFrom (lines ++ [line]) title level.
Proof.
  intros [H|(l & Hin & H)]; [now left|].
  right. exists l. split; [apply in_or_app; now left|exact H].
Qed.

Lemma chapterStep_shape lines st line :
  chapterShape lines st -> chapterShape (lines ++ [line]) (chapterStep st line).
Proof.
  intros (H1 & H2 & H3).
  assert (H1' : Forall (fun ch => chapterFrom (lines ++ [line]) (Chapter.title ch)
                                    (Chapter.level ch)
                                  /\ trim (Chapter.content ch) = Chapter.content ch)
                       (fst st)).
  { eapply Forall_impl; [|exact H1]. intros ch [Ha Hb].
    split; [now apply chapterFrom_more|exact Hb]. }
  unfold chapterShape. rewrite filter_app, length_app. cbn [filter].
  destruct st as [chapters cur]. unfold chapterStep, chapterCount in *.
  cbn [fst snd] in *.
  destruct (chapterHeadingMatch line) as [m|] eqn:E.
  - apply chapterHeadingMatch_inv in E as (Hl & Hg1 & Hlv & Hg2).
    rewrite Hl. cbn [length fst snd openTitle openLevel].
    assert (Hnew : chapterFrom (lines ++ [line]) (trim (groupText 2 m))
                     (length (groupText 1 m))).
    { right. exists line. split; [apply in_or_app; right; now left|].
      split; [exact Hl|]. split; [exact Hg1|]. split; [lia|exact Hg2]. }
    destruct cur as [c|].
    + split; [|split; [exact Hnew|rewrite length_app; cbn [length]; lia]].
      apply Forall_app. split; [exact H1'|]. constructor; [|constructor].
      cbn [closeChapter Chapter.title Chapter.level Chapter.content].
      split; [now apply chapterFrom_more|apply trim_trim].
    + split; [exact H1'|]. split; [exact Hnew|]. subst chapters. cbn [length]. lia.
  - assert (Hl : isChapterLine line = false) by (unfold isChapterLine; now rewrite E).
    rewrite Hl. cbn [length]. destruct cur as [c|]; cbn [fst snd openTitle openLevel].
    + split; [exact H1'|]. split; [now apply chapterFrom_more|lia].
    + split; [exact H1'|]. split; [now left|]. subst chapters. cbn [length]. lia.
Qed.

Lemma chapterLoop_shape rest : forall lines st,
  chapterShape lines st ->
  chapterShape (lines ++ rest) (fold_left chapterStep rest st).
Proof.
  induction rest as [|line rest IH]; intros lines st H; cbn [fold_left].
  - now rewrite app_nil_r.
  - replace (lines ++ line :: rest) with ((lines ++ [line]) ++ rest)
      by now rewrite <- app_assoc.
    apply IH. now apply chapterStep_shape.
Qed.

Lemma filter_length_le' {A} (p : A -> bool) l : length (filter p l) <= length l.
Proof.
  induction l as [|x l IH]; [reflexivity|]. cbn [filter]. destruct (p x); cbn [length]; lia.
Qed.

Lemma flat_map_filter_nonempty {A} (f : A -> jsstring) (g : A -> jsstring) l :
  (forall x, g x = [] -> f x = []) ->
  flat_map f (filter (fun x => 0 <? length (g x)) l) = flat_map f l.
Proof.
  intros H. induction l as [|x l IH]; [reflexivity|]. cbn [filter flat_map].
  destruct (0 <? length (g x)) eqn:E; cbn [flat_map]; rewrite IH; [reflexivity|].
  rewrite (H x); [reflexivity|]. now destruct (g x).
Qed.

(** X17. Of the lines that are not headings of one or two hashes,
    [splitIntoChapters] keeps every unit that is not white space, in
    order, in the contents of its chapters: dropping the chapters with no
    content loses no text of the body. *)
Theorem splitIntoChapters_text (markdown : jsstring) :
  flat_map (fun ch => inked (Chapter.content ch)) (splitIntoChapters markdown)
  = flat_map inked
      (filter (fun l => negb (isChapterLine l)) (split LF markdown)).
Proof.
  unfold splitIntoChapters. cbv zeta.
  pose proof (chapterLoop_text (split LF markdown) ([], None)) as H.
  destruct (fold_left chapterStep (split LF markdown) ([], None)) as [chapters cur].
  unfold chapterText in H. cbn [fst snd flat_map app] in H. rewrite <- H.
  rewrite (flat_map_filter_nonempty (fun ch => inked (Chapter.content ch))
             Chapter.content) by (intros x E; now rewrite E).
  destruct cur as [c|]; [|now rewrite app_nil_r].
  rewrite flat_map_app. cbn [flat_map]. now rewrite inked_closeChapter, app_nil_r.
Qed.

(** X18. Every chapter of [splitIntoChapters] has a content that is not
    empty and has no white space at either end, and comes from a line of
    the text: its level is the number of hashes that start the line, one
    or two, and its title the rest of the line, trimmed; or it is the
    chapter [Introduction] of level 1.  There is at most one chapter for
    each heading line, and one more. *)
Theorem splitIntoChapters_chapters (markdown : jsstring) :
  let lines := split LF markdown in
  let chapters := splitIntoChapters markdown in
  Forall (fun ch => chapterFrom lines (Chapter.title ch) (Chapter.level ch)
                    /\ Chapter.content ch <> []
                    /\ trim (Chapter.content ch) = Chapter.content ch) chapters
  /\ length chapters <= 1 + length (filter isChapterLine lines).
Proof.
  cbv zeta. unfold splitIntoChapters. cbv zeta.
  pose proof (chapterLoop_shape (split LF markdown) [] ([], None)) as H.
  cbn [app] in H.
  destruct (fold_left chapterStep (split LF markdown) ([], None)) as [chapters cur].
  set (all := match cur with
              | Some c => chapters ++ [closeChapter c]
              | None => chapters
              end).
  assert (Hall : Forall (fun ch => chapterFrom (split LF markdown) (Chapter.title ch)
                                     (Chapter.level ch)
                                   /\ trim (Chapter.content ch) = Chapter.content ch) all
                 /\ length all <= 1 + length (filter isChapterLine (split LF markdown))).
  { destruct H as (H1 & H2 & H3).
    - split; [constructor|]. split; [reflexivity|]. cbn. lia.
    - unfold chapterCount in H3. cbn [fst snd] in *. subst all.
      destruct cur as [c|].
      + split; [|rewrite length_app; cbn [length]; lia].
        apply Forall_app. split; [exact H1|]. constructor; [|constructor].
        cbn [closeChapter Chapter.title Chapter.level Chapter.content].
        split; [exact H2|apply trim_trim].
      + split; [exact H1|lia]. }
  clearbody all. destruct Hall as [Ha Hb]. split.
  - apply Forall_forall. intros ch Hin. apply filter_In in Hin as [Hin Hne].
    rewrite Forall_forall in Ha. destruct (Ha ch Hin) as [H1 H2].
    split; [exact H1|]. split; [|exact H2].
    intros E. rewrite E in Hne. discriminate.
  - pose proof (filter_length_le' (fun ch => 0 <? length (Chapter.content ch)) all). lia.
Qed.

(* ================================================================== *)
(** * Where the line wrap breaks a line *)









Section WrapProofs.
Context {host : Host}.


End WrapProofs.

(* ================================================================== *)
(** * The word count *)

Lemma matchAt_whiteSpace s pos :
  matchAt re_whiteSpace s pos
  = if 1 <=? runLength isSpace s then Some (pos + runLength isSpace s, []) else None.
Proof. unfold matchAt, re_whiteSpace, plus. cbn [run]. now rewrite rep_unbounded. Qed.

Lemma wordRunsFrom_skip_spaces s : forall n,
  n <= runLength isSpace s ->
  wordRunsFrom false (skipn n s) = wordRunsFrom false s.
Proof.
  induction s as [|c s IH]; intros n Hn.
  - now destruct n.
  - destruct n as [|n]; [reflexivity|]. cbn [runLength] in Hn.
    cbn [skipn wordRunsFrom]. destruct (isSpace c); [|lia].
    cbn [Nat.add]. apply IH. lia.
Qed.

Lemma runLength_le_length (p : codeunit -> bool) s : runLength p s <= length s.
Proof.
  induction s as [|c s IH]; [reflexivity|]. cbn [runLength length].
  destruct (p c); lia.
Qed.

Lemma length_substring doc p q :
  p <= q <= length doc -> length (substring doc p q) = q - p.
Proof.
  intros H. unfold substring. rewrite length_firstn, length_skipn. lia.
Qed.

Definition nonEmptyCount (pieces : list jsstring) : nat :=
  length (filter (fun w => 0 <? length w) pieces).

Lemma nonEmptyCount_cons x l :
  nonEmptyCount (x :: l) = nonEmptyCount [x] + nonEmptyCount l.
Proof.
  unfold nonEmptyCount. cbn [filter]. now destruct (0 <? length x).
Qed.

Lemma nonEmptyCount_substring doc p q :
  p <= q <= length doc -> nonEmptyCount [substring doc p q] = if p <? q then 1 else 0.
Proof.
  intros H. unfold nonEmptyCount. cbn [filter]. rewrite (length_substring doc p q H).
  destruct (p <? q) eqn:E.
  - apply Nat.ltb_lt in E.
    assert ((0 <? q - p) = true) as -> by (apply Nat.ltb_lt; lia). reflexivity.
  - apply Nat.ltb_ge in E.
    assert ((0 <? q - p) = false) as -> by (apply Nat.ltb_ge; lia). reflexivity.
Qed.

(** The loop on [/\s+/]: it ends, and the pieces it adds that are not
    empty are the runs that end after [q]. *)
Lemma splitLoop_whiteSpace doc :
  (N.of_nat (length doc) < splitLimit)%N ->
  forall fuel p q A,
    p <= q <= length doc -> length doc - q <= fuel -> length A <= q ->
    exists pieces,
      splitLoop re_whiteSpace doc fuel p q A = Some (A ++ pieces)
      /\ nonEmptyCount pieces = wordRunsFrom (p <? q) (skipn q doc).
Proof.
  intros Hlim. induction fuel as [|fuel IH]; intros p q A Hpq Hfuel HA.
  - assert (q = length doc) as -> by lia.
    cbn [splitLoop]. rewrite Nat.ltb_irrefl, skipn_all.
    exists [substring doc p (length doc)]. split; [reflexivity|].
    now rewrite nonEmptyCount_substring by lia.
  - cbn [splitLoop]. destruct (q <? length doc) eqn:Eq.
    + apply Nat.ltb_lt in Eq.
      destruct (skipn q doc) as [|c t] eqn:Et.
      { apply (f_equal (@length _)) in Et. rewrite length_skipn in Et.
        cbn [length] in Et. lia. }
      rewrite matchAt_whiteSpace.
      assert (Hrun : runLength isSpace (c :: t) <= length doc - q).
      { rewrite <- length_skipn, Et. apply runLength_le_length. }
      cbn [runLength] in Hrun |- *. cbn [wordRunsFrom].
      destruct (isSpace c) eqn:Ec.
      * change (1 <=? S (runLength isSpace t)) with true. cbv iota.
        set (r := S (runLength isSpace t)) in *.
        assert (Emin : Nat.min (q + r) (length doc) = q + r) by lia.
        rewrite Emin.
        assert ((q + r =? p) = false) as -> by (apply Nat.eqb_neq; lia).
        assert (Hlen : length (A ++ [substring doc p q]) = S (length A))
          by (rewrite length_app; cbn [length]; lia).
        assert (Hnolim : (N.of_nat (length (A ++ [substring doc p q])) =? splitLimit)%N
                         = false).
        { apply N.eqb_neq. rewrite Hlen. lia. }
        cbv zeta. rewrite Hnolim.
        destruct (IH (q + r) (q + r) (A ++ [substring doc p q]))
          as (pieces & Hp & Hc); [lia|lia|lia|].
        exists (substring doc p q :: pieces). split.
        -- rewrite Hp, <- app_assoc. reflexivity.
        -- rewrite nonEmptyCount_cons, nonEmptyCount_substring by lia.
           rewrite Hc, Nat.ltb_irrefl.
           f_equal. rewrite Nat.add_comm, <- skipn_skipn, Et.
           subst r. cbn [skipn]. apply wordRunsFrom_skip_spaces. lia.
      * change (1 <=? 0) with false. cbv iota.
        destruct (IH p (q + 1) A) as (pieces & Hp & Hc); [lia|lia|lia|].
        exists pieces. split; [exact Hp|]. rewrite Hc.
        assert ((p <? q + 1) = true) as -> by (apply Nat.ltb_lt; lia).
        replace (q + 1) with (1 + q) by lia.
        now rewrite <- skipn_skipn, Et.
    + apply Nat.ltb_ge in Eq. assert (q = length doc) as -> by lia.
      rewrite skipn_all. exists [substring doc p (length doc)]. split; [reflexivity|].
      now rewrite nonEmptyCount_substring by lia.
Qed.

Lemma wordRunsFrom_true s : 1 <= wordRunsFrom true s.
Proof.
  induction s as [|c s IH]; cbn [wordRunsFrom]; [lia|]. destruct (isSpace c); lia.
Qed.

Lemma wordRuns_blank s : wordRuns s = 0 <-> forallb isSpace s = true.
Proof.
  unfold wordRuns. induction s as [|c s IH]; cbn [wordRunsFrom forallb]; [tauto|].
  destruct (isSpace c); cbn [andb Nat.add]; [exact IH|].
  pose proof (wordRunsFrom_true s). split; [lia|discriminate].
Qed.

Lemma wordRunsFrom_le s : forall b,
  2 * wordRunsFrom b s <= length s + (if b then 2 else 1).
Proof.
  induction s as [|c s IH]; intros b; cbn [wordRunsFrom length].
  - destruct b; lia.
  - destruct (isSpace c).
    + specialize (IH false). cbv iota in IH. destruct b; lia.
    + specialize (IH true). cbv iota in IH. destruct b; lia.
Qed.

Lemma totalWordCount_wordRuns content :
  (N.of_nat (length content) < splitLimit)%N ->
  totalWordCount content = Some (wordRuns content).
Proof.
  intros Hlim.
  unfold totalWordCount, splitRegex. destruct content as [|c s] eqn:E; [reflexivity|].
  rewrite <- E in *.
  destruct (splitLoop_whiteSpace content Hlim (2 * length content + 1) 0 0 [])
    as (pieces & Hp & Hc); [lia|lia|cbn; lia|].
  rewrite Hp. cbn [app]. unfold nonEmptyCount in Hc. rewrite Hc.
  rewrite Nat.ltb_irrefl. reflexivity.
Qed.

(** X20. The word count of [analyzeContent] is the number of maximal runs
    of units that are not white space: the split ends, and however much
    white space separates the words, or starts or ends the text, it
    counts each word once.  The count is zero for a blank text only, and
    at most half the length of the text, rounded up. *)
Theorem totalWordCount_runs (content : jsstring) :
  (N.of_nat (length content) < splitLimit)%N ->
  totalWordCount content = Some (wordRuns content)
  /\ (wordRuns content = 0 <-> forallb isSpace content = true)
  /\ 2 * wordRuns content <= length content + 1.
Proof.
  intros Hlim. split; [now apply totalWordCount_wordRuns|].
  split; [apply wordRuns_blank|apply (wordRunsFrom_le content false)].
Qed.

(** X20 at a text of two words with white space around them. *)
Lemma totalWordCount_runs_witness :
  let content := [SP] ++ lit "two" ++ [SP; LF; SP] ++ lit "words" ++ [LF] in
  totalWordCount content = Some 2.
Proof.
  intros content.
  refine (proj1 (totalWordCount_runs content _)).
  vm_compute. reflexivity.
Defined.

(* ================================================================== *)
(** * The word count of the local analysis *)

Lemma replaceAllWith_no_match r f s : forall pos,
  (forall n pos', matchAtLazy r (skipn n s) pos' = None) ->
  replaceAllWith r f s pos 0 = s.
Proof.
  induction s as [|x s IH]; intros pos H; cbn [replaceAllWith].
  - pose proof (H 0 pos) as H0. cbn [skipn] in H0. now rewrite H0.
  - pose proof (H 0 pos) as H0. cbn [skipn] in H0. rewrite H0.
    f_equal. apply IH. intros n pos'. apply (H (S n) pos').
Qed.

(** A pattern that starts with a literal unit matches only where that
    unit stands. *)
Lemma matchAtLazy_codeBlock_none s pos :
  Forall (fun c => (BACKTICK =? c)%N = false) s ->
  matchAtLazy re_codeBlock s pos = None.
Proof.
  intros H. unfold matchAtLazy, re_codeBlock. cbn [runLazy seqs run chr].
  destruct H as [|x s Hx _]; [reflexivity|]. now rewrite Hx.
Qed.

Lemma matchAt_inlineCode_none s pos :
  Forall (fun c => (BACKTICK =? c)%N = false) s ->
  matchAt re_inlineCode s pos = None.
Proof.
  intros H. unfold matchAt, re_inlineCode. cbn [seqs run chr].
  destruct H as [|x s Hx _]; [reflexivity|]. now rewrite Hx.
Qed.

Lemma matchAtLazy_link_none s pos :
  Forall (fun c => (LBRACKET =? c)%N = false) s ->
  matchAtLazy re_link s pos = None.
Proof.
  intros H. unfold matchAtLazy, re_link, bracketsThenParens. cbn [runLazy run chr].
  destruct H as [|x s Hx _]; [reflexivity|]. now rewrite Hx.
Qed.

Lemma matchAtLazy_image_none s pos :
  Forall (fun c => (LBRACKET =? c)%N = false) s ->
  matchAtLazy re_image s pos = None.
Proof.
  intros H. unfold matchAtLazy, re_image, bracketsThenParens. cbn [runLazy run chr].
  destruct H as [|x s Hx H]; [reflexivity|].
  destruct (BANG =? x)%N; [|reflexivity].
  destruct H as [|y t Hy _]; [reflexivity|]. now rewrite Hy.
Qed.

Lemma replaceAll_class_removed p s :
  replaceAll (Cls p) [] s = filter (fun c => negb (p c)) s.
Proof.
  rewrite replaceAll_plainScan.
  apply (plainScan_spec _ _ (filter (fun c => negb (p c)))).
  - reflexivity.
  - reflexivity.
  - intros x t pos H. unfold matchAt in H. cbn [run] in H. cbn [filter].
    destruct (p x); [discriminate|reflexivity].
  - intros x t pos e c H. unfold matchAt in H. cbn [run] in H.
    destruct (p x) eqn:E; [|discriminate].
    injection H as <- <-. exists 0. split; [lia|]. cbn [filter skipn subst flat_map app].
    now rewrite E.
Qed.

(** The text that [countWords] counts, when no code and no link is to be
    taken off. *)
Lemma plainTextOf_plain content :
  Forall (fun c => (BACKTICK =? c)%N = false) content ->
  Forall (fun c => (LBRACKET =? c)%N = false) content ->
  plainTextOf content
  = trim (filter (fun c => negb (isMarkdownSymbol c)) content).
Proof.
  intros Hb Hl. unfold plainTextOf. cbv zeta.
  rewrite (replaceAllWith_no_match re_codeBlock)
    by (intros n pos'; apply matchAtLazy_codeBlock_none; now apply skipn_Forall).
  rewrite (replaceAll_plainScan re_inlineCode), plainScan_no_match
    by (intros n pos'; apply matchAt_inlineCode_none; now apply skipn_Forall).
  rewrite (replaceAllWith_no_match re_image)
    by (intros n pos'; apply matchAtLazy_image_none; now apply skipn_Forall).
  rewrite (replaceAllWith_no_match re_link)
    by (intros n pos'; apply matchAtLazy_link_none; now apply skipn_Forall).
  now rewrite replaceAll_class_removed.
Qed.

Lemma wordRunsFrom_spaces_after ws : forall b s,
  forallb isSpace ws = true -> wordRunsFrom b (s ++ ws) = wordRunsFrom b s.
Proof.
  intros b s H. revert b. induction s as [|c s IH]; intros b; cbn [app wordRunsFrom].
  - revert b. induction ws as [|w ws IHw]; intros b; [reflexivity|].
    cbn [forallb] in H. apply andb_prop in H as [Hw Hws]. cbn [wordRunsFrom].
    rewrite Hw. specialize (IHw Hws false). cbn [wordRunsFrom] in IHw.
    rewrite IHw. destruct b; reflexivity.
  - destruct (isSpace c); now rewrite IH.
Qed.

Lemma wordRuns_spaces_before ws s :
  forallb isSpace ws = true -> wordRuns (ws ++ s) = wordRuns s.
Proof.
  unfold wordRuns. induction ws as [|w ws IH]; intros H; [reflexivity|].
  cbn [forallb] in H. apply andb_prop in H as [Hw Hws].
  cbn [app wordRunsFrom]. rewrite Hw. now apply IH.
Qed.

Lemma trimStart_split s :
  exists ws, forallb isSpace ws = true /\ s = ws ++ trimStart s.
Proof.
  induction s as [|c s (ws & Hws & E)]; [now exists []|]. cbn [trimStart].
  destruct (isSpace c) eqn:Ec.
  - exists (c :: ws). cbn [forallb app]. rewrite Ec, Hws. split; [reflexivity|].
    now rewrite <- E.
  - now exists [].
Qed.

Lemma trim_split s :
  exists pre post,
    forallb isSpace pre = true /\ forallb isSpace post = true
    /\ s = pre ++ trim s ++ post.
Proof.
  destruct (trimStart_split s) as (pre & Hpre & E).
  destruct (trimStart_split (rev (trimStart s))) as (post & Hpost & E').
  exists pre, (rev post). split; [exact Hpre|]. split; [now rewrite forallb_rev|].
  rewrite E at 1. f_equal. unfold trim, trimEnd.
  rewrite <- rev_app_distr, <- E'. now rewrite rev_involutive.
Qed.

Lemma wordRuns_trim s : wordRuns (trim s) = wordRuns s.
Proof.
  destruct (trim_split s) as (pre & post & Hpre & Hpost & E).
  rewrite E at 2. rewrite wordRuns_spaces_before by exact Hpre.
  unfold wordRuns. now rewrite wordRunsFrom_spaces_after.
Qed.

Lemma length_trim s : length (trim s) <= length s.
Proof.
  destruct (trim_split s) as (pre & post & _ & _ & E).
  rewrite E at 2. rewrite !length_app. lia.
Qed.

(** X21. On a text with no backtick and no opening bracket, [countWords]
    counts the words that are left when the markdown symbols
    [# * _ ~ > | -] are taken out: a symbol inside a word does not split
    it, and a symbol that stands alone is no word.  On a text that has
    none of these symbols either, it is the count that [analyzeContent]
    takes. *)
Theorem countWords_plain (content : jsstring) :
  Forall (fun c => (BACKTICK =? c)%N = false) content ->
  Forall (fun c => (LBRACKET =? c)%N = false) content ->
  (N.of_nat (length content) < splitLimit)%N ->
  countWords content
  = Some (wordRuns (filter (fun c => negb (isMarkdownSymbol c)) content))
  /\ (forallb (fun c => negb (isMarkdownSymbol c)) content = true ->
      countWords content = totalWordCount content).
Proof.
  intros Hb Hl Hlim.
  assert (Hc : countWords content
               = Some (wordRuns (filter (fun c => negb (isMarkdownSymbol c)) content))).
  { unfold countWords. rewrite (plainTextOf_plain content Hb Hl).
    rewrite totalWordCount_wordRuns.
    - now rewrite wordRuns_trim.
    - pose proof (length_trim (filter (fun c => negb (isMarkdownSymbol c)) content)).
      pose proof (filter_length_le' (fun c => negb (isMarkdownSymbol c)) content).
      lia. }
  split; [exact Hc|]. intros Hplain. rewrite Hc.
  rewrite (totalWordCount_wordRuns content Hlim).
  do 2 f_equal. clear -Hplain. induction content as [|c s IH]; [reflexivity|].
  cbn [forallb] in Hplain. apply andb_prop in Hplain as [Hc Hs].
  cbn [filter]. rewrite Hc. f_equal. now apply IH.
Qed.

(** X21 at a heading line with a dash that stands alone. *)
Lemma countWords_plain_witness :
  let content := lit "# Two words - well-known" in
  countWords content = Some 3.
Proof.
  intros content.
  refine (proj1 (countWords_plain content _ _ _)).
  - repeat constructor.
  - repeat constructor.
  - vm_compute. reflexivity.
Defined.

